(** * Burrow offset storage and lag evaluation (offsets_store.go)

    A shallow embedding of the storage actor of Burrow: the broker and
    consumer offset tables, the two ingest handlers, the group evaluator
    and the query handlers, followed by the properties established for
    them.

    Conventions of the embedding.
    - Go's fixed-width integers are values of [Z]; every arithmetic
      operation of the source that can leave its type is wrapped
      explicitly ([wrap64], [wrap32], [wrapu64]).
    - Go maps are [gmap]s.  Go leaves the iteration order of a map
      unspecified; wherever the source ranges over a map the model
      ranges over [map_to_list].
    - A slice of pointers is a list of options ([None] is the nil
      pointer).  The pointed-to objects are referenced from exactly one
      slot, so in-place mutation through the pointer is an update of
      that slot.
    - A run-time panic (index out of range, nil dereference, failed type
      assertion, negative length for make) is the outcome [Panic].
    - Each handler runs under the locks it takes and is modelled as one
      atomic function on the storage; [time.Now()] is a parameter. *)

From stdpp Require Import gmap strings list fin_maps.
From Stdlib Require Import ZArith Lia.

Local Open Scope Z_scope.

(** ** Machine integers *)

Definition wrap64 (z : Z) : Z := (z + 2 ^ 63) mod 2 ^ 64 - 2 ^ 63.
Definition wrap32 (z : Z) : Z := (z + 2 ^ 31) mod 2 ^ 32 - 2 ^ 31.
Definition wrapu64 (z : Z) : Z := z mod 2 ^ 64.

Definition int64_range (z : Z) : Prop := - 2 ^ 63 <= z < 2 ^ 63.
Definition int32_range (z : Z) : Prop := - 2 ^ 31 <= z < 2 ^ 31.

(** ** Outcome of a handler *)

Inductive result (A : Type) : Type :=
| Ok (a : A)
| Panic.
Arguments Ok {A} a.
Arguments Panic {A}.

Global Instance result_bind : MBind result := λ A B k r,
  match r with
  | Ok a => k a
  | Panic => Panic
  end.

Global Instance result_fmap : FMap result := λ A B f r,
  match r with
  | Ok a => Ok (f a)
  | Panic => Panic
  end.

(** ** Data model *)

Record PartitionOffset := {
  po_Cluster : string;
  po_Topic : string;
  po_Partition : Z;            (* int32 *)
  po_Offset : Z;               (* int64 *)
  po_Timestamp : Z;            (* int64 *)
  po_Group : string;
  po_TopicPartitionCount : Z   (* int *)
}.

Record BrokerOffset := {
  bo_Offset : Z;
  bo_Timestamp : Z
}.

Record ConsumerOffset := {
  co_Offset : Z;
  co_Timestamp : Z;
  co_Lag : Z;
  co_artificial : bool
}.

(** A non-nil [*ring.Ring] is the circular list read forward from the
    element the pointer designates: the head of the list is [r.Value],
    the last element is [r.Prev().Value], and [r.Next()] rotates the
    list by one.  [r.Do] visits the elements in list order. *)
Abbreviation Ring := (list (option ConsumerOffset)).

Record ClusterOffsets := {
  broker : gmap string (list (option BrokerOffset));
  consumer : gmap string (gmap string (list (option Ring)))
}.

Record Lagcheck := {
  Intervals : Z;     (* int *)
  MinDistance : Z;   (* int64 *)
  ExpireGroup : Z    (* int64 *)
}.

(** The compiled blacklists are kept as their [MatchString] functions;
    [None] is the nil regexp. *)
Record OffsetStorage := {
  lagcheck : Lagcheck;
  offsets : gmap string ClusterOffsets;
  groupBlacklist : option (string → bool);
  topicBlacklist : option (string → bool)
}.

Inductive StatusConstant :=
| StatusNotFound
| StatusOK
| StatusWarning
| StatusError
| StatusStop
| StatusStall
| StatusRewind.

Definition StatusString (c : StatusConstant) : string :=
  match c with
  | StatusNotFound => "NOTFOUND"
  | StatusOK => "OK"
  | StatusWarning => "WARN"
  | StatusError => "ERR"
  | StatusStop => "STOP"
  | StatusStall => "STALL"
  | StatusRewind => "REWIND"
  end.

Record PartitionStatus := {
  ps_Topic : string;
  ps_Partition : Z;
  ps_Status : StatusConstant;
  ps_Start : ConsumerOffset;
  ps_End : ConsumerOffset
}.

(** The reply of [evaluateGroup] as its receiver reads it: the pointers
    of [Partitions] and [Maxlag] followed. *)
Record ConsumerGroupStatus := {
  cgs_Cluster : string;
  cgs_Group : string;
  cgs_Status : StatusConstant;
  cgs_Complete : bool;
  cgs_Partitions : list PartitionStatus;
  cgs_TotalPartitions : Z;
  cgs_Maxlag : option PartitionStatus;
  cgs_TotalLag : Z
}.

Record ResponseTopicList := {
  rtl_TopicList : list string;
  rtl_Error : bool
}.

Record ResponseOffsets := {
  ro_OffsetList : list Z;
  ro_ErrorGroup : bool;
  ro_ErrorTopic : bool
}.

Inductive Request :=
| RequestClusterList
| RequestConsumerList (cluster : string)
| RequestTopicList (cluster group : string)
| RequestOffsets (cluster topic group : string)
| RequestConsumerStatus (cluster group : string) (showall : bool)
| RequestConsumerDrop (cluster group : string).

(** What is sent on the request's [Result] channel. *)
Inductive Reply :=
| ReplyClusterList (l : list string)
| ReplyConsumerList (l : list string)
| ReplyTopicList (r : ResponseTopicList)
| ReplyOffsets (r : ResponseOffsets)
| ReplyConsumerStatus (r : ConsumerGroupStatus)
| ReplyConsumerDrop (c : StatusConstant).

(** ** Storage updates *)

Definition set_offsets (storage : OffsetStorage)
    (o : gmap string ClusterOffsets) : OffsetStorage :=
  {| lagcheck := lagcheck storage;
     offsets := o;
     groupBlacklist := groupBlacklist storage;
     topicBlacklist := topicBlacklist storage |}.

Definition set_broker (storage : OffsetStorage) (cluster : string)
    (clusterMap : ClusterOffsets)
    (b : gmap string (list (option BrokerOffset))) : OffsetStorage :=
  set_offsets storage
    (<[cluster := {| broker := b; consumer := consumer clusterMap |}]>
       (offsets storage)).

Definition set_consumer (storage : OffsetStorage) (cluster : string)
    (clusterMap : ClusterOffsets)
    (c : gmap string (gmap string (list (option Ring)))) : OffsetStorage :=
  set_offsets storage
    (<[cluster := {| broker := broker clusterMap; consumer := c |}]>
       (offsets storage)).

(** [NewOffsetStorage]: one empty [ClusterOffsets] per configured
    cluster. *)
Definition emptyCluster : ClusterOffsets :=
  {| broker := ∅; consumer := ∅ |}.

Definition NewOffsetStorage (lc : Lagcheck) (clusters : list string)
    (gbl tbl : option (string → bool)) : OffsetStorage :=
  {| lagcheck := lc;
     offsets := list_to_map ((λ c, (c, emptyCluster)) <$> clusters);
     groupBlacklist := gbl;
     topicBlacklist := tbl |}.

(** ** Slices *)

(** [make([]*T, n)]: panics on a negative length (the failure of an
    allocation too large for the memory is not modelled). *)
Definition makeSlice {A : Type} (n : Z) : result (list (option A)) :=
  if n <? 0 then Panic else Ok (replicate (Z.to_nat n) None).

(** [for i := len(l); i < count; i++ { l = append(l, nil) }] *)
Definition growTo {A : Type} (l : list (option A)) (count : Z)
    : list (option A) :=
  l ++ replicate (Z.to_nat (count - Z.of_nat (length l))) None.

(** [l[i]] for a signed index: panics out of range. *)
Definition index {A : Type} (l : list A) (i : Z) : result A :=
  if i <? 0 then Panic
  else match l !! Z.to_nat i with
       | Some x => Ok x
       | None => Panic
       end.

(** ** Broker offset ingest *)

(** The slice stored in [clusterMap.broker] is made with its length as
    capacity and is never stored back after [append]: as soon as one
    element is appended, [topicList] is a fresh array, private to the
    call, holding copies of the stored pointers.  A write to one of its
    slots is then lost, whereas a write through a pointer it shares with
    the stored slice is seen in the table. *)
Definition addBrokerOffset (storage : OffsetStorage)
    (offset : PartitionOffset) : result OffsetStorage :=
  match offsets storage !! po_Cluster offset with
  | None => Ok storage
  | Some clusterMap =>
      '(stored, brokerMap) ←
        match broker clusterMap !! po_Topic offset with
        | Some l => Ok (l, broker clusterMap)
        | None =>
            l ← makeSlice (po_TopicPartitionCount offset);
            Ok (l, <[po_Topic offset := l]> (broker clusterMap))
        end;
      let reallocated :=
        Z.of_nat (length stored) <? po_TopicPartitionCount offset in
      let topicList := growTo stored (po_TopicPartitionCount offset) in
      partitionEntry ← index topicList (po_Partition offset);
      let entry := {| bo_Offset := po_Offset offset;
                      bo_Timestamp := po_Timestamp offset |} in
      match partitionEntry with
      | None =>
          if reallocated
          then Ok (set_broker storage (po_Cluster offset) clusterMap brokerMap)
          else Ok (set_broker storage (po_Cluster offset) clusterMap
                     (<[po_Topic offset :=
                          <[Z.to_nat (po_Partition offset) := Some entry]> stored]>
                        brokerMap))
      | Some _ =>
          Ok (set_broker storage (po_Cluster offset) clusterMap
                (<[po_Topic offset :=
                     <[Z.to_nat (po_Partition offset) := Some entry]> stored]>
                   brokerMap))
      end
  end.

(** ** Rings *)

(** [ring.New(n)]: the nil ring for [n <= 0], else [n] elements whose
    [Value] is nil. *)
Definition ringNew (n : Z) : option Ring :=
  if n <=? 0 then None else Some (replicate (Z.to_nat n) None).

(** [r.Value] *)
Definition ringValue (r : Ring) : option ConsumerOffset :=
  match r with
  | v :: _ => v
  | [] => None
  end.

(** [r.Prev().Value] *)
Definition ringPrevValue (r : Ring) : option ConsumerOffset :=
  match last r with
  | Some v => v
  | None => None
  end.

(** [r.Next()] *)
Definition ringNext (r : Ring) : Ring :=
  match r with
  | v :: rest => rest ++ [v]
  | [] => []
  end.

(** Assignment to the fields of [r.Value] (or of a fresh object stored
    in [r.Value]). *)
Definition ringSetValue (v : ConsumerOffset) (r : Ring) : Ring :=
  match r with
  | _ :: rest => Some v :: rest
  | [] => []
  end.

(** ** Consumer offset ingest *)

(** [(re != nil) && re.MatchString(s)] *)
Definition matchString (re : option (string → bool)) (s : string) : bool :=
  match re with
  | Some f => f s
  | None => false
  end.

Definition timestampDifference (offset : PartitionOffset)
    (lastOffset : ConsumerOffset) : Z :=
  wrap64 (po_Timestamp offset - co_Timestamp lastOffset).

(** [MinDistance * 1000], in int64. *)
Definition minDistanceMs (lc : Lagcheck) : Z := wrap64 (MinDistance lc * 1000).

(** The no-advance gate. *)
Definition noAdvance (offset : PartitionOffset) (lastOffset : ConsumerOffset)
    : bool :=
  (timestampDifference offset lastOffset <=? 0)
  && (po_Offset offset <=? co_Offset lastOffset).

(** The min-distance gate. *)
Definition tooFast (lc : Lagcheck) (offset : PartitionOffset)
    (lastOffset : ConsumerOffset) : bool :=
  negb (co_artificial lastOffset)
  && (0 <=? timestampDifference offset lastOffset)
  && (timestampDifference offset lastOffset <? minDistanceMs lc).

(** The lag stored with a commit: [brokerOffset - offset.Offset], zero
    when negative. *)
Definition partitionLag (brokerOffset : Z) (offset : PartitionOffset) : Z :=
  let lag := wrap64 (brokerOffset - po_Offset offset) in
  if lag <? 0 then 0 else lag.

Definition commitEntry (brokerOffset : Z) (offset : PartitionOffset)
    : ConsumerOffset :=
  {| co_Offset := po_Offset offset;
     co_Timestamp := po_Timestamp offset;
     co_Lag := partitionLag brokerOffset offset;
     co_artificial := false |}.

(** [clusterOffsets.consumer[group]], made empty when absent. *)
Definition groupMap (clusterOffsets : ClusterOffsets) (group : string)
    : gmap string (list (option Ring)) :=
  default ∅ (consumer clusterOffsets !! group).

(** [consumerMap[topic]], made with [partitionCount] nil rings when
    absent. *)
Definition topicSlice (clusterOffsets : ClusterOffsets) (group topic : string)
    (partitionCount : Z) : list (option Ring) :=
  default (replicate (Z.to_nat partitionCount) None)
          (groupMap clusterOffsets group !! topic).

(** The storage once the group map and the topic slice exist, the slice
    holding [slice]. *)
Definition storeSlice (storage : OffsetStorage) (cluster : string)
    (clusterOffsets : ClusterOffsets) (group topic : string)
    (slice : list (option Ring)) : OffsetStorage :=
  set_consumer storage cluster clusterOffsets
    (<[group := <[topic := slice]> (groupMap clusterOffsets group)]>
       (consumer clusterOffsets)).

(** As for the broker table, the slice stored in the consumer map is
    never stored back after [append]: when the slice is reallocated the
    new ring lives in a private array and the commit is lost. *)
Definition addConsumerOffset (storage : OffsetStorage)
    (offset : PartitionOffset) : result OffsetStorage :=
  match offsets storage !! po_Cluster offset with
  | None => Ok storage
  | Some clusterOffsets =>
  if matchString (groupBlacklist storage) (po_Group offset)
     || matchString (topicBlacklist storage) (po_Topic offset)
  then Ok storage else
  match broker clusterOffsets !! po_Topic offset with
  | None => Ok storage
  | Some topicPartitionList =>
  if po_Partition offset <? 0 then Ok storage else
  if wrap32 (Z.of_nat (length topicPartitionList)) <=? po_Partition offset
  then Ok storage else
  brokerEntry ← index topicPartitionList (po_Partition offset);
  match brokerEntry with
  | None => Ok storage
  | Some b =>
      let brokerOffset := bo_Offset b in
      let partitionCount := Z.of_nat (length topicPartitionList) in
      let stored :=
        topicSlice clusterOffsets (po_Group offset) (po_Topic offset)
          partitionCount in
      let reallocated :=
        (Z.of_nat (length stored) <=? po_Partition offset)
        && (Z.of_nat (length stored) <? partitionCount) in
      let consumerTopicMap :=
        if Z.of_nat (length stored) <=? po_Partition offset
        then growTo stored partitionCount else stored in
      let store :=
        storeSlice storage (po_Cluster offset) clusterOffsets
          (po_Group offset) (po_Topic offset) in
      let write (r : Ring) :=
        let r' := ringNext (ringSetValue (commitEntry brokerOffset offset) r) in
        if reallocated then store stored
        else store (<[Z.to_nat (po_Partition offset) := Some r']> stored) in
      consumerPartitionRing ← index consumerTopicMap (po_Partition offset);
      match consumerPartitionRing with
      | None =>
          match ringNew (Intervals (lagcheck storage)) with
          | None => Panic
          | Some r => Ok (write r)
          end
      | Some r =>
          match ringPrevValue r with
          | None => Panic
          | Some lastOffset =>
              if noAdvance offset lastOffset then Ok (store stored)
              else if tooFast (lagcheck storage) offset lastOffset
              then Ok (store stored)
              else Ok (write r)
          end
      end
  end
  end
  end.

(** ** Group drop *)

(** [storage.offsets[cluster]] is dereferenced without a membership
    test: a nil [*ClusterOffsets] panics. *)
Definition dropGroup (storage : OffsetStorage) (cluster group : string)
    : result (OffsetStorage * StatusConstant) :=
  match offsets storage !! cluster with
  | None => Panic
  | Some clusterMap =>
      match consumer clusterMap !! group with
      | Some _ =>
          Ok (set_consumer storage cluster clusterMap
                (delete group (consumer clusterMap)), StatusOK)
      | None => Ok (storage, StatusNotFound)
      end
  end.

(** ** Group evaluator *)

(** *** Phase A: snapshot of the group's rings *)

Definition artificialEntry (now : Z) (lastOffset : ConsumerOffset)
    : ConsumerOffset :=
  {| co_Offset := co_Offset lastOffset;
     co_Timestamp := wrap64 (now * 1000);
     co_Lag := 0;
     co_artificial := true |}.

(** The zero value of [ConsumerOffset]. *)
Definition zeroOffset : ConsumerOffset :=
  {| co_Offset := 0; co_Timestamp := 0; co_Lag := 0; co_artificial := false |}.

(** The values visited by [Do]; dereferencing a nil [Value] panics. *)
Fixpoint ringValues (r : Ring) : result (list ConsumerOffset) :=
  match r with
  | [] => Ok []
  | None :: _ => Panic
  | Some v :: rest => vs ← ringValues rest; Ok (v :: vs)
  end.

(** [partitionMap]: a slice of [Intervals] entries whose first entries
    are the ring's values; a ring longer than the slice panics. *)
Definition partitionMapOf (intervals : Z) (vals : list ConsumerOffset)
    : result (list ConsumerOffset) :=
  if intervals <? 0 then Panic
  else if intervals <? Z.of_nat (length vals) then Panic
  else Ok (vals ++ replicate (Z.to_nat intervals - length vals)%nat zeroOffset).

Definition youngestOf (youngestOffset : Z) (vals : list ConsumerOffset) : Z :=
  foldl (λ y v, if y <? co_Timestamp v then co_Timestamp v else y)
        youngestOffset vals.

(** The body of the loop over the partitions of one topic.  It returns
    the ring left in [partitions[partition]], the snapshot stored in
    [offsetList[topic][partition]] (the nil slice when the partition is
    skipped), whether the partition was skipped, and [youngestOffset]. *)
Definition snapshotPartition (lc : Lagcheck) (now : Z)
    (brokerList : list (option BrokerOffset)) (partition : nat)
    (offsetRing : option Ring) (youngestOffset : Z)
    : result (option Ring * list ConsumerOffset * bool * Z) :=
  match offsetRing with
  | None => Ok (None, [], true, youngestOffset)
  | Some r =>
      match ringValue r with
      | None => Ok (Some r, [], true, youngestOffset)
      | Some _ =>
          match ringPrevValue r with
          | None => Panic
          | Some lastOffset =>
              brokerEntry ← index brokerList (Z.of_nat partition);
              match brokerEntry with
              | None => Panic
              | Some b =>
                  let r' :=
                    if bo_Offset b <=? co_Offset lastOffset
                    then ringNext (ringSetValue (artificialEntry now lastOffset) r)
                    else r in
                  vals ← ringValues r';
                  partitionMap ← partitionMapOf (Intervals lc) vals;
                  Ok (Some r', partitionMap, false,
                      youngestOf youngestOffset vals)
              end
          end
      end
  end.

Record snapshotAcc := {
  sa_Complete : bool;
  sa_TotalPartitions : Z;
  sa_youngestOffset : Z
}.

(** [for partition, offsetRing := range partitions], from index
    [partition] on. *)
Fixpoint snapshotTopic (lc : Lagcheck) (now : Z)
    (brokerList : list (option BrokerOffset)) (partition : nat)
    (partitions : list (option Ring)) (acc : snapshotAcc)
    : result (list (option Ring) * list (list ConsumerOffset) * snapshotAcc) :=
  match partitions with
  | [] => Ok ([], [], acc)
  | offsetRing :: rest =>
      '(r', arr, skipped, youngest) ←
        snapshotPartition lc now brokerList partition offsetRing
          (sa_youngestOffset acc);
      let acc' :=
        {| sa_Complete := if (skipped : bool) then false else sa_Complete acc;
           sa_TotalPartitions := sa_TotalPartitions acc + 1;
           sa_youngestOffset := youngest |} in
      '(rest', arrs, acc'') ←
        snapshotTopic lc now brokerList (S partition) rest acc';
      Ok (r' :: rest', arr :: arrs, acc'')
  end.

(** [for topic, partitions := range consumerMap] *)
Fixpoint snapshotGroup (lc : Lagcheck) (now : Z)
    (brokerMap : gmap string (list (option BrokerOffset)))
    (topics : list (string * list (option Ring))) (acc : snapshotAcc)
    : result (list (string * list (option Ring))
              * list (string * list (list ConsumerOffset)) * snapshotAcc) :=
  match topics with
  | [] => Ok ([], [], acc)
  | (topic, partitions) :: rest =>
      '(partitions', arrs, acc') ←
        snapshotTopic lc now (default [] (brokerMap !! topic)) 0
          partitions acc;
      '(rest', offsetList, acc'') ← snapshotGroup lc now brokerMap rest acc';
      Ok ((topic, partitions') :: rest', (topic, arrs) :: offsetList, acc'')
  end.

(** *** Phase B: the rules *)

(** The [*ConsumerGroupStatus] under construction.  [Partitions] and
    [Maxlag] hold pointers to [PartitionStatus] objects: pointers are
    positions in [es_heap], so that a later assignment to
    [thispart.Status] is seen through every pointer already appended.
    [es_maxlag] is the local variable [maxlag]. *)
Record evalStatus := {
  es_heap : list PartitionStatus;
  es_Status : StatusConstant;
  es_Complete : bool;
  es_Partitions : list nat;
  es_Maxlag : option nat;
  es_TotalLag : Z;
  es_maxlag : Z
}.

Definition setStatus (c : StatusConstant) (st : evalStatus) : evalStatus :=
  {| es_heap := es_heap st; es_Status := c; es_Complete := es_Complete st;
     es_Partitions := es_Partitions st; es_Maxlag := es_Maxlag st;
     es_TotalLag := es_TotalLag st; es_maxlag := es_maxlag st |}.

Definition setComplete (b : bool) (st : evalStatus) : evalStatus :=
  {| es_heap := es_heap st; es_Status := es_Status st; es_Complete := b;
     es_Partitions := es_Partitions st; es_Maxlag := es_Maxlag st;
     es_TotalLag := es_TotalLag st; es_maxlag := es_maxlag st |}.

(** [status.Partitions = append(status.Partitions, thispart)] *)
Definition appendPartition (thispart : nat) (st : evalStatus) : evalStatus :=
  {| es_heap := es_heap st; es_Status := es_Status st;
     es_Complete := es_Complete st;
     es_Partitions := es_Partitions st ++ [thispart];
     es_Maxlag := es_Maxlag st;
     es_TotalLag := es_TotalLag st; es_maxlag := es_maxlag st |}.

Definition withStatus (c : StatusConstant) (p : PartitionStatus)
    : PartitionStatus :=
  {| ps_Topic := ps_Topic p; ps_Partition := ps_Partition p; ps_Status := c;
     ps_Start := ps_Start p; ps_End := ps_End p |}.

(** [thispart.Status = c] *)
Definition setPartStatus (thispart : nat) (c : StatusConstant)
    (st : evalStatus) : evalStatus :=
  {| es_heap := alter (withStatus c) thispart (es_heap st);
     es_Status := es_Status st; es_Complete := es_Complete st;
     es_Partitions := es_Partitions st; es_Maxlag := es_Maxlag st;
     es_TotalLag := es_TotalLag st; es_maxlag := es_maxlag st |}.

(** [thispart := &PartitionStatus{...}] *)
Definition newPart (p : PartitionStatus) (st : evalStatus)
    : nat * evalStatus :=
  (length (es_heap st),
   {| es_heap := es_heap st ++ [p]; es_Status := es_Status st;
      es_Complete := es_Complete st; es_Partitions := es_Partitions st;
      es_Maxlag := es_Maxlag st;
      es_TotalLag := es_TotalLag st; es_maxlag := es_maxlag st |}).

(** Max-lag tracking and the total lag (a uint64). *)
Definition trackLag (thispart : nat) (lastOffset : ConsumerOffset)
    (st : evalStatus) : evalStatus :=
  {| es_heap := es_heap st; es_Status := es_Status st;
     es_Complete := es_Complete st; es_Partitions := es_Partitions st;
     es_Maxlag := if es_maxlag st <? co_Lag lastOffset
                  then Some thispart else es_Maxlag st;
     es_TotalLag := wrapu64 (es_TotalLag st + wrapu64 (co_Lag lastOffset));
     es_maxlag := if es_maxlag st <? co_Lag lastOffset
                  then co_Lag lastOffset else es_maxlag st |}.

Definition partStatus (thispart : nat) (st : evalStatus) : StatusConstant :=
  match es_heap st !! thispart with
  | Some p => ps_Status p
  | None => StatusNotFound
  end.

(** Rule 6: [for i := 1; i <= maxidx; i++], where [prev] is
    [offsets[i-1]] and [rest] is [offsets[i:]].  The [continue] of the
    source is the last statement of the loop body: it goes on with the
    next [i]. *)
Fixpoint rule6 (thispart : nat) (prev : ConsumerOffset)
    (rest : list ConsumerOffset) (st : evalStatus) : evalStatus :=
  match rest with
  | [] => st
  | cur :: rest' =>
      rule6 thispart cur rest'
        (if co_Offset cur <? co_Offset prev
         then appendPartition thispart
                (setPartStatus thispart StatusRewind
                   (setStatus StatusError st))
         else st)
  end.

(** The scan for a lag drop: [for i := 0; i <= maxidx; i++], where
    [prev] is [offsets[i-1]] when [i > 0]. *)
Fixpoint lagDropped (prev : option ConsumerOffset)
    (rest : list ConsumerOffset) : bool :=
  match rest with
  | [] => false
  | cur :: rest' =>
      if (co_Lag cur =? 0)
         || match prev with
            | Some p => co_Lag cur <? co_Lag p
            | None => false
            end
      then true
      else lagDropped (Some cur) rest'
  end.

Definition isOK (c : StatusConstant) : bool :=
  match c with
  | StatusOK => true
  | _ => false
  end.

(** [if (thispart.Status != StatusOK) || showall { append }] *)
Definition addIfNotOK (showall : bool) (thispart : nat) (st : evalStatus)
    : evalStatus :=
  if negb (isOK (partStatus thispart st)) || showall
  then appendPartition thispart st else st.

(** [if showall { append }; continue] *)
Definition addIfShowall (showall : bool) (thispart : nat) (st : evalStatus)
    : evalStatus :=
  if showall then appendPartition thispart st else st.

(** Rules 1, 2 and 3, from the comment [// Rule 1] to the end of the
    loop body. *)
Definition rules123 (showall : bool) (thispart : nat)
    (offsets : list ConsumerOffset) (firstOffset lastOffset : ConsumerOffset)
    (st : evalStatus) : evalStatus :=
  if co_Lag lastOffset =? 0 then addIfShowall showall thispart st
  else if co_Offset lastOffset =? co_Offset firstOffset then
    if co_Lag firstOffset =? 0 then addIfShowall showall thispart st
    else addIfNotOK showall thispart
           (setPartStatus thispart StatusStall (setStatus StatusError st))
  else
    if (co_Lag firstOffset =? 0) || (co_Lag lastOffset <=? co_Lag firstOffset)
    then addIfShowall showall thispart st
    else if lagDropped None offsets then addIfNotOK showall thispart st
    else addIfNotOK showall thispart
           (setPartStatus thispart StatusWarning
              (if isOK (es_Status st) then setStatus StatusWarning st else st)).

(** The body of the loop over the snapshots of one topic. *)
Definition evaluatePartition (showall : bool) (now : Z) (topic : string)
    (partition : nat) (offsets : list ConsumerOffset) (st : evalStatus)
    : evalStatus :=
  match offsets with
  | [] => st
  | firstOffset :: others =>
      let lastOffset := List.last offsets firstOffset in
      if co_Lag firstOffset =? -1 then setComplete false st
      else
        let '(thispart, st) :=
          newPart {| ps_Topic := topic;
                     ps_Partition := wrap32 (Z.of_nat partition);
                     ps_Status := StatusOK;
                     ps_Start := firstOffset;
                     ps_End := lastOffset |} st in
        let st := trackLag thispart lastOffset st in
        if wrap64 (co_Timestamp lastOffset - co_Timestamp firstOffset)
           <? wrap64 (wrap64 (now * 1000) - co_Timestamp lastOffset)
        then appendPartition thispart
               (setPartStatus thispart StatusStop (setStatus StatusError st))
        else
          rules123 showall thispart offsets firstOffset lastOffset
            (rule6 thispart firstOffset others st)
  end.

Fixpoint evaluateTopic (showall : bool) (now : Z) (topic : string)
    (partition : nat) (partitions : list (list ConsumerOffset))
    (st : evalStatus) : evalStatus :=
  match partitions with
  | [] => st
  | offsets :: rest =>
      evaluateTopic showall now topic (S partition) rest
        (evaluatePartition showall now topic partition offsets st)
  end.

(** [for topic, partitions := range offsetList] *)
Definition evaluateTopics (showall : bool) (now : Z)
    (offsetList : list (string * list (list ConsumerOffset)))
    (st : evalStatus) : evalStatus :=
  foldl (λ st tp, evaluateTopic showall now tp.1 0 tp.2 st) st offsetList.

(** The reply as read by the receiver. *)
Definition render (cluster group : string) (totalPartitions : Z)
    (st : evalStatus) : ConsumerGroupStatus :=
  {| cgs_Cluster := cluster;
     cgs_Group := group;
     cgs_Status := es_Status st;
     cgs_Complete := es_Complete st;
     cgs_Partitions := omap (λ p, es_heap st !! p) (es_Partitions st);
     cgs_TotalPartitions := totalPartitions;
     cgs_Maxlag := es_Maxlag st ≫= (λ p, es_heap st !! p);
     cgs_TotalLag := es_TotalLag st |}.

Definition initialStatus : evalStatus :=
  {| es_heap := []; es_Status := StatusNotFound; es_Complete := true;
     es_Partitions := []; es_Maxlag := None; es_TotalLag := 0;
     es_maxlag := 0 |}.

(** [youngestOffset] predates the expiration window. *)
Definition expired (lc : Lagcheck) (now youngestOffset : Z) : bool :=
  (0 <? youngestOffset)
  && (youngestOffset <? wrap64 (wrap64 (now - ExpireGroup lc) * 1000)).

Definition evaluateGroup (storage : OffsetStorage) (cluster group : string)
    (showall : bool) (now : Z)
    : result (OffsetStorage * ConsumerGroupStatus) :=
  match offsets storage !! cluster with
  | None => Ok (storage, render cluster group 0 initialStatus)
  | Some clusterMap =>
      match consumer clusterMap !! group with
      | None => Ok (storage, render cluster group 0 initialStatus)
      | Some consumerMap =>
          '(topics', offsetList, acc) ←
            snapshotGroup (lagcheck storage) now (broker clusterMap)
              (map_to_list consumerMap)
              {| sa_Complete := true; sa_TotalPartitions := 0;
                 sa_youngestOffset := 0 |};
          let status :=
            setComplete (sa_Complete acc) (setStatus StatusOK initialStatus) in
          if expired (lagcheck storage) now (sa_youngestOffset acc)
          then
            Ok (set_consumer storage cluster clusterMap
                  (delete group (consumer clusterMap)),
                render cluster group (sa_TotalPartitions acc)
                  (setStatus StatusNotFound status))
          else
            Ok (set_consumer storage cluster clusterMap
                  (<[group := list_to_map topics']> (consumer clusterMap)),
                render cluster group (sa_TotalPartitions acc)
                  (evaluateTopics showall now
                     (map_to_list
                        (list_to_map offsetList
                           : gmap string (list (list ConsumerOffset))))
                     status))
      end
  end.

(** ** Query handlers *)

Definition requestClusterList (storage : OffsetStorage) : list string :=
  (map_to_list (offsets storage)).*1.

Definition requestConsumerList (storage : OffsetStorage) (cluster : string)
    : list string :=
  match offsets storage !! cluster with
  | None => []
  | Some clusterMap => (map_to_list (consumer clusterMap)).*1
  end.

Definition requestTopicList (storage : OffsetStorage) (cluster group : string)
    : ResponseTopicList :=
  match offsets storage !! cluster with
  | None => {| rtl_TopicList := []; rtl_Error := true |}
  | Some clusterMap =>
      if String.eqb group ""
      then {| rtl_TopicList := (map_to_list (broker clusterMap)).*1;
              rtl_Error := false |}
      else match consumer clusterMap !! group with
           | Some consumerMap =>
               {| rtl_TopicList := (map_to_list consumerMap).*1;
                  rtl_Error := false |}
           | None => {| rtl_TopicList := []; rtl_Error := true |}
           end
  end.

(** The type assertion on [oring.Prev().Value] in its two-result form:
    no panic, the nil pointer when the value is nil. *)
Definition lastCommitted (oring : option Ring) : Z :=
  match oring with
  | None => -1
  | Some r =>
      match ringPrevValue r with
      | None => -1
      | Some offset => co_Offset offset
      end
  end.

Definition requestOffsets (storage : OffsetStorage)
    (cluster topic group : string) : ResponseOffsets :=
  match offsets storage !! cluster with
  | None => {| ro_OffsetList := []; ro_ErrorGroup := true;
               ro_ErrorTopic := true |}
  | Some clusterMap =>
      if String.eqb group ""
      then match broker clusterMap !! topic with
           | Some l =>
               {| ro_OffsetList :=
                    (λ o, match o with
                          | None => -1
                          | Some b => bo_Offset b
                          end) <$> l;
                  ro_ErrorGroup := false; ro_ErrorTopic := false |}
           | None => {| ro_OffsetList := []; ro_ErrorGroup := false;
                        ro_ErrorTopic := true |}
           end
      else match consumer clusterMap !! group with
           | Some consumerMap =>
               match consumerMap !! topic with
               | Some l =>
                   {| ro_OffsetList := lastCommitted <$> l;
                      ro_ErrorGroup := false; ro_ErrorTopic := false |}
               | None => {| ro_OffsetList := []; ro_ErrorGroup := false;
                            ro_ErrorTopic := true |}
               end
           | None => {| ro_OffsetList := []; ro_ErrorGroup := true;
                        ro_ErrorTopic := false |}
           end
  end.

(** ** The storage actor *)

(** [case o := <-storage.offsetChannel] *)
Definition handleOffset (storage : OffsetStorage) (o : PartitionOffset)
    : result OffsetStorage :=
  if String.eqb (po_Group o) "" then addBrokerOffset storage o
  else addConsumerOffset storage o.

(** [case r := <-storage.requestChannel]: the type switch.  The reply is
    what the started handler sends on the request's [Result] channel;
    [None] when no handler is started.  The switch has no case for
    [*RequestClusterList]. *)
Definition handleRequest (storage : OffsetStorage) (now : Z) (r : Request)
    : result (OffsetStorage * option Reply) :=
  match r with
  | RequestConsumerList cluster =>
      Ok (storage, Some (ReplyConsumerList (requestConsumerList storage cluster)))
  | RequestTopicList cluster group =>
      Ok (storage, Some (ReplyTopicList (requestTopicList storage cluster group)))
  | RequestOffsets cluster topic group =>
      Ok (storage,
          Some (ReplyOffsets (requestOffsets storage cluster topic group)))
  | RequestConsumerStatus cluster group showall =>
      '(storage', status) ← evaluateGroup storage cluster group showall now;
      Ok (storage', Some (ReplyConsumerStatus status))
  | RequestConsumerDrop cluster group =>
      '(storage', c) ← dropGroup storage cluster group;
      Ok (storage', Some (ReplyConsumerDrop c))
  | _ => Ok (storage, None)
  end.

(** ** Runs of the actor *)

Inductive Event :=
| OffsetEvent (o : PartitionOffset)
| RequestEvent (now : Z) (r : Request).

Definition handle (storage : OffsetStorage) (e : Event)
    : result OffsetStorage :=
  match e with
  | OffsetEvent o => handleOffset storage o
  | RequestEvent now r => fst <$> handleRequest storage now r
  end.

(** A run from a storage: the events handled one after the other; a
    panic ends the process. *)
Fixpoint run (storage : OffsetStorage) (es : list Event)
    : result OffsetStorage :=
  match es with
  | [] => Ok storage
  | e :: es' => storage' ← handle storage e; run storage' es'
  end.

(** Events that the feed can deliver: the fields fit their Go types and
    timestamps are milliseconds since the epoch. *)
Definition wfOffset (o : PartitionOffset) : Prop :=
  int32_range (po_Partition o)
  ∧ int64_range (po_Offset o)
  ∧ 0 <= po_Timestamp o < 2 ^ 63
  ∧ int64_range (po_TopicPartitionCount o).

Definition wfEvent (e : Event) : Prop :=
  match e with
  | OffsetEvent o => wfOffset o
  | RequestEvent now _ => int64_range now
  end.

(** The storages the actor can be in, started from [init]. *)
Inductive reachable (init : OffsetStorage) : OffsetStorage → Prop :=
| reachable_init : reachable init init
| reachable_step storage e storage' :
    reachable init storage →
    wfEvent e →
    handle storage e = Ok storage' →
    reachable init storage'.

(** ** Reading the tables *)

(** The ring stored at (cluster, group, topic, partition), if any. *)
Definition ringAt (storage : OffsetStorage) (cluster group topic : string)
    (partition : nat) : option Ring :=
  clusterMap ← offsets storage !! cluster;
  consumerMap ← consumer clusterMap !! group;
  partitions ← consumerMap !! topic;
  offsetRing ← partitions !! partition;
  offsetRing.

(** The entry at (topic, partition) of a broker table, if any. *)
Definition entryAt (b : gmap string (list (option BrokerOffset)))
    (topic : string) (partition : nat) : option BrokerOffset :=
  topicList ← b !! topic;
  entry ← topicList !! partition;
  entry.

(** The broker entry stored at (cluster, topic, partition), if any. *)
Definition brokerAt (storage : OffsetStorage) (cluster topic : string)
    (partition : nat) : option BrokerOffset :=
  clusterMap ← offsets storage !! cluster;
  entryAt (broker clusterMap) topic partition.

(** The stored broker vector of a topic. *)
Definition brokerList (storage : OffsetStorage) (cluster topic : string)
    : option (list (option BrokerOffset)) :=
  clusterMap ← offsets storage !! cluster;
  broker clusterMap !! topic.

(** ** Ring properties *)

(** [b] advances on [a]. *)
Definition advances (a b : ConsumerOffset) : Prop :=
  co_Timestamp a < co_Timestamp b ∨ co_Offset a < co_Offset b.

(** Successive non-artificial entries advance.  The list of a ring runs
    from its oldest slot to its newest, so successive entries are
    neighbours in the list. *)
Definition ringMonotonic (r : Ring) : Prop :=
  ∀ (i : nat) a b,
    r !! i = Some (Some a) → r !! S i = Some (Some b) →
    co_artificial a = false → co_artificial b = false →
    advances a b.

(** The timestamps of the genuine entries are those of well-formed
    commits. *)
Definition ringTimestamps (r : Ring) : Prop :=
  ∀ (i : nat) a,
    r !! i = Some (Some a) → co_artificial a = false →
    0 <= co_Timestamp a < 2 ^ 63.

(** A ring is filled from its first slot: unwritten slots come first in
    reading order, at least one slot is written, and the ring has
    [Intervals] slots. *)
Definition ringShape (lc : Lagcheck) (r : Ring) : Prop :=
  ∃ (k : nat) (vals : list ConsumerOffset),
    r = replicate k None ++ (Some <$> vals)
    ∧ vals ≠ []
    ∧ Z.of_nat (length r) = Intervals lc.

(** The three properties of a ring that a write has to maintain. *)
Definition ringInv (lc : Lagcheck) (r : Ring) : Prop :=
  ringShape lc r ∧ ringMonotonic r ∧ ringTimestamps r.

(** [r'] is [r] after the injection of an artificial commit at [now]:
    the cursor slot of [r] is written, and it is overwritten with the
    offset of the last entry. *)
Definition injected (now : Z) (r r' : Ring) : Prop :=
  ∃ v lastOffset,
    ringValue r = Some v
    ∧ ringPrevValue r = Some lastOffset
    ∧ r' = ringNext (ringSetValue (artificialEntry now lastOffset) r).

(** What the snapshot phase may leave in a slot of a topic slice. *)
Definition snapshotStep (now : Z) (o o' : option Ring) : Prop :=
  o' = o ∨ ∃ r r', o = Some r ∧ o' = Some r' ∧ injected now r r'.

(** The ring that the snapshot phase leaves in a slot that holds [o],
    given the broker entry of the partition: an artificial commit is
    injected when the cursor slot is written and the last entry has
    reached the broker offset. *)
Definition snapshotRing (now : Z) (entry : option BrokerOffset)
    (o : option Ring) : option Ring :=
  match o with
  | None => None
  | Some r =>
      match ringValue r, ringPrevValue r, entry with
      | Some _, Some lastOffset, Some b =>
          if bo_Offset b <=? co_Offset lastOffset
          then Some (ringNext (ringSetValue (artificialEntry now lastOffset) r))
          else Some r
      | _, _, _ => Some r
      end
  end.

(** A topic slice [tp] of a group and the slice [tp'] rebuilt by the
    snapshot phase, position by position. *)
Definition ringsOf (now : Z)
    (brokerMap : gmap string (list (option BrokerOffset)))
    (tp tp' : string * list (option Ring)) : Prop :=
  tp.1 = tp'.1
  ∧ ∀ q : nat,
      tp'.2 !! q = snapshotRing now (entryAt brokerMap tp.1 q) <$> (tp.2 !! q).

(** What holds of every stored ring. *)
Definition storageInv (storage : OffsetStorage) : Prop :=
  ∀ cluster group topic partition r,
    ringAt storage cluster group topic partition = Some r →
    is_Some (brokerAt storage cluster topic partition)
    ∧ ringShape (lagcheck storage) r
    ∧ ringMonotonic r
    ∧ ringTimestamps r.

(** ** Scenarios *)

Definition lagcheck5 : Lagcheck :=
  {| Intervals := 5; MinDistance := 0; ExpireGroup := 604800 |}.

Definition storage0 : OffsetStorage :=
  NewOffsetStorage lagcheck5 ["local"%string] None None.

Definition brokerObs (partition offset timestamp count : Z) : Event :=
  OffsetEvent {| po_Cluster := "local"; po_Topic := "T";
                 po_Partition := partition; po_Offset := offset;
                 po_Timestamp := timestamp; po_Group := "";
                 po_TopicPartitionCount := count |}.

Definition commitOf (offset timestamp : Z) : PartitionOffset :=
  {| po_Cluster := "local"; po_Topic := "T"; po_Partition := 0;
     po_Offset := offset; po_Timestamp := timestamp; po_Group := "G";
     po_TopicPartitionCount := 0 |}.

Definition commit (offset timestamp : Z) : Event :=
  OffsetEvent (commitOf offset timestamp).

(** Scenario 1 of the specification: one broker observation and one
    accepted commit. *)
Definition healthyCatchUp : list Event :=
  [brokerObs 0 100 1000 1; commit 100 1100].

(** A rewind (100 to 50) under a lag that grows at every commit. *)
Definition rewindUnderGrowingLag : list Event :=
  [brokerObs 0 1000 1000 1; commit 100 2000;
   brokerObs 0 1100 3000 1; commit 50 4000;
   brokerObs 0 1200 5000 1; commit 60 6000;
   brokerObs 0 1300 7000 1; commit 70 8000;
   brokerObs 0 1400 9000 1; commit 80 10000].

(** A caught-up consumer whose full ring holds a rewind between its
    second and third oldest entries. *)
Definition caughtUpAfterRewind : list Event :=
  [brokerObs 0 100 1000 1; commit 100 1000; commit 200 2000;
   commit 150 3000; commit 160 4000; commit 170 5000].

(** A topic first observed with one partition, then with two. *)
Definition partitionCountGrows : list Event :=
  [brokerObs 0 10 1000 1; brokerObs 1 20 2000 2].

(** The storage after a run from [init] ([init] itself had the run
    panicked). *)
Definition storageAfter (init : OffsetStorage) (es : list Event)
    : OffsetStorage :=
  match run init es with
  | Ok storage => storage
  | Panic => init
  end.

Definition ringEntry (offset timestamp lag : Z) (artificial : bool)
    : ConsumerOffset :=
  {| co_Offset := offset; co_Timestamp := timestamp; co_Lag := lag;
     co_artificial := artificial |}.

(** Two commits, the second advancing on the first. *)
Definition twoCommits : list Event :=
  [brokerObs 0 100 1000 1; commit 100 1100; commit 110 1200].

(** A storage whose commits must be ten seconds apart. *)
Definition lagcheckSlow : Lagcheck :=
  {| Intervals := 5; MinDistance := 10; ExpireGroup := 604800 |}.

Definition storageSlow : OffsetStorage :=
  NewOffsetStorage lagcheckSlow ["local"%string] None None.

(** A full ring of a caught-up consumer. *)
Definition fiveSlowCommits : list Event :=
  [brokerObs 0 100 1000 1; commit 100 10000; commit 110 20000;
   commit 120 30000; commit 130 40000; commit 140 50000].

(** The same, followed by an evaluation at second 60, which injects an
    artificial commit. *)
Definition fiveSlowCommitsEvaluated : list Event :=
  fiveSlowCommits
  ++ [RequestEvent 60 (RequestConsumerStatus "local" "G" false)].

(** The storage and the reply of an evaluation (the storage itself and
    the not-found reply had the evaluation panicked). *)
Definition evaluated (storage : OffsetStorage) (cluster group : string)
    (showall : bool) (now : Z) : OffsetStorage * ConsumerGroupStatus :=
  match evaluateGroup storage cluster group showall now with
  | Ok res => res
  | Panic => (storage, render cluster group 0 initialStatus)
  end.

(** The reply of [evaluateGroup] after a run from [storage0]. *)
Definition statusAfter (es : list Event) (cluster group : string)
    (showall : bool) (now : Z) : result ConsumerGroupStatus :=
  storage ← run storage0 es;
  snd <$> evaluateGroup storage cluster group showall now.


(** ** What no handler writes *)

(** The configuration and the set of clusters of two storages agree. *)
Definition sameSkeleton (storage storage' : OffsetStorage) : Prop :=
  lagcheck storage' = lagcheck storage
  ∧ groupBlacklist storage' = groupBlacklist storage
  ∧ topicBlacklist storage' = topicBlacklist storage
  ∧ dom (offsets storage') = dom (offsets storage).

(** The topic slice stored at (cluster, group, topic), if any. *)
Definition sliceAt (storage : OffsetStorage) (cluster group topic : string)
    : option (list (option Ring)) :=
  clusterMap ← offsets storage !! cluster;
  consumerMap ← consumer clusterMap !! group;
  consumerMap !! topic.

(** The group map stored at (cluster, group), if any. *)
Definition groupAt (storage : OffsetStorage) (cluster group : string)
    : option (gmap string (list (option Ring))) :=
  clusterMap ← offsets storage !! cluster;
  consumer clusterMap !! group.

(** Every stored topic slice has the length of the broker vector of its
    topic. *)
Definition sliceInv (storage : OffsetStorage) : Prop :=
  ∀ c g t sl,
    sliceAt storage c g t = Some sl →
    ∃ l, brokerList storage c t = Some l ∧ length sl = length l.

(** The lags of a ring are clamped, and its artificial entries have a
    zero lag and repeat the offset of the entry before them. *)
Definition ringLags (r : Ring) : Prop :=
  (∀ (i : nat) a, r !! i = Some (Some a) →
     0 <= co_Lag a ∧ (co_artificial a = true → co_Lag a = 0))
  ∧ (∀ (i : nat) a b, r !! i = Some (Some a) → r !! S i = Some (Some b) →
       co_artificial b = true → co_Offset b = co_Offset a).

(** A group blacklist in the manner of the sample configuration: the
    groups whose name starts with [console-consumer-]. *)
Definition consoleConsumers (group : string) : bool :=
  String.prefix "console-consumer-" group.

Definition storageBlacklisting : OffsetStorage :=
  NewOffsetStorage lagcheck5 ["local"%string] (Some consoleConsumers) None.

(** A commit of a blacklisted group between two commits of the group G. *)
Definition blacklistedCommit : list Event :=
  [brokerObs 0 100 1000 1;
   commit 100 1100;
   OffsetEvent {| po_Cluster := "local"; po_Topic := "T"; po_Partition := 0;
                  po_Offset := 100; po_Timestamp := 1150;
                  po_Group := "console-consumer-7";
                  po_TopicPartitionCount := 0 |};
   commit 110 1200].

(** ** Statuses of a reply *)

(** The statuses of a group that was found. *)
Definition groupStatus (c : StatusConstant) : Prop :=
  c = StatusOK ∨ c = StatusWarning ∨ c = StatusError.

(** OK, then WARN, then ERR. *)
Definition severity (c : StatusConstant) : nat :=
  match c with
  | StatusWarning => 1
  | StatusError => 2
  | _ => 0
  end.

(** The status [s] of a partition agrees with the status [c] of its
    group: STOP, STALL and REWIND come with ERR, WARN with WARN or ERR;
    NOTFOUND and ERR are no partition statuses. *)
Definition consistentStatus (c s : StatusConstant) : Prop :=
  match s with
  | StatusOK => True
  | StatusWarning => c = StatusWarning ∨ c = StatusError
  | StatusStop | StatusStall | StatusRewind => c = StatusError
  | StatusNotFound | StatusError => False
  end.

(** The pointer [i] designates a partition that may be listed. *)
Definition listedOk (showall : bool) (heap : list PartitionStatus) (i : nat)
    : Prop :=
  ∃ p, heap !! i = Some p ∧ (showall = false → ps_Status p ≠ StatusOK).

(** What the rules maintain of the status under construction. *)
Definition evalInv (showall : bool) (st : evalStatus) : Prop :=
  groupStatus (es_Status st)
  ∧ Forall (λ p, consistentStatus (es_Status st) (ps_Status p)) (es_heap st)
  ∧ Forall (listedOk showall (es_heap st)) (es_Partitions st)
  ∧ (∀ i, es_Maxlag st = Some i → (i < length (es_heap st))%nat).

(** The number of partition slots of a group, over all its topics. *)
Definition groupSlots (cm : gmap string (list (option Ring))) : nat :=
  sum_list_with (λ tp : string * list (option Ring), length tp.2)
    (map_to_list cm).

(** ** The partition with the largest lag *)

(** The part of an [evalStatus] that the max-lag tracking reads and
    writes: the end offsets of the partitions, the [Maxlag] pointer and
    the local variable [maxlag]. *)
Definition lagView (st : evalStatus)
    : list ConsumerOffset * option nat * Z :=
  (ps_End <$> es_heap st, es_Maxlag st, es_maxlag st).

(** [Maxlag] points at a partition whose last lag is [maxlag], positive
    and the largest of all partitions; it is nil while no partition has a
    positive last lag. *)
Definition maxlagInv (st : evalStatus) : Prop :=
  Forall (λ e, co_Lag e <= es_maxlag st) (ps_End <$> es_heap st)
  ∧ match es_Maxlag st with
    | Some i => ∃ e, (ps_End <$> es_heap st) !! i = Some e
                     ∧ co_Lag e = es_maxlag st ∧ 0 < es_maxlag st
    | None => es_maxlag st = 0
    end.

(** ** The wire names of the statuses *)

(** The integer behind a [StatusConstant]. *)
Definition statusCode (c : StatusConstant) : Z :=
  match c with
  | StatusNotFound => 0
  | StatusOK => 1
  | StatusWarning => 2
  | StatusError => 3
  | StatusStop => 4
  | StatusStall => 5
  | StatusRewind => 6
  end.

Definition StatusStrings : list string :=
  ["NOTFOUND"; "OK"; "WARN"; "ERR"; "STOP"; "STALL"; "REWIND"]%string.

(** [func (c StatusConstant) String() string], on the integer behind
    [c]: any int is a [StatusConstant] in the source. *)
Definition StatusConstant_String (c : Z) : string :=
  if (0 <=? c) && (c <? Z.of_nat (length StatusStrings))
  then default "UNKNOWN"%string (StatusStrings !! Z.to_nat c)
  else "UNKNOWN"%string.

(** * Properties *)

(** ** The dispatcher and the unguarded handlers *)

(** C3 (code): a [RequestClusterList] received on the request channel
    falls in the default branch of the type switch: whatever the storage,
    no handler is started and nothing is sent on the result channel,
    although [requestClusterList] would have replied with the configured
    cluster names. *)
Theorem C3_cluster_list_request_is_dropped :
  (∀ storage now,
     handleRequest storage now RequestClusterList = Ok (storage, None))
  ∧ requestClusterList storage0 = ["local"%string].
Proof.
  split; [intros storage now; reflexivity | vm_compute; reflexivity].
Qed.

(** C5 (code): [dropGroup] on a cluster that is not configured
    dereferences the nil cluster entry and panics instead of replying
    NOTFOUND; on a configured cluster an unknown group is answered
    NOTFOUND. *)
Theorem C5_drop_unknown_cluster_panics :
  dropGroup storage0 "nowhere" "G" = Panic
  ∧ dropGroup storage0 "local" "G" = Ok (storage0, StatusNotFound).
Proof. split; vm_compute; reflexivity. Qed.

(** C9 (code): a broker observation whose partition is negative, or not
    below the length of the (grown) topic vector, indexes the vector
    out of range and panics. *)
Theorem C9_broker_partition_out_of_range_panics :
  run storage0 [brokerObs 3 10 1000 1] = Panic
  ∧ run storage0 [brokerObs (-1) 10 1000 1] = Panic.
Proof. split; vm_compute; reflexivity. Qed.

(** C4 (code): after a topic was first observed with one partition, an
    observation with [topic_partition_count = 2] for partition 1 leaves
    the stored vector at length one, and the write to slot 1 is not in
    the table. *)
Theorem C4_growth_is_not_stored :
  (storage ← run storage0 partitionCountGrows;
   Ok (brokerList storage "local" "T", brokerAt storage "local" "T" 1))
  = Ok (Some [Some {| bo_Offset := 10; bo_Timestamp := 1000 |}], None).
Proof. vm_compute; reflexivity. Qed.

(** ** The evaluator on the scenarios *)

(** C2 (code): on a snapshot that rewinds once (100 to 50) while the lag
    grows at every commit, and that Rule 4 does not classify, the
    evaluator appends the partition twice and reports it as WARN, not
    REWIND: Rule 6 does not leave the loop body and Rule 3 overwrites
    the status. *)
Theorem C2_rewind_falls_through_to_rule3 :
  (λ status, (cgs_Status status, ps_Status <$> cgs_Partitions status))
    <$> statusAfter rewindUnderGrowingLag "local" "G" false 10
  = Ok (StatusError, [StatusWarning; StatusWarning]).
Proof. vm_compute; reflexivity. Qed.

(** C1, as stated, fails: the evaluation of scenario 1 does not return
    a partition entry. *)
Lemma C1_counterexample :
  ¬ ∃ status p,
      statusAfter healthyCatchUp "local" "G" true 2 = Ok status
      ∧ cgs_Status status = StatusOK
      ∧ cgs_Complete status = false
      ∧ cgs_Partitions status = [p]
      ∧ ps_Status p = StatusOK
      ∧ co_Lag (ps_End p) = 0.
Proof.
  intros (status & p & Hrun & _ & _ & Hparts & _).
  vm_compute in Hrun. injection Hrun as <-. discriminate Hparts.
Qed.


(** C1 (amended): in scenario 1 the ring holds the commit in one of its
    five slots and the slot at its cursor is unwritten, so the snapshot
    phase skips the partition: whatever the current time, the reply is
    OK, incomplete, counts one partition and lists none.  The snapshot
    phase skips a partition exactly when its ring is absent or the
    [Value] at the ring's cursor is nil. *)
Theorem C1_healthy_catch_up_lists_no_partition :
  (∀ now,
     statusAfter healthyCatchUp "local" "G" true now
     = Ok {| cgs_Cluster := "local"; cgs_Group := "G";
             cgs_Status := StatusOK; cgs_Complete := false;
             cgs_Partitions := []; cgs_TotalPartitions := 1;
             cgs_Maxlag := None; cgs_TotalLag := 0 |})
  ∧ (storage ← run storage0 healthyCatchUp;
     Ok (ringAt storage "local" "G" "T" 0))
    = Ok (Some [None; None; None; None;
                Some {| co_Offset := 100; co_Timestamp := 1100;
                        co_Lag := 0; co_artificial := false |}])
  ∧ (∀ lc now brokerList partition offsetRing youngestOffset,
       (∃ r' arr youngest',
          snapshotPartition lc now brokerList partition offsetRing
            youngestOffset = Ok (r', arr, true, youngest'))
       ↔ (offsetRing = None
          ∨ ∃ r, offsetRing = Some r ∧ ringValue r = None)).
Proof.
  split; [| split].
  - intros now. vm_compute. reflexivity.
  - vm_compute. reflexivity.
  - intros lc now bl partition offsetRing y. split.
    + intros (r' & arr & y' & Hsnap).
      destruct offsetRing as [r|]; [right | by left].
      exists r. split; [done|].
      unfold snapshotPartition in Hsnap.
      destruct (ringValue r) as [v|]; [| done].
      destruct (ringPrevValue r) as [lastOffset|]; [| done].
      destruct (index bl (Z.of_nat partition)) as [[b|]|]; simpl in Hsnap;
        try done.
      destruct (ringValues _) as [vals|]; simpl in Hsnap; [| done].
      destruct (partitionMapOf _ _); simpl in Hsnap; done.
    + intros [-> | (r & -> & Hnil)]; simpl.
      * by eexists _, _, _.
      * rewrite Hnil. by eexists _, _, _.
Qed.

(** Goals on the lengths of lists built with [++], [replicate], [<$>]
    and list insertion. *)
Ltac solve_length :=
  simpl in *;
  rewrite ?length_app, ?length_replicate, ?length_fmap, ?length_insert in *;
  simpl in *;
  rewrite ?length_app, ?length_replicate, ?length_fmap, ?length_insert in *;
  simpl in *; lia.

(** ** Machine arithmetic *)

Lemma wrap64_id z : int64_range z → wrap64 z = z.
Proof.
  unfold int64_range, wrap64. intros Hz.
  rewrite Z.mod_small; lia.
Qed.

Lemma wrap32_le z : 0 <= z → wrap32 z <= z.
Proof.
  unfold wrap32. intros Hz.
  pose proof (Z.mod_le (z + 2 ^ 31) (2 ^ 32)). lia.
Qed.

(** The difference of two non-negative int64 timestamps does not wrap. *)
Lemma timestampDifference_exact offset lastOffset :
  0 <= po_Timestamp offset < 2 ^ 63 →
  0 <= co_Timestamp lastOffset < 2 ^ 63 →
  timestampDifference offset lastOffset
  = po_Timestamp offset - co_Timestamp lastOffset.
Proof.
  intros Ho Hl. unfold timestampDifference.
  apply wrap64_id. unfold int64_range. lia.
Qed.

(** ** Rings *)


Lemma ringPrevValue_nonempty (r : Ring) v : ringPrevValue r = Some v → r ≠ [].
Proof. by intros H ->. Qed.


(** Writing the value at the cursor and advancing drops the oldest slot
    and appends the new entry. *)
Lemma ringNext_setValue (r : Ring) v :
  r ≠ [] → ringNext (ringSetValue v r) = tail r ++ [Some v].
Proof. by destruct r. Qed.

Lemma ringPrevValue_lookup (r : Ring) :
  ringPrevValue r = (r !! pred (length r)) ≫= id.
Proof.
  unfold ringPrevValue. rewrite last_lookup.
  by destruct (r !! pred (length r)).
Qed.

Lemma ringNew_Some n r :
  ringNew n = Some r → 0 < n ∧ r = replicate (Z.to_nat n) None.
Proof.
  unfold ringNew. destruct (Z.leb_spec n 0); [done|].
  intros [= <-]. done.
Qed.

Lemma ringPrevValue_new n : ringPrevValue (replicate n None) = None.
Proof.
  rewrite ringPrevValue_lookup.
  destruct (replicate n None !! pred (length (replicate n (@None ConsumerOffset))))
    as [x|] eqn:E; [|done].
  apply lookup_replicate in E as [-> _]. done.
Qed.

Section ring_write.
Context (r : Ring) (v : ConsumerOffset).

(** The entries of the written ring: those of [r] shifted by one, then
    [v]. *)
Lemma lookup_ring_write (i : nat) (a : ConsumerOffset) :
  (tail r ++ [Some v]) !! i = Some (Some a) →
  r !! S i = Some (Some a) ∨ i = pred (length r) ∧ a = v.
Proof.
  rewrite lookup_app. rewrite lookup_tail.
  destruct (r !! S i) as [x|] eqn:E.
  - intros [= ->]. by left.
  - intros H. right.
    destruct (i - length (tail r))%nat as [|n] eqn:En; simpl in H; [|done].
    injection H as <-. split; [|done].
    apply lookup_ge_None in E.
    destruct r as [|x r']; simpl in *; lia.
Qed.

Lemma ringMonotonic_write :
  ringMonotonic r →
  (∀ lastOffset, ringPrevValue r = Some lastOffset →
     co_artificial lastOffset = false → co_artificial v = false →
     advances lastOffset v) →
  ringMonotonic (tail r ++ [Some v]).
Proof.
  intros Hmono Hlast i a b Ha Hb Hna Hnb.
  apply lookup_ring_write in Ha, Hb.
  destruct Hb as [Hb | [Hi ->]].
  - destruct Ha as [Ha | [Hi _]].
    + by apply (Hmono (S i) a b).
    + apply lookup_lt_Some in Hb. lia.
  - destruct Ha as [Ha | [Hi' _]]; [|lia].
    apply Hlast; [|done..].
    rewrite ringPrevValue_lookup, <- Hi. by rewrite Ha.
Qed.

Lemma ringTimestamps_write :
  ringTimestamps r →
  (co_artificial v = false → 0 <= co_Timestamp v < 2 ^ 63) →
  ringTimestamps (tail r ++ [Some v]).
Proof.
  intros Hts Hv i a Ha Hna.
  apply lookup_ring_write in Ha as [Ha | [_ ->]].
  - by apply (Hts (S i)).
  - by apply Hv.
Qed.

Lemma ringShape_write lc :
  ringShape lc r → ringShape lc (tail r ++ [Some v]).
Proof.
  intros (k & vals & -> & Hne & Hlen).
  destruct k as [|k]; simpl.
  - destruct vals as [|v0 vals]; [done|]. simpl.
    exists 0%nat, (vals ++ [v]). split; [|split].
    + simpl. by rewrite fmap_app.
    + by destruct vals.
    + solve_length.
  - exists k, (vals ++ [v]). split; [|split].
    + rewrite fmap_app. by rewrite <- (assoc_L (++)).
    + by destruct vals.
    + solve_length.
Qed.
End ring_write.

Lemma ringMonotonic_new n : ringMonotonic (replicate n None).
Proof. intros i a b Ha. by apply lookup_replicate in Ha as [? _]. Qed.

Lemma ringTimestamps_new n : ringTimestamps (replicate n None).
Proof. intros i a Ha. by apply lookup_replicate in Ha as [? _]. Qed.

(** The first commit into a new ring. *)
Lemma ringShape_first lc r v :
  ringNew (Intervals lc) = Some r →
  ringShape lc (tail r ++ [Some v]).
Proof.
  intros [Hpos ->]%ringNew_Some.
  destruct (Z.to_nat (Intervals lc)) as [|n] eqn:E; [lia|]. simpl.
  exists n, [v]. split; [done|split; [done|]].
  solve_length.
Qed.

(** A ring of the right shape whose cursor slot is written is full. *)
Lemma ringShape_full lc r v :
  ringShape lc r → ringValue r = Some v →
  ∃ vals, r = Some <$> vals ∧ vals ≠ []
          ∧ Z.of_nat (length vals) = Intervals lc.
Proof.
  intros (k & vals & -> & Hne & Hlen) Hv.
  destruct k as [|k]; [|done].
  exists vals. simpl in *. rewrite length_fmap in Hlen. done.
Qed.

(** ** Reading the tables after an update *)

Lemma ringAt_set_consumer storage c cl cons c' g t (q : nat) :
  ringAt (set_consumer storage c cl cons) c' g t q
  = if decide (c = c')
    then cm ← cons !! g; sl ← cm !! t; o ← sl !! q; o
    else ringAt storage c' g t q.
Proof.
  unfold ringAt, set_consumer. simpl. rewrite lookup_insert.
  by case_decide.
Qed.

Lemma brokerAt_set_consumer storage c cl cons c' t (q : nat) :
  offsets storage !! c = Some cl →
  brokerAt (set_consumer storage c cl cons) c' t q = brokerAt storage c' t q.
Proof.
  intros H. unfold brokerAt, set_consumer. simpl. rewrite lookup_insert.
  case_decide; [subst; by rewrite H | done].
Qed.

Lemma ringAt_set_broker storage c cl b c' g t (q : nat) :
  offsets storage !! c = Some cl →
  ringAt (set_broker storage c cl b) c' g t q = ringAt storage c' g t q.
Proof.
  intros H. unfold ringAt, set_broker. simpl. rewrite lookup_insert.
  case_decide; [subst; by rewrite H | done].
Qed.

Lemma brokerAt_set_broker storage c cl b c' t (q : nat) :
  brokerAt (set_broker storage c cl b) c' t q
  = if decide (c = c') then entryAt b t q else brokerAt storage c' t q.
Proof.
  unfold brokerAt, set_broker. simpl. rewrite lookup_insert.
  by case_decide.
Qed.

(** The rings read from the stored slice are those of the storage. *)
Lemma topicSlice_lookup storage c cl g t n (q : nat) :
  offsets storage !! c = Some cl →
  (topicSlice cl g t n !! q) ≫= id = ringAt storage c g t q.
Proof.
  intros H. unfold ringAt, topicSlice, groupMap. rewrite H. simpl.
  destruct (consumer cl !! g) as [cm|]; simpl.
  - destruct (cm !! t) as [sl|]; simpl; [done|].
    destruct (replicate _ _ !! q) as [x|] eqn:E; [|done].
    by apply lookup_replicate in E as [-> _].
  - rewrite lookup_empty. simpl.
    destruct (replicate _ _ !! q) as [x|] eqn:E; [|done].
    by apply lookup_replicate in E as [-> _].
Qed.

Lemma ringAt_storeSlice storage c cl g t slice c' g' t' (q : nat) :
  offsets storage !! c = Some cl →
  ringAt (storeSlice storage c cl g t slice) c' g' t' q
  = if decide (c = c' ∧ g = g' ∧ t = t')
    then (slice !! q) ≫= id
    else ringAt storage c' g' t' q.
Proof.
  intros H. unfold storeSlice. rewrite ringAt_set_consumer.
  destruct (decide (c = c')) as [<-|Hc].
  - rewrite lookup_insert. destruct (decide (g = g')) as [<-|Hg]; simpl.
    + rewrite lookup_insert. destruct (decide (t = t')) as [<-|Ht]; simpl.
      * by rewrite decide_True.
      * rewrite decide_False by (intros (? & ? & ?); congruence).
        unfold ringAt, groupMap. rewrite H. simpl.
        destruct (consumer cl !! g); simpl; [done|].
        by rewrite lookup_empty.
    + rewrite decide_False by (intros (? & ? & ?); congruence).
      unfold ringAt. by rewrite H.
  - by rewrite decide_False by (intros (? & ? & ?); congruence).
Qed.

(** Storing back the stored slice changes no ring. *)
Lemma ringAt_storeSlice_stored storage c cl g t n c' g' t' (q : nat) :
  offsets storage !! c = Some cl →
  ringAt (storeSlice storage c cl g t (topicSlice cl g t n)) c' g' t' q
  = ringAt storage c' g' t' q.
Proof.
  intros H. rewrite ringAt_storeSlice by done.
  case_decide as Hk; [|done].
  destruct Hk as (<- & <- & <-). by eapply topicSlice_lookup.
Qed.

(** ** Effect of the consumer ingest *)

Lemma index_nonneg {A} (l : list A) i :
  0 <= i →
  index l i = match l !! Z.to_nat i with
              | Some x => Ok x
              | None => Panic
              end.
Proof. unfold index. by destruct (Z.ltb_spec i 0); [lia|]. Qed.

Lemma growTo_lookup_ge {A} (l : list (option A)) count (q : nat) x :
  (length l ≤ q)%nat → growTo l count !! q = Some x → x = None.
Proof.
  intros Hq. unfold growTo. rewrite lookup_app_r by done.
  intros [-> _]%lookup_replicate. done.
Qed.

(** A commit either changes no ring, or writes one ring at the position
    it names: a new ring, or the stored ring when its last entry lets
    the commit through both gates. *)
Lemma addConsumerOffset_effect storage o storage' :
  addConsumerOffset storage o = Ok storage' →
  lagcheck storage' = lagcheck storage
  ∧ (∀ c t (q : nat), brokerAt storage' c t q = brokerAt storage c t q)
  ∧ ((∀ c g t (q : nat), ringAt storage' c g t q = ringAt storage c g t q)
     ∨ ∃ r b,
         0 <= po_Partition o
         ∧ brokerAt storage (po_Cluster o) (po_Topic o)
             (Z.to_nat (po_Partition o)) = Some b
         ∧ (ringAt storage (po_Cluster o) (po_Group o) (po_Topic o)
              (Z.to_nat (po_Partition o)) = None
            ∧ ringNew (Intervals (lagcheck storage)) = Some r
            ∨ ringAt storage (po_Cluster o) (po_Group o) (po_Topic o)
                (Z.to_nat (po_Partition o)) = Some r
              ∧ ∃ lastOffset,
                  ringPrevValue r = Some lastOffset
                  ∧ noAdvance o lastOffset = false
                  ∧ tooFast (lagcheck storage) o lastOffset = false)
         ∧ ∀ c g t (q : nat),
             ringAt storage' c g t q
             = if decide (po_Cluster o = c ∧ po_Group o = g ∧ po_Topic o = t
                          ∧ Z.to_nat (po_Partition o) = q)
               then Some (ringNext
                            (ringSetValue (commitEntry (bo_Offset b) o) r))
               else ringAt storage c g t q).
Proof.
  unfold addConsumerOffset.
  destruct (offsets storage !! po_Cluster o) as [cl|] eqn:Hc;
    [|intros [= <-]; auto].
  destruct (_ || _); [intros [= <-]; auto|].
  destruct (broker cl !! po_Topic o) as [tpl|] eqn:Ht;
    [|intros [= <-]; auto].
  destruct (Z.ltb_spec (po_Partition o) 0) as [|Hp0]; [intros [= <-]; auto|].
  destruct (Z.leb_spec (wrap32 (Z.of_nat (length tpl))) (po_Partition o))
    as [|Hplen]; [intros [= <-]; auto|].
  rewrite !index_nonneg by done.
  destruct (tpl !! Z.to_nat (po_Partition o)) as [[b|]|] eqn:Hb; simpl;
    [|intros [= <-]; auto|done].
  set (stored := topicSlice cl (po_Group o) (po_Topic o) (Z.of_nat (length tpl))).
  assert (Hbroker : brokerAt storage (po_Cluster o) (po_Topic o)
                      (Z.to_nat (po_Partition o)) = Some b).
  { unfold brokerAt, entryAt. rewrite Hc. simpl. rewrite Ht. simpl.
    by rewrite Hb. }
  assert (Hstore : ∀ slice,
    lagcheck (storeSlice storage (po_Cluster o) cl (po_Group o) (po_Topic o) slice)
    = lagcheck storage
    ∧ ∀ c t (q : nat),
        brokerAt (storeSlice storage (po_Cluster o) cl (po_Group o) (po_Topic o) slice) c t q
        = brokerAt storage c t q).
  { intros slice. split; [done|]. intros c t q.
    by apply brokerAt_set_consumer. }
  assert (Hsame : ∀ c g t (q : nat),
    ringAt (storeSlice storage (po_Cluster o) cl (po_Group o) (po_Topic o) stored) c g t q
    = ringAt storage c g t q).
  { intros. by apply ringAt_storeSlice_stored. }
  pose proof (wrap32_le (Z.of_nat (length tpl)) ltac:(lia)) as Hw.
  destruct (Z.leb_spec (Z.of_nat (length stored)) (po_Partition o)) as [Hge|Hlt].
  - (* the slice is reallocated: the commit is lost *)
    destruct (Z.ltb_spec (Z.of_nat (length stored)) (Z.of_nat (length tpl)));
      [|lia].
    destruct (growTo stored _ !! _) as [x|] eqn:Hx; simpl; [|done].
    apply growTo_lookup_ge in Hx as ->; [|lia].
    destruct (ringNew _); [|done]. simpl.
    intros [= <-]. destruct (Hstore stored) as [? ?]. auto.
  - destruct (stored !! Z.to_nat (po_Partition o)) as [x|] eqn:Hx; simpl;
      [|done].
    assert (Hring : ringAt storage (po_Cluster o) (po_Group o) (po_Topic o)
                      (Z.to_nat (po_Partition o)) = x).
    { rewrite <- (topicSlice_lookup storage _ cl _ _ (Z.of_nat (length tpl)))
        by done.
      fold stored. by rewrite Hx. }
    assert (Hwrite : ∀ r' c g t (q : nat),
      ringAt (storeSlice storage (po_Cluster o) cl (po_Group o) (po_Topic o)
                (<[Z.to_nat (po_Partition o) := Some r']> stored)) c g t q
      = if decide (po_Cluster o = c ∧ po_Group o = g ∧ po_Topic o = t
                   ∧ Z.to_nat (po_Partition o) = q)
        then Some r' else ringAt storage c g t q).
    { intros r' c g t q. rewrite ringAt_storeSlice by done.
      destruct (decide (po_Cluster o = c ∧ po_Group o = g ∧ po_Topic o = t))
        as [(<- & <- & <-)|Hk].
      - rewrite list_lookup_insert.
        destruct (decide (Z.to_nat (po_Partition o) = q)) as [<-|Hq].
        + rewrite !decide_True; [done|done|]. split; [done|lia].
        + rewrite !decide_False by (intro; apply Hq; tauto).
          by apply topicSlice_lookup.
      - rewrite decide_False; [done|]. intros (? & ? & ? & ?). by apply Hk. }
    destruct x as [r|].
    + destruct (ringPrevValue r) as [lastOffset|] eqn:Hlast; [|done].
      destruct (noAdvance o lastOffset) eqn:Hna.
      { intros [= <-]. destruct (Hstore stored) as [? ?]. auto. }
      destruct (tooFast (lagcheck storage) o lastOffset) eqn:Htf.
      { intros [= <-]. destruct (Hstore stored) as [? ?]. auto. }
      intros [= <-]. split; [done|]. split; [by apply Hstore|].
      right. exists r, b. split; [done|]. split; [done|].
      split; [right; eauto|]. apply Hwrite.
    + destruct (ringNew _) as [r|] eqn:Hnew; [|done].
      intros [= <-]. split; [done|]. split; [by apply Hstore|].
      right. exists r, b. split; [done|]. split; [done|].
      split; [left; eauto|]. apply Hwrite.
Qed.

(** ** Effect of the broker ingest *)

Lemma entryAt_insert_slot b t l (p : nat) e t' (q : nat) :
  b !! t = Some l →
  is_Some (entryAt b t' q) →
  is_Some (entryAt (<[t := <[p := Some e]> l]> b) t' q).
Proof.
  intros Hl. unfold entryAt. rewrite lookup_insert.
  destruct (decide (t = t')) as [<-|]; [|done].
  rewrite Hl. simpl. rewrite list_lookup_insert.
  case_decide; [by eexists|done].
Qed.

Lemma entryAt_insert_fresh b t l t' (q : nat) :
  b !! t = None →
  is_Some (entryAt b t' q) →
  is_Some (entryAt (<[t := l]> b) t' q).
Proof.
  intros Hl. unfold entryAt. rewrite lookup_insert.
  destruct (decide (t = t')) as [<-|]; [|done].
  rewrite Hl. simpl. by intros [? ?].
Qed.

(** A broker observation changes no ring and removes no broker entry. *)
Lemma addBrokerOffset_effect storage o storage' :
  addBrokerOffset storage o = Ok storage' →
  lagcheck storage' = lagcheck storage
  ∧ (∀ c g t (q : nat), ringAt storage' c g t q = ringAt storage c g t q)
  ∧ (∀ c t (q : nat),
       is_Some (brokerAt storage c t q) → is_Some (brokerAt storage' c t q)).
Proof.
  unfold addBrokerOffset.
  destruct (offsets storage !! po_Cluster o) as [cl|] eqn:Hc;
    [|intros [= <-]; auto].
  assert (Hset : ∀ b',
    (∀ t (q : nat), is_Some (entryAt (broker cl) t q) → is_Some (entryAt b' t q)) →
    lagcheck (set_broker storage (po_Cluster o) cl b') = lagcheck storage
    ∧ (∀ c g t (q : nat),
         ringAt (set_broker storage (po_Cluster o) cl b') c g t q
         = ringAt storage c g t q)
    ∧ (∀ c t (q : nat),
         is_Some (brokerAt storage c t q) →
         is_Some (brokerAt (set_broker storage (po_Cluster o) cl b') c t q))).
  { intros b' Hb'. split; [done|]. split.
    - intros. by apply ringAt_set_broker.
    - intros c t q. rewrite brokerAt_set_broker.
      case_decide as Hcc; [subst c|done].
      unfold brokerAt. rewrite Hc. simpl. apply Hb'. }
  destruct (broker cl !! po_Topic o) as [l|] eqn:Ht; simpl.
  - destruct (index _ _) as [[e|]|]; simpl; [| |done].
    + intros [= <-]. apply Hset. intros t q. by apply entryAt_insert_slot.
    + destruct (_ <? _).
      * intros [= <-]. by apply Hset.
      * intros [= <-]. apply Hset. intros t q. by apply entryAt_insert_slot.
  - destruct (makeSlice _) as [l|]; simpl; [|done].
    destruct (index _ _) as [[e|]|]; simpl; [| |done].
    + intros [= <-]. apply Hset. intros t q Hq.
      rewrite insert_insert_eq. by apply entryAt_insert_fresh.
    + destruct (_ <? _).
      * intros [= <-]. apply Hset. intros t q. by apply entryAt_insert_fresh.
      * intros [= <-]. apply Hset. intros t q Hq.
        rewrite insert_insert_eq. by apply entryAt_insert_fresh.
Qed.

(** The stored vector of a topic keeps the length it was made with. *)
Lemma addBrokerOffset_length storage o storage' c t l :
  addBrokerOffset storage o = Ok storage' →
  brokerList storage c t = Some l →
  ∃ l', brokerList storage' c t = Some l' ∧ length l' = length l.
Proof.
  unfold addBrokerOffset.
  destruct (offsets storage !! po_Cluster o) as [cl|] eqn:Hc;
    [|intros [= <-]; eauto].
  assert (Hset : ∀ b',
    (∀ l0, broker cl !! t = Some l0 →
           ∃ l', b' !! t = Some l' ∧ length l' = length l0) →
    brokerList storage c t = Some l →
    ∃ l', brokerList (set_broker storage (po_Cluster o) cl b') c t = Some l'
          ∧ length l' = length l).
  { intros b' Hb'. unfold brokerList, set_broker. simpl.
    rewrite lookup_insert. case_decide as Hcc; [subst c|by eauto].
    rewrite Hc. simpl. apply Hb'. }
  assert (Hslot : ∀ (b : gmap string (list (option BrokerOffset))) l1 p e l0,
    b !! po_Topic o = Some l1 →
    b !! t = Some l0 →
    ∃ l', <[po_Topic o := <[p := Some e]> l1]> b !! t = Some l'
          ∧ length l' = length l0).
  { intros b l1 p e l0 Hl1 Hl0. rewrite lookup_insert.
    case_decide; [subst t|by eauto].
    eexists. split; [done|]. rewrite length_insert. congruence. }
  destruct (broker cl !! po_Topic o) as [l1|] eqn:Ht; simpl.
  - destruct (index _ _) as [[e|]|]; simpl; [| |done].
    + intros [= <-]. apply Hset. intros l0. by apply Hslot.
    + destruct (_ <? _); intros [= <-]; apply Hset; [by eauto|].
      intros l0. by apply Hslot.
  - assert (Hfresh : ∀ l1 l0, broker cl !! t = Some l0 →
      <[po_Topic o := l1]> (broker cl) !! t = Some l0).
    { intros l1 l0 Hl0. rewrite lookup_insert_ne; [done|congruence]. }
    destruct (makeSlice _) as [l1|]; simpl; [|done].
    destruct (index _ _) as [[e|]|]; simpl; [| |done].
    + intros [= <-]. apply Hset. intros l0 Hl0.
      rewrite insert_insert_eq. eauto.
    + destruct (_ <? _); intros [= <-]; apply Hset; intros l0 Hl0;
        [by eauto|].
      rewrite insert_insert_eq. eauto.
Qed.

(** ** Effect of the group drop *)

Lemma dropGroup_effect storage cluster group storage' c :
  dropGroup storage cluster group = Ok (storage', c) →
  lagcheck storage' = lagcheck storage
  ∧ (∀ c t (q : nat), brokerAt storage' c t q = brokerAt storage c t q)
  ∧ (∀ c g t (q : nat) r,
       ringAt storage' c g t q = Some r → ringAt storage c g t q = Some r).
Proof.
  unfold dropGroup.
  destruct (offsets storage !! cluster) as [cl|] eqn:Hc; [|done].
  destruct (consumer cl !! group) as [cm|] eqn:Hg; intros [= <- <-]; [|done].
  split; [done|]. split.
  - intros. by apply brokerAt_set_consumer.
  - intros c' g t q r. rewrite ringAt_set_consumer.
    case_decide as Hcc; [subst c'|done].
    rewrite lookup_delete. case_decide; [done|].
    unfold ringAt. by rewrite Hc.
Qed.

(** ** Effect of an evaluation *)

Lemma snapshotPartition_step lc now bl p o y o' arr skipped y' :
  snapshotPartition lc now bl p o y = Ok (o', arr, skipped, y') →
  snapshotStep now o o'.
Proof.
  unfold snapshotPartition, snapshotStep.
  destruct o as [r|]; [|intros [= <- _ _ _]; by left].
  destruct (ringValue r) as [v|] eqn:Hv; [|intros [= <- _ _ _]; by left].
  destruct (ringPrevValue r) as [lastOffset|] eqn:Hl; [|done].
  destruct (index bl _) as [[b|]|]; simpl; [| done..].
  destruct (ringValues _) as [vals|]; simpl; [|done].
  destruct (partitionMapOf _ _); simpl; [|done].
  intros [= <- _ _ _].
  destruct (_ <=? _); [right|by left].
  eexists _, _. split; [done|]. split; [done|]. by exists v, lastOffset.
Qed.

Lemma snapshotTopic_step lc now bl p partitions acc partitions' arrs acc' :
  snapshotTopic lc now bl p partitions acc = Ok (partitions', arrs, acc') →
  Forall2 (snapshotStep now) partitions partitions'.
Proof.
  revert p acc partitions' arrs acc'.
  induction partitions as [|o rest IH]; intros p acc partitions' arrs acc';
    simpl.
  - intros [= <- _ _]. constructor.
  - destruct (snapshotPartition _ _ _ _ _ _) as [[[[o' arr] sk] y']|] eqn:Hp;
      simpl; [|done].
    destruct (snapshotTopic _ _ _ _ _ _) as [[[rest' arrs'] acc'']|] eqn:Ht;
      simpl; [|done].
    intros [= <- _ _]. constructor.
    + by eapply snapshotPartition_step.
    + by eapply IH.
Qed.

Lemma snapshotGroup_step lc now brokerMap topics acc topics' offsetList acc' :
  snapshotGroup lc now brokerMap topics acc = Ok (topics', offsetList, acc') →
  Forall2 (λ tp tp', tp.1 = tp'.1 ∧ Forall2 (snapshotStep now) tp.2 tp'.2)
    topics topics'.
Proof.
  revert acc topics' offsetList acc'.
  induction topics as [|[t sl] rest IH]; intros acc topics' offsetList acc';
    simpl.
  - intros [= <- _ _]. constructor.
  - destruct (snapshotTopic _ _ _ _ _ _) as [[[sl' arrs] acc1]|] eqn:Ht;
      simpl; [|done].
    destruct (snapshotGroup _ _ _ _ _) as [[[rest' ol] acc2]|] eqn:Hg;
      simpl; [|done].
    intros [= <- _ _]. constructor.
    + split; [done|]. by eapply snapshotTopic_step.
    + by eapply IH.
Qed.

(** The rings found in the rebuilt group map come from the rings of the
    group by [snapshotStep]. *)
Lemma snapshot_lookup now (cm : gmap string (list (option Ring))) topics' t sl'
    (q : nat) r' :
  Forall2 (λ tp tp', tp.1 = tp'.1 ∧ Forall2 (snapshotStep now) tp.2 tp'.2)
    (map_to_list cm) topics' →
  (list_to_map topics' : gmap string (list (option Ring))) !! t = Some sl' →
  sl' !! q = Some (Some r') →
  ∃ sl o, cm !! t = Some sl ∧ sl !! q = Some o
          ∧ snapshotStep now o (Some r').
Proof.
  intros HF Ht Hq.
  assert (Hfst : (map_to_list cm).*1 = topics'.*1).
  { clear Ht. induction HF as [|x y l k [Hxy _] _ IH]; [done|].
    rewrite !fmap_cons. by rewrite Hxy, IH. }
  apply elem_of_list_to_map in Ht;
    [|rewrite <- Hfst; apply NoDup_fst_map_to_list].
  apply list_elem_of_lookup in Ht as [i Hi].
  destruct (Forall2_lookup_r _ _ _ _ _ HF Hi) as ([t0 sl] & Hi0 & Ht0 & Hsl).
  simpl in *. subst t0.
  destruct (Forall2_lookup_r _ _ _ _ _ Hsl Hq) as (o & Ho & Hstep).
  exists sl, o. split; [|done].
  apply elem_of_map_to_list. apply list_elem_of_lookup. by exists i.
Qed.

Lemma evaluateGroup_effect storage cluster group showall now storage' status :
  evaluateGroup storage cluster group showall now = Ok (storage', status) →
  lagcheck storage' = lagcheck storage
  ∧ (∀ c t (q : nat), brokerAt storage' c t q = brokerAt storage c t q)
  ∧ (∀ c g t (q : nat) r',
       ringAt storage' c g t q = Some r' →
       snapshotStep now (ringAt storage c g t q) (Some r')).
Proof.
  unfold evaluateGroup.
  destruct (offsets storage !! cluster) as [cl|] eqn:Hc;
    [|intros [= <- _]; split; [done|split; [done|]]; intros; by left].
  destruct (consumer cl !! group) as [cm|] eqn:Hg;
    [|intros [= <- _]; split; [done|split; [done|]]; intros; by left].
  destruct (snapshotGroup _ _ _ _ _) as [[[topics' ol] acc]|] eqn:Hs;
    simpl; [|done].
  apply snapshotGroup_step in Hs.
  destruct (expired _ _ _); intros [= <- _].
  - split; [done|]. split; [intros; by apply brokerAt_set_consumer|].
    intros c g t q r'. rewrite ringAt_set_consumer.
    case_decide as Hcc; [subst c|intros ->; by left].
    rewrite lookup_delete. case_decide; [done|].
    intros Hr. left. unfold ringAt. by rewrite Hc.
  - split; [done|]. split; [intros; by apply brokerAt_set_consumer|].
    intros c g t q r'. rewrite ringAt_set_consumer.
    case_decide as Hcc; [subst c|intros ->; by left].
    rewrite lookup_insert. case_decide as Hgg; [subst g|]; simpl.
    + destruct (list_to_map topics' !! t) as [sl'|] eqn:Ht; simpl; [|done].
      destruct (sl' !! q) as [o'|] eqn:Hq; simpl; [|done]. intros ->.
      destruct (snapshot_lookup _ _ _ _ _ _ _ Hs Ht Hq) as (sl & o & Hsl & Ho & Hst).
      unfold ringAt. rewrite Hc. simpl. rewrite Hg. simpl. rewrite Hsl. simpl.
      rewrite Ho. simpl.
      destruct Hst as [<-|(r & r0 & -> & [= <-] & Hinj)]; [by left|].
      right. by exists r, r'.
    + intros Hr. left. unfold ringAt. by rewrite Hc.
Qed.

(** ** The invariant of the stored rings *)

Lemma last_entry_lookup (r : Ring) lastOffset :
  ringPrevValue r = Some lastOffset →
  r !! pred (length r) = Some (Some lastOffset).
Proof.
  rewrite ringPrevValue_lookup.
  destruct (r !! pred (length r)) as [[x|]|]; simpl; congruence.
Qed.

(** A commit that the no-advance gate lets through advances on a genuine
    last entry. *)
Lemma noAdvance_false_advances o lastOffset bo :
  0 <= po_Timestamp o < 2 ^ 63 →
  0 <= co_Timestamp lastOffset < 2 ^ 63 →
  noAdvance o lastOffset = false →
  advances lastOffset (commitEntry bo o).
Proof.
  intros Ho Hl. unfold noAdvance, advances.
  rewrite timestampDifference_exact by done. simpl.
  intros [H|H]%andb_false_iff; [left|right]; lia.
Qed.

Lemma ringInv_commit lc r o bo lastOffset :
  wfOffset o →
  ringInv lc r →
  ringPrevValue r = Some lastOffset →
  noAdvance o lastOffset = false →
  ringInv lc (ringNext (ringSetValue (commitEntry bo o) r)).
Proof.
  intros (_ & _ & Hts & _) (Hshape & Hmono & Htimes) Hlast Hgate.
  rewrite ringNext_setValue by by eapply ringPrevValue_nonempty.
  split; [|split].
  - by apply ringShape_write.
  - apply ringMonotonic_write; [done|].
    intros l Hl Hal _. assert (l = lastOffset) as -> by congruence.
    apply noAdvance_false_advances; [done| |done].
    eapply Htimes; [|done]. by apply last_entry_lookup.
  - by apply ringTimestamps_write.
Qed.

Lemma ringInv_first lc r o bo :
  wfOffset o →
  ringNew (Intervals lc) = Some r →
  ringInv lc (ringNext (ringSetValue (commitEntry bo o) r)).
Proof.
  intros (_ & _ & Hts & _) Hnew.
  pose proof Hnew as [Hpos ->]%ringNew_Some.
  rewrite ringNext_setValue
    by (destruct (Z.to_nat (Intervals lc)) eqn:E; [lia|done]).
  split; [|split].
  - by apply ringShape_first.
  - apply ringMonotonic_write; [apply ringMonotonic_new|].
    intros l Hl. by rewrite ringPrevValue_new in Hl.
  - apply ringTimestamps_write; [apply ringTimestamps_new|done].
Qed.

Lemma ringInv_injected lc now r r' :
  ringInv lc r → injected now r r' → ringInv lc r'.
Proof.
  intros (Hshape & Hmono & Htimes) (v & lastOffset & Hv & Hl & ->).
  rewrite ringNext_setValue by by eapply ringPrevValue_nonempty.
  split; [|split].
  - by apply ringShape_write.
  - by apply ringMonotonic_write.
  - by apply ringTimestamps_write.
Qed.

Lemma storageInv_alt storage :
  storageInv storage ↔
  ∀ cluster group topic partition r,
    ringAt storage cluster group topic partition = Some r →
    is_Some (brokerAt storage cluster topic partition)
    ∧ ringInv (lagcheck storage) r.
Proof. unfold storageInv, ringInv. done. Qed.

Lemma storageInv_init lc clusters gbl tbl :
  storageInv (NewOffsetStorage lc clusters gbl tbl).
Proof.
  intros c g t q r. unfold ringAt, NewOffsetStorage. simpl.
  destruct (list_to_map _ !! c) as [cl|] eqn:Hc; simpl; [|done].
  apply elem_of_list_to_map_2 in Hc.
  apply list_elem_of_fmap in Hc as (c0 & [= -> ->] & _).
  simpl. by rewrite lookup_empty.
Qed.

Lemma storageInv_addBrokerOffset storage o storage' :
  storageInv storage →
  addBrokerOffset storage o = Ok storage' →
  storageInv storage'.
Proof.
  intros Hinv. rewrite storageInv_alt in Hinv.
  intros (Hlc & Hring & Hbroker)%addBrokerOffset_effect.
  apply storageInv_alt. intros c g t q r.
  rewrite Hring, Hlc. intros [Hb Hr]%Hinv. split; [by apply Hbroker|done].
Qed.

(** The consumer ingest maintains the invariant: a ring is created only
    where a broker entry was read, and the no-advance gate keeps
    successive genuine entries advancing. *)
Lemma storageInv_addConsumerOffset storage o storage' :
  wfOffset o →
  storageInv storage →
  addConsumerOffset storage o = Ok storage' →
  storageInv storage'.
Proof.
  intros Hwf Hinv. rewrite storageInv_alt in Hinv.
  intros (Hlc & Hbroker & Hring)%addConsumerOffset_effect.
  apply storageInv_alt. intros c g t q r.
  rewrite Hbroker, Hlc.
  destruct Hring as [Hring | (r0 & b & Hp & Hb & Hold & Hring)].
  - rewrite Hring. apply Hinv.
  - rewrite Hring. case_decide as Hk; [|apply Hinv].
    destruct Hk as (<- & <- & <- & <-). intros [= <-].
    split; [by rewrite Hb|].
    destruct Hold as [[_ Hnew] | (Hr0 & lastOffset & Hlast & Hgate & _)].
    + by apply ringInv_first.
    + eapply ringInv_commit; [done| |done..]. by apply (Hinv _ _ _ _ _ Hr0).
Qed.

Lemma storageInv_handleOffset storage o storage' :
  wfOffset o →
  storageInv storage →
  handleOffset storage o = Ok storage' →
  storageInv storage'.
Proof.
  intros Hwf Hinv. unfold handleOffset. destruct (String.eqb _ _).
  - by apply storageInv_addBrokerOffset.
  - by apply storageInv_addConsumerOffset.
Qed.

Lemma storageInv_handleRequest storage now rq storage' reply :
  storageInv storage →
  handleRequest storage now rq = Ok (storage', reply) →
  storageInv storage'.
Proof.
  intros Hinv. rewrite storageInv_alt in Hinv.
  destruct rq as [|c|c g|c t g|c g showall|c g]; simpl;
    try (intros [= <- _]; by apply storageInv_alt).
  - destruct (evaluateGroup _ _ _ _ _) as [[s1 status]|] eqn:He; simpl;
      [|done].
    intros [= <- _]. apply storageInv_alt.
    apply evaluateGroup_effect in He as (Hlc & Hbroker & Hring).
    intros c' g' t q r' Hr'. rewrite Hbroker, Hlc.
    destruct (Hring _ _ _ _ _ Hr') as [Hsame | (r & r0 & Hr & [= <-] & Hinj)].
    + by apply (Hinv c' g').
    + destruct (Hinv _ _ _ _ _ Hr) as [Hb Hri]. split; [done|].
      by eapply ringInv_injected.
  - destruct (dropGroup _ _ _) as [[s1 st]|] eqn:Hd; simpl; [|done].
    intros [= <- _]. apply storageInv_alt.
    apply dropGroup_effect in Hd as (Hlc & Hbroker & Hring).
    intros c' g' t q r' Hr'. rewrite Hbroker, Hlc.
    apply (Hinv c' g'). by apply Hring.
Qed.

Lemma storageInv_handle storage e storage' :
  wfEvent e →
  storageInv storage →
  handle storage e = Ok storage' →
  storageInv storage'.
Proof.
  destruct e as [o|now rq]; simpl.
  - apply storageInv_handleOffset.
  - intros _ Hinv.
    destruct (handleRequest _ _ _) as [[s1 reply]|] eqn:Hr; simpl; [|done].
    intros [= <-]. by eapply storageInv_handleRequest.
Qed.

Lemma reachable_storageInv lc clusters gbl tbl storage :
  reachable (NewOffsetStorage lc clusters gbl tbl) storage →
  storageInv storage.
Proof.
  induction 1 as [|s e s' _ IH Hwf Hstep].
  - apply storageInv_init.
  - by eapply storageInv_handle.
Qed.

(** ** The evaluator does not panic on well-shaped rings *)

Lemma ringValues_full vals : ringValues (Some <$> vals) = Ok vals.
Proof.
  induction vals as [|v vals IH]; [done|].
  csimpl. by rewrite IH.
Qed.

Lemma ringPrevValue_full vals :
  vals ≠ [] → ∃ lastOffset, ringPrevValue (Some <$> vals) = Some lastOffset.
Proof.
  intros Hne. destruct (last vals) as [l|] eqn:Hl.
  - exists l. unfold ringPrevValue. by rewrite fmap_last, Hl.
  - apply last_None in Hl. done.
Qed.

Lemma partitionMapOf_full lc vals :
  Z.of_nat (length vals) = Intervals lc →
  partitionMapOf (Intervals lc) vals = Ok vals.
Proof.
  intros Hlen. unfold partitionMapOf.
  destruct (Z.ltb_spec (Intervals lc) 0); [lia|].
  destruct (Z.ltb_spec (Intervals lc) (Z.of_nat (length vals))); [lia|].
  replace (Z.to_nat (Intervals lc) - length vals)%nat with 0%nat by lia.
  simpl. by rewrite app_nil_r.
Qed.

Lemma snapshotPartition_ok lc now bl (p : nat) o y :
  (∀ r, o = Some r → ringShape lc r ∧ is_Some ((bl !! p) ≫= id)) →
  ∃ res, snapshotPartition lc now bl p o y = Ok res.
Proof.
  intros Hinv. unfold snapshotPartition.
  destruct o as [r|]; [|by eexists].
  destruct (Hinv r eq_refl) as [Hshape [b Hb]].
  destruct (ringValue r) as [v|] eqn:Hv; [|by eexists].
  destruct (ringShape_full _ _ _ Hshape Hv) as (vals & -> & Hne & Hlen).
  destruct (ringPrevValue_full vals Hne) as [lastOffset ->].
  rewrite index_nonneg by lia. rewrite Nat2Z.id.
  destruct (bl !! p) as [[b'|]|]; simpl in Hb; [|done..]. simpl.
  destruct (_ <=? _).
  - rewrite ringNext_setValue by by destruct vals.
    destruct vals as [|v0 vals]; [done|]. rewrite fmap_cons. simpl.
    replace ((Some <$> vals) ++ [Some (artificialEntry now lastOffset)])
      with (Some <$> (vals ++ [artificialEntry now lastOffset]))
      by by rewrite fmap_app.
    rewrite ringValues_full. simpl.
    rewrite partitionMapOf_full by solve_length. simpl. by eexists.
  - rewrite ringValues_full. simpl.
    rewrite partitionMapOf_full by done. simpl. by eexists.
Qed.

Lemma snapshotTopic_ok lc now bl (p : nat) partitions acc :
  (∀ (q : nat) r, partitions !! q = Some (Some r) →
     ringShape lc r ∧ is_Some ((bl !! (p + q)%nat) ≫= id)) →
  ∃ res, snapshotTopic lc now bl p partitions acc = Ok res.
Proof.
  revert p acc. induction partitions as [|o rest IH]; intros p acc Hinv;
    simpl; [by eexists|].
  destruct (snapshotPartition_ok lc now bl p o (sa_youngestOffset acc))
    as [[[[o' arr] sk] y'] ->].
  { intros r ->. specialize (Hinv 0%nat r eq_refl).
    by rewrite Nat.add_0_r in Hinv. }
  simpl.
  edestruct (IH (S p)) as [[[rest' arrs] acc'] ->].
  { intros q r Hq. specialize (Hinv (S q) r Hq).
    by replace (S p + q)%nat with (p + S q)%nat by lia. }
  simpl. by eexists.
Qed.

Lemma entryAt_default brokerMap t (q : nat) :
  (default [] (brokerMap !! t) !! q) ≫= id = entryAt brokerMap t q.
Proof. unfold entryAt. by destruct (brokerMap !! t). Qed.

Lemma snapshotGroup_ok lc now brokerMap topics acc :
  (∀ t sl (q : nat) r, (t, sl) ∈ topics → sl !! q = Some (Some r) →
     ringShape lc r ∧ is_Some (entryAt brokerMap t q)) →
  ∃ res, snapshotGroup lc now brokerMap topics acc = Ok res.
Proof.
  revert acc. induction topics as [|[t sl] rest IH]; intros acc Hinv;
    simpl; [by eexists|].
  edestruct (snapshotTopic_ok lc now (default [] (brokerMap !! t)) 0 sl acc)
    as [[[sl' arrs] acc1] ->].
  { intros q r Hq. simpl. rewrite entryAt_default.
    eapply Hinv; [|done]. by left. }
  simpl.
  edestruct (IH acc1) as [[[rest' ol] acc2] ->].
  { intros t' sl0 q r Hin. apply Hinv. by right. }
  simpl. by eexists.
Qed.

Lemma evaluateGroup_ok storage cluster group showall now :
  storageInv storage →
  ∃ res, evaluateGroup storage cluster group showall now = Ok res.
Proof.
  intros Hinv. unfold evaluateGroup.
  destruct (offsets storage !! cluster) as [cl|] eqn:Hc; [|by eexists].
  destruct (consumer cl !! group) as [cm|] eqn:Hg; [|by eexists].
  edestruct (snapshotGroup_ok (lagcheck storage) now (broker cl)
               (map_to_list cm)) as [[[topics' ol] acc] ->].
  { intros t sl q r Hin%elem_of_map_to_list Hq.
    destruct (Hinv cluster group t q r) as (Hb & Hshape & _).
    - unfold ringAt. rewrite Hc. simpl. rewrite Hg. simpl. rewrite Hin. simpl.
      by rewrite Hq.
    - split; [done|]. unfold brokerAt in Hb. by rewrite Hc in Hb. }
  simpl. destruct (expired _ _ _); by eexists.
Qed.

(** ** Runs *)

Lemma run_reachable init es storage storage' :
  reachable init storage →
  Forall wfEvent es →
  run storage es = Ok storage' →
  reachable init storage'.
Proof.
  intros Hreach Hwf. revert storage Hreach.
  induction Hwf as [|e es He _ IH]; intros storage Hreach; simpl.
  - by intros [= <-].
  - destruct (handle storage e) as [s1|] eqn:Hs1; simpl; [|done].
    apply IH. by eapply reachable_step.
Qed.

Lemma storageAfter_reachable init es :
  Forall wfEvent es →
  (∃ storage, run init es = Ok storage) →
  reachable init (storageAfter init es).
Proof.
  intros Hwf [storage Hrun]. unfold storageAfter. rewrite Hrun.
  eapply run_reachable; [apply reachable_init|done..].
Qed.

(** Well-formedness of the events of a concrete run. *)
Ltac solve_wfEvents :=
  repeat constructor;
  unfold wfOffset, int32_range, int64_range; simpl; lia.

(** ** Invariants of the reachable storages *)

(** C6: in every storage reachable from the initial one, two successive
    genuine entries [a], [b] of any consumer ring satisfy
    [b.timestamp > a.timestamp] or [b.offset > a.offset]; and a consumer
    ingest of a well-formed commit into such a storage leaves rings with
    the same property. *)
Theorem C6_successive_genuine_entries_advance lc clusters gbl tbl storage :
  reachable (NewOffsetStorage lc clusters gbl tbl) storage →
  (∀ cluster group topic partition r (i : nat) a b,
     ringAt storage cluster group topic partition = Some r →
     r !! i = Some (Some a) → r !! S i = Some (Some b) →
     co_artificial a = false → co_artificial b = false →
     co_Timestamp a < co_Timestamp b ∨ co_Offset a < co_Offset b)
  ∧ (∀ o storage' cluster group topic partition r (i : nat) a b,
       wfOffset o →
       addConsumerOffset storage o = Ok storage' →
       ringAt storage' cluster group topic partition = Some r →
       r !! i = Some (Some a) → r !! S i = Some (Some b) →
       co_artificial a = false → co_artificial b = false →
       co_Timestamp a < co_Timestamp b ∨ co_Offset a < co_Offset b).
Proof.
  intros Hinv%reachable_storageInv. split.
  - intros c g t q r i a b Hr.
    destruct (Hinv c g t q r Hr) as (_ & _ & Hmono & _). apply Hmono.
  - intros o storage' c g t q r i a b Hwf Hadd Hr.
    pose proof (storageInv_addConsumerOffset _ _ _ Hwf Hinv Hadd) as Hinv'.
    destruct (Hinv' c g t q r Hr) as (_ & _ & Hmono & _). apply Hmono.
Qed.

Lemma C6_witness :
  reachable storage0 (storageAfter storage0 twoCommits)
  ∧ (co_Timestamp
       {| co_Offset := 100; co_Timestamp := 1100; co_Lag := 0;
          co_artificial := false |}
     < co_Timestamp
         {| co_Offset := 110; co_Timestamp := 1200; co_Lag := 0;
            co_artificial := false |}
     ∨ co_Offset
         {| co_Offset := 100; co_Timestamp := 1100; co_Lag := 0;
            co_artificial := false |}
       < co_Offset
           {| co_Offset := 110; co_Timestamp := 1200; co_Lag := 0;
              co_artificial := false |}).
Proof.
  assert (Hreach : reachable storage0 (storageAfter storage0 twoCommits)).
  { apply storageAfter_reachable; [solve_wfEvents|].
    eexists. vm_compute. reflexivity. }
  split; [exact Hreach|].
  apply (proj1 (C6_successive_genuine_entries_advance
                  lagcheck5 ["local"%string] None None _ Hreach)
           "local"%string "G"%string "T"%string 0%nat
           [None; None; None;
            Some {| co_Offset := 100; co_Timestamp := 1100; co_Lag := 0;
                    co_artificial := false |};
            Some {| co_Offset := 110; co_Timestamp := 1200; co_Lag := 0;
                    co_artificial := false |}]
           3%nat);
    vm_compute; reflexivity.
Defined.

(** C10: in every storage reachable from the initial one, a ring stored
    at (cluster, group, topic, partition) comes with a broker entry at
    (cluster, topic, partition); the evaluator, which reads that entry
    unguarded, never panics. *)
Theorem C10_ring_has_broker_entry lc clusters gbl tbl storage :
  reachable (NewOffsetStorage lc clusters gbl tbl) storage →
  (∀ cluster group topic partition r,
     ringAt storage cluster group topic partition = Some r →
     ∃ b, brokerAt storage cluster topic partition = Some b)
  ∧ (∀ cluster group showall now,
       evaluateGroup storage cluster group showall now ≠ Panic).
Proof.
  intros Hinv%reachable_storageInv. split.
  - intros c g t q r Hr. destruct (Hinv c g t q r Hr) as ([b Hb] & _).
    by exists b.
  - intros c g showall now.
    destruct (evaluateGroup_ok storage c g showall now Hinv) as [res ->].
    done.
Qed.

Lemma C10_witness :
  reachable storage0 (storageAfter storage0 twoCommits)
  ∧ (∃ b, brokerAt (storageAfter storage0 twoCommits) "local" "T" 0 = Some b)
  ∧ evaluateGroup (storageAfter storage0 twoCommits) "local" "G" true 2
    ≠ Panic.
Proof.
  assert (Hreach : reachable storage0 (storageAfter storage0 twoCommits)).
  { apply storageAfter_reachable; [solve_wfEvents|].
    eexists. vm_compute. reflexivity. }
  split; [exact Hreach|].
  destruct (C10_ring_has_broker_entry
              lagcheck5 ["local"%string] None None _ Hreach) as [Hb Hev].
  split.
  - apply (Hb "local"%string "G"%string "T"%string 0%nat
             [None; None; None;
              Some {| co_Offset := 100; co_Timestamp := 1100; co_Lag := 0;
                      co_artificial := false |};
              Some {| co_Offset := 110; co_Timestamp := 1200; co_Lag := 0;
                      co_artificial := false |}]).
    vm_compute. reflexivity.
  - apply Hev.
Defined.

(** ** The min-distance gate *)

(** Storing back the stored slice of an existing topic of an existing
    group is the identity. *)
Lemma storeSlice_stored_id storage c cl g t n cm sl :
  offsets storage !! c = Some cl →
  consumer cl !! g = Some cm →
  cm !! t = Some sl →
  storeSlice storage c cl g t (topicSlice cl g t n) = storage.
Proof.
  intros Hc Hg Ht. unfold storeSlice, topicSlice, groupMap, set_consumer,
    set_offsets.
  rewrite Hg. simpl. rewrite Ht. simpl.
  rewrite (insert_id cm) by done. rewrite (insert_id (consumer cl)) by done.
  destruct cl as [b co]. simpl. rewrite insert_id by done.
  by destruct storage.
Qed.

Lemma ringAt_inv storage c g t (q : nat) r :
  ringAt storage c g t q = Some r →
  ∃ cl cm sl, offsets storage !! c = Some cl ∧ consumer cl !! g = Some cm
              ∧ cm !! t = Some sl ∧ sl !! q = Some (Some r).
Proof.
  unfold ringAt.
  destruct (offsets storage !! c) as [cl|] eqn:Hc; simpl; [|done].
  destruct (consumer cl !! g) as [cm|] eqn:Hg; simpl; [|done].
  destruct (cm !! t) as [sl|] eqn:Ht; simpl; [|done].
  destruct (sl !! q) as [o|] eqn:Hq; simpl; [|done].
  intros ->. by exists cl, cm, sl.
Qed.

(** C7: a commit that reaches the gates of a ring with last entry
    [lastOffset], passes the no-advance gate and arrives less than
    [MinDistance] seconds after [lastOffset] is dropped, the storage
    unchanged, when [lastOffset] is genuine; when [lastOffset] is
    artificial it is written at the cursor (the oldest slot goes, the
    commit becomes the last entry) and no other ring changes. *)
Theorem C7_min_distance_gate storage o tpl b r lastOffset :
  matchString (groupBlacklist storage) (po_Group o) = false →
  matchString (topicBlacklist storage) (po_Topic o) = false →
  brokerList storage (po_Cluster o) (po_Topic o) = Some tpl →
  0 <= po_Partition o < wrap32 (Z.of_nat (length tpl)) →
  tpl !! Z.to_nat (po_Partition o) = Some (Some b) →
  ringAt storage (po_Cluster o) (po_Group o) (po_Topic o)
    (Z.to_nat (po_Partition o)) = Some r →
  ringPrevValue r = Some lastOffset →
  noAdvance o lastOffset = false →
  0 <= timestampDifference o lastOffset < minDistanceMs (lagcheck storage) →
  if co_artificial lastOffset
  then ∃ storage',
         addConsumerOffset storage o = Ok storage'
         ∧ ∀ c g t (q : nat),
             ringAt storage' c g t q
             = if decide (po_Cluster o = c ∧ po_Group o = g ∧ po_Topic o = t
                          ∧ Z.to_nat (po_Partition o) = q)
               then Some (tail r ++ [Some (commitEntry (bo_Offset b) o)])
               else ringAt storage c g t q
  else addConsumerOffset storage o = Ok storage.
Proof.
  intros Hgb Htb Hbl [Hp0 Hplen] Hb Hr Hlast Hna [Hd0 Hd1].
  apply ringAt_inv in Hr as (cl & cm & sl & Hc & Hg & Ht & Hq).
  unfold brokerList in Hbl. rewrite Hc in Hbl. simpl in Hbl.
  assert (Hstored : topicSlice cl (po_Group o) (po_Topic o)
                      (Z.of_nat (length tpl)) = sl).
  { unfold topicSlice, groupMap. rewrite Hg. simpl. by rewrite Ht. }
  assert (Hlen : (Z.to_nat (po_Partition o) < length sl)%nat)
    by by eapply lookup_lt_Some.
  assert (Hadd : addConsumerOffset storage o
                 = if tooFast (lagcheck storage) o lastOffset
                   then Ok (storeSlice storage (po_Cluster o) cl (po_Group o)
                              (po_Topic o) sl)
                   else Ok (storeSlice storage (po_Cluster o) cl (po_Group o)
                              (po_Topic o)
                              (<[Z.to_nat (po_Partition o) :=
                                   Some (ringNext
                                           (ringSetValue
                                              (commitEntry (bo_Offset b) o) r))]>
                                 sl))).
  { unfold addConsumerOffset. rewrite Hc, Hgb, Htb, Hbl. simpl.
    destruct (Z.ltb_spec (po_Partition o) 0); [lia|].
    destruct (Z.leb_spec (wrap32 (Z.of_nat (length tpl))) (po_Partition o));
      [lia|].
    rewrite !index_nonneg by done. rewrite Hb. simpl. rewrite Hstored.
    destruct (Z.leb_spec (Z.of_nat (length sl)) (po_Partition o)); [lia|].
    rewrite Hq. simpl. rewrite Hlast, Hna. done. }
  rewrite Hadd. unfold tooFast.
  destruct (Z.leb_spec 0 (timestampDifference o lastOffset)); [|lia].
  destruct (Z.ltb_spec (timestampDifference o lastOffset)
              (minDistanceMs (lagcheck storage))); [|lia].
  destruct (co_artificial lastOffset); simpl.
  - eexists. split; [done|]. intros c g t q.
    rewrite ringNext_setValue by by eapply ringPrevValue_nonempty.
    rewrite ringAt_storeSlice by done.
    destruct (decide (po_Cluster o = c ∧ po_Group o = g ∧ po_Topic o = t))
      as [(<- & <- & <-)|Hk].
    + rewrite list_lookup_insert.
      destruct (decide (Z.to_nat (po_Partition o) = q)) as [<-|Hne].
      * by rewrite !decide_True.
      * rewrite !decide_False by (intro; apply Hne; tauto).
        rewrite <- Hstored. by apply topicSlice_lookup.
    + rewrite decide_False; [done|]. intros (? & ? & ? & ?). by apply Hk.
  - rewrite <- Hstored. by erewrite storeSlice_stored_id.
Qed.

Lemma C7_witness :
  addConsumerOffset (storageAfter storageSlow fiveSlowCommits)
    (commitOf 150 51000)
  = Ok (storageAfter storageSlow fiveSlowCommits)
  ∧ ∃ storage',
      addConsumerOffset (storageAfter storageSlow fiveSlowCommitsEvaluated)
        (commitOf 150 61000) = Ok storage'
      ∧ ringAt storage' "local" "G" "T" 0
        = Some [Some (ringEntry 120 30000 0 false);
                Some (ringEntry 130 40000 0 false);
                Some (ringEntry 140 50000 0 false);
                Some (ringEntry 140 60000 0 true);
                Some (ringEntry 150 61000 0 false)].
Proof.
  split.
  - refine (C7_min_distance_gate
              (storageAfter storageSlow fiveSlowCommits) (commitOf 150 51000)
              [Some {| bo_Offset := 100; bo_Timestamp := 1000 |}]
              {| bo_Offset := 100; bo_Timestamp := 1000 |}
              [Some (ringEntry 100 10000 0 false);
               Some (ringEntry 110 20000 0 false);
               Some (ringEntry 120 30000 0 false);
               Some (ringEntry 130 40000 0 false);
               Some (ringEntry 140 50000 0 false)]
              (ringEntry 140 50000 0 false) _ _ _ _ _ _ _ _ _);
      try (vm_compute; reflexivity); vm_compute; split; congruence.
  - destruct (C7_min_distance_gate
                (storageAfter storageSlow fiveSlowCommitsEvaluated)
                (commitOf 150 61000)
                [Some {| bo_Offset := 100; bo_Timestamp := 1000 |}]
                {| bo_Offset := 100; bo_Timestamp := 1000 |}
                [Some (ringEntry 110 20000 0 false);
                 Some (ringEntry 120 30000 0 false);
                 Some (ringEntry 130 40000 0 false);
                 Some (ringEntry 140 50000 0 false);
                 Some (ringEntry 140 60000 0 true)]
                (ringEntry 140 60000 0 true))
      as (storage' & Hadd & Hring);
      try (vm_compute; reflexivity); try (vm_compute; split; congruence).
    exists storage'. split; [exact Hadd|].
    rewrite Hring. vm_compute. reflexivity.
Defined.

(** ** Two evaluations in a row *)

Lemma snapshotPartition_ring lc now bl (p : nat) o y o' arr skipped y' :
  snapshotPartition lc now bl p o y = Ok (o', arr, skipped, y') →
  o' = snapshotRing now ((bl !! p) ≫= id) o.
Proof.
  unfold snapshotPartition, snapshotRing.
  destruct o as [r|]; [|by intros [= <- _ _ _]].
  destruct (ringValue r) as [v|] eqn:Hv; [|by intros [= <- _ _ _]].
  destruct (ringPrevValue r) as [lastOffset|] eqn:Hl; [|done].
  rewrite index_nonneg by lia. rewrite Nat2Z.id.
  destruct (bl !! p) as [[b|]|]; simpl; [| done..].
  destruct (ringValues _) as [vals|]; simpl; [|done].
  destruct (partitionMapOf _ _); simpl; [|done].
  intros [= <- _ _ _]. by destruct (_ <=? _).
Qed.

Lemma snapshotTopic_rings lc now bl (p : nat) partitions acc partitions'
    arrs acc' :
  snapshotTopic lc now bl p partitions acc = Ok (partitions', arrs, acc') →
  ∀ q : nat,
    partitions' !! q
    = snapshotRing now ((bl !! (p + q)%nat) ≫= id) <$> (partitions !! q).
Proof.
  revert p acc partitions' arrs acc'.
  induction partitions as [|o rest IH]; intros p acc partitions' arrs acc';
    simpl.
  - by intros [= <- _ _] q.
  - destruct (snapshotPartition _ _ _ _ _ _) as [[[[o' arr] sk] y']|] eqn:Hp;
      simpl; [|done].
    destruct (snapshotTopic _ _ _ _ _ _) as [[[rest' arrs'] acc'']|] eqn:Ht;
      simpl; [|done].
    intros [= <- _ _] [|q]; simpl.
    + rewrite Nat.add_0_r. f_equal. by eapply snapshotPartition_ring.
    + rewrite (IH _ _ _ _ _ Ht q). by replace (S p + q)%nat with (p + S q)%nat by lia.
Qed.

Lemma snapshotGroup_rings lc now brokerMap topics acc topics' offsetList acc' :
  snapshotGroup lc now brokerMap topics acc = Ok (topics', offsetList, acc') →
  Forall2 (ringsOf now brokerMap) topics topics'.
Proof.
  revert acc topics' offsetList acc'.
  induction topics as [|[t sl] rest IH]; intros acc topics' offsetList acc';
    simpl.
  - intros [= <- _ _]. constructor.
  - destruct (snapshotTopic _ _ _ _ _ _) as [[[sl' arrs] acc1]|] eqn:Ht;
      simpl; [|done].
    destruct (snapshotGroup _ _ _ _ _) as [[[rest' ol] acc2]|] eqn:Hg;
      simpl; [|done].
    intros [= <- _ _]. constructor.
    + split; [done|]. intros q. simpl.
      rewrite (snapshotTopic_rings _ _ _ _ _ _ _ _ _ Ht q).
      by rewrite <- entryAt_default.
    + by eapply IH.
Qed.

Lemma ringsOf_fst now bm l l' :
  Forall2 (ringsOf now bm) l l' → l.*1 = l'.*1.
Proof.
  induction 1 as [|x y l k [Hxy _] _ IH]; [done|].
  rewrite !fmap_cons. by rewrite Hxy, IH.
Qed.










(** * Further properties of the handlers *)

(** ** The shape of the storage a handler returns *)

Lemma addBrokerOffset_shape storage o storage' :
  addBrokerOffset storage o = Ok storage' →
  storage' = storage
  ∨ ∃ cl b', offsets storage !! po_Cluster o = Some cl
             ∧ storage' = set_broker storage (po_Cluster o) cl b'.
Proof.
  unfold addBrokerOffset.
  destruct (offsets storage !! po_Cluster o) as [cl|] eqn:Hc;
    [|intros [= <-]; by left].
  destruct (broker cl !! po_Topic o) as [l|]; simpl.
  - destruct (index _ _) as [[e|]|]; simpl; [| |done].
    + intros [= <-]. right. by eexists _, _.
    + destruct (_ <? _); intros [= <-]; right; by eexists _, _.
  - destruct (makeSlice _) as [l|]; simpl; [|done].
    destruct (index _ _) as [[e|]|]; simpl; [| |done].
    + intros [= <-]. right. by eexists _, _.
    + destruct (_ <? _); intros [= <-]; right; by eexists _, _.
Qed.

Lemma addConsumerOffset_shape storage o storage' :
  addConsumerOffset storage o = Ok storage' →
  storage' = storage
  ∨ ∃ cl cons', offsets storage !! po_Cluster o = Some cl
                ∧ storage' = set_consumer storage (po_Cluster o) cl cons'.
Proof.
  unfold addConsumerOffset, storeSlice.
  destruct (offsets storage !! po_Cluster o) as [cl|] eqn:Hc;
    [|intros [= <-]; by left].
  destruct (_ || _); [intros [= <-]; by left|].
  destruct (broker cl !! po_Topic o) as [tpl|]; [|intros [= <-]; by left].
  destruct (_ <? _); [intros [= <-]; by left|].
  destruct (_ <=? _); [intros [= <-]; by left|].
  destruct (index tpl _) as [[b|]|]; simpl;
    [|intros [= <-]; by left|done].
  destruct (index _ _) as [[r|]|]; simpl; [| |done].
  - destruct (ringPrevValue r) as [lastOffset|]; [|done].
    destruct (noAdvance _ _); [intros [= <-]; right; by eexists _, _|].
    destruct (tooFast _ _ _); [intros [= <-]; right; by eexists _, _|].
    destruct (_ && _); intros [= <-]; right; by eexists _, _.
  - destruct (ringNew _); [|done].
    destruct (_ && _); intros [= <-]; right; by eexists _, _.
Qed.

Lemma dropGroup_shape storage cluster group storage' c :
  dropGroup storage cluster group = Ok (storage', c) →
  storage' = storage
  ∨ ∃ cl cons', offsets storage !! cluster = Some cl
                ∧ storage' = set_consumer storage cluster cl cons'.
Proof.
  unfold dropGroup.
  destruct (offsets storage !! cluster) as [cl|] eqn:Hc; [|done].
  destruct (consumer cl !! group); intros [= <- _]; [right|by left].
  by eexists _, _.
Qed.

Lemma evaluateGroup_shape storage cluster group showall now storage' status :
  evaluateGroup storage cluster group showall now = Ok (storage', status) →
  storage' = storage
  ∨ ∃ cl cons', offsets storage !! cluster = Some cl
                ∧ storage' = set_consumer storage cluster cl cons'.
Proof.
  unfold evaluateGroup.
  destruct (offsets storage !! cluster) as [cl|] eqn:Hc;
    [|intros [= <- _]; by left].
  destruct (consumer cl !! group); [|intros [= <- _]; by left].
  destruct (snapshotGroup _ _ _ _ _) as [[[topics' ol] acc]|]; simpl;
    [|done].
  destruct (expired _ _ _); intros [= <- _]; right; by eexists _, _.
Qed.

Lemma sameSkeleton_refl storage : sameSkeleton storage storage.
Proof. done. Qed.

Lemma sameSkeleton_trans s1 s2 s3 :
  sameSkeleton s1 s2 → sameSkeleton s2 s3 → sameSkeleton s1 s3.
Proof.
  intros (? & ? & ? & ?) (? & ? & ? & ?). repeat split; congruence.
Qed.

Lemma sameSkeleton_set_offsets storage c cl cl' :
  offsets storage !! c = Some cl →
  sameSkeleton storage (set_offsets storage (<[c := cl']> (offsets storage))).
Proof.
  intros Hc. repeat split. simpl. by apply dom_insert_lookup_L.
Qed.

Lemma handle_sameSkeleton storage e storage' :
  handle storage e = Ok storage' → sameSkeleton storage storage'.
Proof.
  assert (Hcons : ∀ c s',
    s' = storage
    ∨ (∃ cl cons', offsets storage !! c = Some cl
                   ∧ s' = set_consumer storage c cl cons') →
    sameSkeleton storage s').
  { intros c s' [->|(cl & cons' & Hc & ->)]; [done|].
    by eapply sameSkeleton_set_offsets. }
  destruct e as [o|now rq]; simpl.
  - unfold handleOffset. destruct (String.eqb _ _).
    + intros [->|(cl & b' & Hc & ->)]%addBrokerOffset_shape; [done|].
      by eapply sameSkeleton_set_offsets.
    + intros H%addConsumerOffset_shape. by eapply Hcons.
  - destruct rq as [|c|c g|c t g|c g showall|c g]; simpl;
      try by intros [= <-].
    + destruct (evaluateGroup _ _ _ _ _) as [[s1 status]|] eqn:He; simpl;
        [|done].
      intros [= <-]. apply evaluateGroup_shape in He. by eapply Hcons.
    + destruct (dropGroup _ _ _) as [[s1 st]|] eqn:Hd; simpl; [|done].
      intros [= <-]. apply dropGroup_shape in Hd. by eapply Hcons.
Qed.

Lemma run_sameSkeleton storage es storage' :
  run storage es = Ok storage' → sameSkeleton storage storage'.
Proof.
  revert storage. induction es as [|e es IH]; intros storage; simpl.
  - by intros [= <-].
  - destruct (handle storage e) as [s1|] eqn:Hs1; simpl; [|done].
    intros Hrun. eapply sameSkeleton_trans; [by eapply handle_sameSkeleton|].
    by apply IH.
Qed.

Lemma elem_of_requestClusterList storage c :
  c ∈ requestClusterList storage ↔ c ∈ dom (offsets storage).
Proof.
  unfold requestClusterList. rewrite elem_of_dom. split.
  - intros ([c' cl] & -> & Hin%elem_of_map_to_list)%list_elem_of_fmap.
    by eexists.
  - intros [cl Hcl]. apply list_elem_of_fmap. exists (c, cl).
    split; [done|]. by apply elem_of_map_to_list.
Qed.

(** X1: the set of clusters and the configuration are fixed at
    construction: after any run that does not panic, the cluster list
    handler lists each configured cluster once and nothing else, and
    the lag-check settings and blacklists are those given to
    [NewOffsetStorage]. *)
Theorem X1_clusters_fixed lc clusters gbl tbl es storage :
  run (NewOffsetStorage lc clusters gbl tbl) es = Ok storage →
  NoDup (requestClusterList storage)
  ∧ (∀ c, c ∈ requestClusterList storage ↔ c ∈ clusters)
  ∧ lagcheck storage = lc
  ∧ groupBlacklist storage = gbl
  ∧ topicBlacklist storage = tbl.
Proof.
  intros (Hlc & Hgbl & Htbl & Hdom)%run_sameSkeleton.
  split; [apply NoDup_fst_map_to_list|].
  split; [|done].
  intros c. rewrite elem_of_requestClusterList, Hdom. simpl.
  rewrite dom_list_to_map_L, elem_of_list_to_set.
  rewrite <- list_fmap_compose. simpl.
  by rewrite list_fmap_id.
Qed.

Lemma X1_witness :
  run storage0 twoCommits = Ok (storageAfter storage0 twoCommits)
  ∧ requestClusterList (storageAfter storage0 twoCommits) = ["local"%string]
  ∧ lagcheck (storageAfter storage0 twoCommits) = lagcheck5.
Proof.
  assert (Hrun : run storage0 twoCommits
                 = Ok (storageAfter storage0 twoCommits))
    by (vm_compute; reflexivity).
  split; [exact Hrun|].
  split; [vm_compute; reflexivity|].
  apply (X1_clusters_fixed lagcheck5 ["local"%string] None None _ _ Hrun).
Defined.

(** ** The broker table *)

Lemma brokerAt_brokerList storage c t (q : nat) l :
  brokerList storage c t = Some l →
  brokerAt storage c t q = (l !! q) ≫= id.
Proof.
  unfold brokerList, brokerAt, entryAt.
  destruct (offsets storage !! c) as [cl|]; simpl; [|done].
  by intros ->.
Qed.

Lemma brokerList_set_broker storage c cl b c' t :
  brokerList (set_broker storage c cl b) c' t
  = if decide (c = c') then b !! t else brokerList storage c' t.
Proof.
  unfold brokerList, set_broker. simpl. rewrite lookup_insert.
  by case_decide.
Qed.

Lemma brokerList_set_consumer storage c cl cons c' t :
  offsets storage !! c = Some cl →
  brokerList (set_consumer storage c cl cons) c' t = brokerList storage c' t.
Proof.
  intros Hc. unfold brokerList, set_consumer. simpl. rewrite lookup_insert.
  case_decide; [subst; by rewrite Hc|done].
Qed.

Lemma growTo_length {A} (l : list (option A)) count :
  Z.of_nat (length (growTo l count)) = Z.max (Z.of_nat (length l)) count.
Proof. unfold growTo. rewrite length_app, length_replicate. lia. Qed.

Lemma growTo_lookup_lt {A} (l : list (option A)) count (q : nat) :
  (q < length l)%nat → growTo l count !! q = l !! q.
Proof. intros Hq. unfold growTo. by rewrite lookup_app_l. Qed.

Lemma index_Ok {A} (l : list A) i x :
  index l i = Ok x ↔ 0 <= i ∧ l !! Z.to_nat i = Some x.
Proof.
  unfold index. destruct (Z.ltb_spec i 0).
  - split; [done|lia].
  - destruct (l !! Z.to_nat i); split; [intros [= ->]|intros [_ [= ->]]| |];
      try done; by intros [_ ?].
Qed.


(** A handler other than the broker ingest leaves the broker table as it
    is. *)
Lemma brokerList_set_consumer_or storage c s' :
  s' = storage
  ∨ (∃ cl cons', offsets storage !! c = Some cl
                 ∧ s' = set_consumer storage c cl cons') →
  ∀ c' t, brokerList s' c' t = brokerList storage c' t.
Proof.
  intros [->|(cl & cons' & Hc & ->)] c' t; [done|].
  by apply brokerList_set_consumer.
Qed.

(** What one handler may do to a stored broker vector. *)
Lemma handle_brokerList storage e storage' c t l :
  handle storage e = Ok storage' →
  brokerList storage c t = Some l →
  ∃ l', brokerList storage' c t = Some l'
        ∧ length l' = length l
        ∧ ∀ q : nat, is_Some ((l !! q) ≫= id) → is_Some ((l' !! q) ≫= id).
Proof.
  intros He Hl.
  assert (Hsame : (∀ c' t', brokerList storage' c' t' = brokerList storage c' t') →
    ∃ l', brokerList storage' c t = Some l' ∧ length l' = length l
          ∧ ∀ q : nat, is_Some ((l !! q) ≫= id) → is_Some ((l' !! q) ≫= id)).
  { intros Hs. exists l. by rewrite Hs. }
  destruct e as [o|now rq]; simpl in He.
  - unfold handleOffset in He. destruct (String.eqb _ _).
    + destruct (addBrokerOffset_length _ _ _ _ _ _ He Hl) as (l' & Hl' & Hlen).
      exists l'. split; [done|]. split; [done|]. intros q.
      rewrite <- (brokerAt_brokerList _ _ _ _ _ Hl).
      rewrite <- (brokerAt_brokerList _ _ _ _ _ Hl').
      apply addBrokerOffset_effect in He as (_ & _ & Hb). apply Hb.
    + apply Hsame. eapply brokerList_set_consumer_or.
      by eapply addConsumerOffset_shape.
  - destruct rq as [|c0|c0 g|c0 t0 g|c0 g showall|c0 g]; simpl in He;
      try (injection He as <-; by apply Hsame).
    + destruct (evaluateGroup _ _ _ _ _) as [[s1 status]|] eqn:Hev;
        simpl in He; [|done].
      injection He as <-. apply Hsame. eapply brokerList_set_consumer_or.
      by eapply evaluateGroup_shape.
    + destruct (dropGroup _ _ _) as [[s1 st]|] eqn:Hd; simpl in He; [|done].
      injection He as <-. apply Hsame. eapply brokerList_set_consumer_or.
      by eapply dropGroup_shape.
Qed.

(** X2: once a topic has a stored broker vector, no run changes its
    length or empties one of its slots, whatever partition counts the
    later observations announce. *)
Theorem X2_broker_vector_fixed init es storage c t l :
  run init es = Ok storage →
  brokerList init c t = Some l →
  ∃ l', brokerList storage c t = Some l'
        ∧ length l' = length l
        ∧ ∀ q : nat, is_Some ((l !! q) ≫= id) → is_Some ((l' !! q) ≫= id).
Proof.
  revert init l. induction es as [|e es IH]; intros init l; simpl.
  - intros [= <-] Hl. by exists l.
  - destruct (handle init e) as [s1|] eqn:Hs1; simpl; [|done].
    intros Hrun Hl.
    destruct (handle_brokerList _ _ _ _ _ _ Hs1 Hl) as (l1 & Hl1 & Hlen1 & Hq1).
    destruct (IH _ _ Hrun Hl1) as (l' & Hl' & Hlen & Hq).
    exists l'. split; [done|]. split; [congruence|]. auto.
Qed.

Lemma X2_witness :
  run (storageAfter storage0 [brokerObs 0 10 1000 1])
      [brokerObs 1 20 2000 2; brokerObs 0 30 3000 3]
  = Ok (storageAfter storage0
          [brokerObs 0 10 1000 1; brokerObs 1 20 2000 2;
           brokerObs 0 30 3000 3])
  ∧ brokerList (storageAfter storage0
                  [brokerObs 0 10 1000 1; brokerObs 1 20 2000 2;
                   brokerObs 0 30 3000 3]) "local" "T"
    = Some [Some {| bo_Offset := 30; bo_Timestamp := 3000 |}].
Proof.
  assert (Hrun : run (storageAfter storage0 [brokerObs 0 10 1000 1])
                     [brokerObs 1 20 2000 2; brokerObs 0 30 3000 3]
                 = Ok (storageAfter storage0
                         [brokerObs 0 10 1000 1; brokerObs 1 20 2000 2;
                          brokerObs 0 30 3000 3]))
    by (vm_compute; reflexivity).
  split; [exact Hrun|].
  destruct (X2_broker_vector_fixed _ _ _ "local"%string "T"%string
              [Some {| bo_Offset := 10; bo_Timestamp := 1000 |}] Hrun)
    as (l' & Hl' & Hlen & _); [vm_compute; reflexivity|].
  vm_compute. reflexivity.
Defined.

Lemma brokerList_inv storage c t l :
  brokerList storage c t = Some l →
  ∃ cl, offsets storage !! c = Some cl ∧ broker cl !! t = Some l.
Proof.
  unfold brokerList.
  destruct (offsets storage !! c) as [cl|] eqn:Hc; simpl; [|done].
  intros Hl. by exists cl.
Qed.

Lemma set_broker_id storage c cl :
  offsets storage !! c = Some cl →
  set_broker storage c cl (broker cl) = storage.
Proof.
  intros Hc. unfold set_broker, set_offsets. destruct cl as [b co]. simpl.
  rewrite insert_id by done. by destruct storage.
Qed.

(** X3: last writer wins.  An observation for a partition inside the
    stored vector of its topic, which either announces no more
    partitions than the vector holds or finds an entry in its slot,
    overwrites exactly that slot with its offset and timestamp: no other
    broker vector and no ring changes. *)
Theorem X3_broker_last_writer_wins storage o l :
  brokerList storage (po_Cluster o) (po_Topic o) = Some l →
  0 <= po_Partition o < Z.of_nat (length l) →
  po_TopicPartitionCount o <= Z.of_nat (length l)
  ∨ is_Some ((l !! Z.to_nat (po_Partition o)) ≫= id) →
  ∃ storage',
    addBrokerOffset storage o = Ok storage'
    ∧ brokerList storage' (po_Cluster o) (po_Topic o)
      = Some (<[Z.to_nat (po_Partition o) :=
                  Some {| bo_Offset := po_Offset o;
                          bo_Timestamp := po_Timestamp o |}]> l)
    ∧ (∀ c t, (c, t) ≠ (po_Cluster o, po_Topic o) →
         brokerList storage' c t = brokerList storage c t)
    ∧ (∀ c g t (q : nat), ringAt storage' c g t q = ringAt storage c g t q).
Proof.
  intros (cl & Hc & Ht)%brokerList_inv [Hp0 Hp] Hvis.
  assert (Hres : addBrokerOffset storage o
    = Ok (set_broker storage (po_Cluster o) cl
            (<[po_Topic o :=
                 <[Z.to_nat (po_Partition o) :=
                     Some {| bo_Offset := po_Offset o;
                             bo_Timestamp := po_Timestamp o |}]> l]>
               (broker cl)))).
  { unfold addBrokerOffset. rewrite Hc, Ht. simpl.
    rewrite index_nonneg by done. rewrite growTo_lookup_lt by lia.
    destruct (l !! Z.to_nat (po_Partition o)) as [[e|]|] eqn:He; simpl.
    - done.
    - destruct Hvis as [Hcount|[? ?]]; [|done].
      by destruct (Z.ltb_spec (Z.of_nat (length l)) (po_TopicPartitionCount o));
        [lia|].
    - apply lookup_ge_None in He. lia. }
  eexists. split; [exact Hres|]. split; [|split].
  - rewrite brokerList_set_broker, decide_True by done.
    by rewrite lookup_insert_eq.
  - intros c t Hne. rewrite brokerList_set_broker.
    case_decide as Hcc; [subst c|done].
    rewrite lookup_insert_ne by congruence.
    unfold brokerList. by rewrite Hc.
  - intros. by apply ringAt_set_broker.
Qed.

Lemma X3_witness :
  ∃ storage',
    addBrokerOffset (storageAfter storage0 twoCommits)
      {| po_Cluster := "local"; po_Topic := "T"; po_Partition := 0;
         po_Offset := 500; po_Timestamp := 7000; po_Group := "";
         po_TopicPartitionCount := 1 |} = Ok storage'
    ∧ brokerList storage' "local" "T"
      = Some [Some {| bo_Offset := 500; bo_Timestamp := 7000 |}].
Proof.
  destruct (X3_broker_last_writer_wins (storageAfter storage0 twoCommits)
              {| po_Cluster := "local"; po_Topic := "T"; po_Partition := 0;
                 po_Offset := 500; po_Timestamp := 7000; po_Group := "";
                 po_TopicPartitionCount := 1 |}
              [Some {| bo_Offset := 100; bo_Timestamp := 1000 |}])
    as (storage' & Hadd & Hl & _).
  - vm_compute. reflexivity.
  - simpl. lia.
  - left. simpl. lia.
  - exists storage'. split; [exact Hadd|exact Hl].
Defined.



(** X5: an observation that announces more partitions than the stored
    vector of its topic holds, for a partition below the announced count
    whose stored slot is nil or beyond the vector, is lost: the storage
    is left as it was. *)
Theorem X5_broker_write_lost_on_growth storage o l :
  brokerList storage (po_Cluster o) (po_Topic o) = Some l →
  Z.of_nat (length l) < po_TopicPartitionCount o →
  0 <= po_Partition o < po_TopicPartitionCount o →
  (l !! Z.to_nat (po_Partition o)) ≫= id = None →
  addBrokerOffset storage o = Ok storage.
Proof.
  intros (cl & Hc & Ht)%brokerList_inv Hgrow [Hp0 Hp] Hnil.
  unfold addBrokerOffset. rewrite Hc, Ht. simpl.
  rewrite index_nonneg by done.
  destruct (Z.ltb_spec (Z.of_nat (length l)) (po_TopicPartitionCount o));
    [|lia].
  destruct (growTo l _ !! _) as [x|] eqn:Hx; simpl.
  - assert (x = None) as ->.
    { destruct (decide (Z.to_nat (po_Partition o) < length l)%nat) as [Hlt|Hge].
      - rewrite growTo_lookup_lt in Hx by done. rewrite Hx in Hnil.
        by destruct x.
      - eapply growTo_lookup_ge; [|done]. lia. }
    by rewrite set_broker_id.
  - apply lookup_ge_None in Hx.
    pose proof (growTo_length l (po_TopicPartitionCount o)). lia.
Qed.

Lemma X5_witness :
  addBrokerOffset (storageAfter storage0 [brokerObs 0 10 1000 1])
    {| po_Cluster := "local"; po_Topic := "T"; po_Partition := 1;
       po_Offset := 20; po_Timestamp := 2000; po_Group := "";
       po_TopicPartitionCount := 2 |}
  = Ok (storageAfter storage0 [brokerObs 0 10 1000 1]).
Proof.
  apply (X5_broker_write_lost_on_growth _ _
           [Some {| bo_Offset := 10; bo_Timestamp := 1000 |}]).
  - vm_compute. reflexivity.
  - simpl. lia.
  - simpl. lia.
  - reflexivity.
Defined.


(** ** The consumer ingest *)

Lemma topicSlice_sliceAt storage c cl g t n :
  offsets storage !! c = Some cl →
  topicSlice cl g t n
  = default (replicate (Z.to_nat n) None) (sliceAt storage c g t).
Proof.
  intros Hc. unfold topicSlice, groupMap, sliceAt. rewrite Hc. simpl.
  destruct (consumer cl !! g); simpl; [done|]. by rewrite lookup_empty.
Qed.

Lemma ringAt_sliceAt storage c g t (q : nat) :
  ringAt storage c g t q = sliceAt storage c g t ≫= λ sl, (sl !! q) ≫= id.
Proof.
  unfold ringAt, sliceAt.
  destruct (offsets storage !! c) as [cl|]; simpl; [|done].
  destruct (consumer cl !! g) as [cm|]; simpl; [|done].
  by destruct (cm !! t).
Qed.

(** The ring written by a commit, read back. *)
Lemma ringAt_storeSlice_insert storage c cl g t n (p : nat) r' c' g' t'
    (q : nat) :
  offsets storage !! c = Some cl →
  (p < length (topicSlice cl g t n))%nat →
  ringAt (storeSlice storage c cl g t
            (<[p := Some r']> (topicSlice cl g t n))) c' g' t' q
  = if decide (c = c' ∧ g = g' ∧ t = t' ∧ p = q)
    then Some r' else ringAt storage c' g' t' q.
Proof.
  intros Hc Hp. rewrite ringAt_storeSlice by done.
  destruct (decide (c = c' ∧ g = g' ∧ t = t')) as [(<- & <- & <-)|Hk].
  - rewrite list_lookup_insert.
    destruct (decide (p = q)) as [<-|Hq].
    + by rewrite !decide_True.
    + rewrite !decide_False by (intro; apply Hq; tauto).
      by apply topicSlice_lookup.
  - rewrite decide_False; [done|]. intros (? & ? & ? & ?). by apply Hk.
Qed.



(** X8: the first commit at a position.  A commit that passes the
    filters and finds no ring at its position, inside the topic slice
    when there is one, creates a ring of [Intervals] slots whose last
    slot holds the commit; when [Intervals] is not positive,
    [ring.New] returns nil and the ingest panics. *)
Theorem X8_first_commit storage o tpl b :
  matchString (groupBlacklist storage) (po_Group o) = false →
  matchString (topicBlacklist storage) (po_Topic o) = false →
  brokerList storage (po_Cluster o) (po_Topic o) = Some tpl →
  0 <= po_Partition o < wrap32 (Z.of_nat (length tpl)) →
  tpl !! Z.to_nat (po_Partition o) = Some (Some b) →
  ringAt storage (po_Cluster o) (po_Group o) (po_Topic o)
    (Z.to_nat (po_Partition o)) = None →
  (∀ sl, sliceAt storage (po_Cluster o) (po_Group o) (po_Topic o) = Some sl →
         po_Partition o < Z.of_nat (length sl)) →
  if 0 <? Intervals (lagcheck storage)
  then ∃ storage',
         addConsumerOffset storage o = Ok storage'
         ∧ ∀ c g t (q : nat),
             ringAt storage' c g t q
             = if decide (po_Cluster o = c ∧ po_Group o = g ∧ po_Topic o = t
                          ∧ Z.to_nat (po_Partition o) = q)
               then Some (replicate
                            (Z.to_nat (Intervals (lagcheck storage)) - 1)%nat
                            None
                          ++ [Some (commitEntry (bo_Offset b) o)])
               else ringAt storage c g t q
  else addConsumerOffset storage o = Panic.
Proof.
  intros Hgb Htb Hbl [Hp0 Hplen] Hb Hr Hsl.
  pose proof (brokerList_inv _ _ _ _ Hbl) as (cl & Hc & Ht).
  pose proof (wrap32_le (Z.of_nat (length tpl)) ltac:(lia)) as Hw.
  set (stored := topicSlice cl (po_Group o) (po_Topic o)
                   (Z.of_nat (length tpl))).
  assert (Hlen : po_Partition o < Z.of_nat (length stored)).
  { unfold stored. rewrite (topicSlice_sliceAt storage (po_Cluster o)) by done.
    destruct (sliceAt storage _ _ _) as [sl|] eqn:Hs; simpl.
    - by apply Hsl.
    - rewrite length_replicate. lia. }
  assert (Hnil : stored !! Z.to_nat (po_Partition o) = Some None).
  { destruct (stored !! Z.to_nat (po_Partition o)) as [x|] eqn:Hx.
    - pose proof (topicSlice_lookup storage (po_Cluster o) cl (po_Group o)
                    (po_Topic o) (Z.of_nat (length tpl))
                    (Z.to_nat (po_Partition o)) Hc) as Hlk.
      fold stored in Hlk. rewrite Hx, Hr in Hlk. simpl in Hlk. by subst x.
    - apply lookup_ge_None in Hx. lia. }
  unfold addConsumerOffset. rewrite Hc, Hgb, Htb, Ht. simpl.
  destruct (Z.ltb_spec (po_Partition o) 0); [lia|].
  destruct (Z.leb_spec (wrap32 (Z.of_nat (length tpl))) (po_Partition o));
    [lia|].
  rewrite !index_nonneg by done. rewrite Hb. simpl. fold stored.
  destruct (Z.leb_spec (Z.of_nat (length stored)) (po_Partition o)); [lia|].
  rewrite Hnil. simpl. unfold ringNew.
  destruct (Z.ltb_spec 0 (Intervals (lagcheck storage)));
    destruct (Z.leb_spec (Intervals (lagcheck storage)) 0); try lia; [|done].
  eexists. split; [done|]. intros c g t q.
  rewrite ringNext_setValue
    by (destruct (Z.to_nat (Intervals (lagcheck storage))) eqn:E; [lia|done]).
  unfold stored. rewrite ringAt_storeSlice_insert; [|done|fold stored; lia].
  destruct (Z.to_nat (Intervals (lagcheck storage))) as [|n] eqn:E; [lia|].
  simpl. by rewrite Nat.sub_0_r.
Qed.

Lemma X8_witness :
  ∃ storage',
    addConsumerOffset (storageAfter storage0 [brokerObs 0 100 1000 1])
      (commitOf 100 1100) = Ok storage'
    ∧ ringAt storage' "local" "G" "T" 0
      = Some [None; None; None; None; Some (ringEntry 100 1100 0 false)].
Proof.
  pose proof (X8_first_commit
                (storageAfter storage0 [brokerObs 0 100 1000 1])
                (commitOf 100 1100)
                [Some {| bo_Offset := 100; bo_Timestamp := 1000 |}]
                {| bo_Offset := 100; bo_Timestamp := 1000 |}) as H.
  simpl in H. destruct H as (storage' & Hadd & Hring);
    try (vm_compute; reflexivity).
  - vm_compute. split; congruence.
  - intros sl Hsl. vm_compute in Hsl. discriminate Hsl.
  - exists storage'. split; [exact Hadd|].
    rewrite Hring. vm_compute. reflexivity.
Defined.

(** X9: a commit is dropped silently, the storage unchanged and without
    panic, when its partition is negative, its group or its topic is
    blacklisted, or the broker table holds no entry at its (cluster,
    topic, partition). *)
Theorem X9_commit_without_prerequisite_dropped storage o :
  po_Partition o < 0
  ∨ matchString (groupBlacklist storage) (po_Group o) = true
  ∨ matchString (topicBlacklist storage) (po_Topic o) = true
  ∨ brokerAt storage (po_Cluster o) (po_Topic o) (Z.to_nat (po_Partition o))
    = None →
  addConsumerOffset storage o = Ok storage.
Proof.
  intros Hdrop. unfold addConsumerOffset.
  destruct (offsets storage !! po_Cluster o) as [cl|] eqn:Hc; [|done].
  destruct (matchString (groupBlacklist storage) (po_Group o)) eqn:Hgb;
    [done|].
  destruct (matchString (topicBlacklist storage) (po_Topic o)) eqn:Htb;
    [done|]. simpl.
  destruct (broker cl !! po_Topic o) as [tpl|] eqn:Ht; [|done].
  destruct (Z.ltb_spec (po_Partition o) 0); [done|].
  destruct (Z.leb_spec (wrap32 (Z.of_nat (length tpl))) (po_Partition o));
    [done|].
  destruct Hdrop as [?|[?|[?|Hnone]]]; [lia|done|done|].
  unfold brokerAt, entryAt in Hnone. rewrite Hc in Hnone. simpl in Hnone.
  rewrite Ht in Hnone. simpl in Hnone.
  rewrite !index_nonneg by done.
  destruct (tpl !! Z.to_nat (po_Partition o)) as [[b'|]|] eqn:Hb;
    simpl in *; [done|done|].
  apply lookup_ge_None in Hb.
  pose proof (wrap32_le (Z.of_nat (length tpl)) ltac:(lia)). lia.
Qed.

Lemma X9_witness :
  addConsumerOffset (storageAfter storage0 twoCommits)
    {| po_Cluster := "local"; po_Topic := "T"; po_Partition := 4;
       po_Offset := 100; po_Timestamp := 1100; po_Group := "G";
       po_TopicPartitionCount := 0 |}
  = Ok (storageAfter storage0 twoCommits).
Proof.
  apply X9_commit_without_prerequisite_dropped.
  right. right. right. vm_compute. reflexivity.
Defined.

(** X10: a commit that does not panic leaves the configuration, the
    set of clusters and every broker vector as they were, and changes no
    ring but the one at its own (cluster, group, topic, partition). *)
Theorem X10_commit_frame storage o storage' :
  addConsumerOffset storage o = Ok storage' →
  sameSkeleton storage storage'
  ∧ (∀ c t, brokerList storage' c t = brokerList storage c t)
  ∧ (∀ c g t (q : nat),
       (c, g, t, q)
       ≠ (po_Cluster o, po_Group o, po_Topic o, Z.to_nat (po_Partition o)) →
       ringAt storage' c g t q = ringAt storage c g t q).
Proof.
  intros Hadd. split; [|split].
  - apply addConsumerOffset_shape in Hadd as [->|(cl & cons' & Hc & ->)];
      [done|]. by eapply sameSkeleton_set_offsets.
  - eapply brokerList_set_consumer_or. by eapply addConsumerOffset_shape.
  - intros c g t q Hne.
    apply addConsumerOffset_effect in Hadd as (_ & _ & [Hsame|Hw]); [done|].
    destruct Hw as (r & b & _ & _ & _ & Hring). rewrite Hring.
    rewrite decide_False; [done|]. intros (<- & <- & <- & <-). done.
Qed.

Lemma X10_witness :
  brokerList (storageAfter storage0 twoCommits) "local" "T"
  = brokerList (storageAfter storage0 [brokerObs 0 100 1000 1; commit 100 1100])
      "local" "T".
Proof.
  refine (proj1 (proj2 (X10_commit_frame
                          (storageAfter storage0
                             [brokerObs 0 100 1000 1; commit 100 1100])
                          (commitOf 110 1200)
                          (storageAfter storage0 twoCommits) _)) _ _).
  vm_compute. reflexivity.
Defined.

(** ** The topic slices *)

Lemma sliceAt_set_broker storage c cl b c' g t :
  offsets storage !! c = Some cl →
  sliceAt (set_broker storage c cl b) c' g t = sliceAt storage c' g t.
Proof.
  intros Hc. unfold sliceAt, set_broker. simpl. rewrite lookup_insert.
  case_decide; [subst; by rewrite Hc|done].
Qed.

Lemma sliceAt_set_consumer storage c cl cons c' g t :
  sliceAt (set_consumer storage c cl cons) c' g t
  = if decide (c = c') then cm ← cons !! g; cm !! t
    else sliceAt storage c' g t.
Proof.
  unfold sliceAt, set_consumer. simpl. rewrite lookup_insert.
  by case_decide.
Qed.

Lemma sliceAt_storeSlice storage c cl g t sl c' g' t' :
  offsets storage !! c = Some cl →
  sliceAt (storeSlice storage c cl g t sl) c' g' t'
  = if decide (c = c' ∧ g = g' ∧ t = t') then Some sl
    else sliceAt storage c' g' t'.
Proof.
  intros Hc. unfold storeSlice. rewrite sliceAt_set_consumer.
  destruct (decide (c = c')) as [<-|Hcc].
  - rewrite lookup_insert. destruct (decide (g = g')) as [<-|Hg]; simpl.
    + rewrite lookup_insert. destruct (decide (t = t')) as [<-|Ht].
      * by rewrite decide_True.
      * rewrite decide_False by (intros (? & ? & ?); congruence).
        unfold sliceAt, groupMap. rewrite Hc. simpl.
        destruct (consumer cl !! g); simpl; [done|]. by rewrite lookup_empty.
    + rewrite decide_False by (intros (? & ? & ?); congruence).
      unfold sliceAt. by rewrite Hc.
  - by rewrite decide_False by (intros (? & ? & ?); congruence).
Qed.

(** The slice a commit stores has the length of the slice it found. *)
Lemma addConsumerOffset_slices storage o storage' :
  addConsumerOffset storage o = Ok storage' →
  storage' = storage
  ∨ ∃ cl tpl sl',
      offsets storage !! po_Cluster o = Some cl
      ∧ broker cl !! po_Topic o = Some tpl
      ∧ length sl'
        = length (topicSlice cl (po_Group o) (po_Topic o)
                    (Z.of_nat (length tpl)))
      ∧ storage' = storeSlice storage (po_Cluster o) cl (po_Group o)
                     (po_Topic o) sl'.
Proof.
  intros He. unfold addConsumerOffset in He.
  destruct (offsets storage !! po_Cluster o) as [cl|] eqn:Hc;
    [|injection He as <-; by left].
  destruct (_ || _); [injection He as <-; by left|].
  destruct (broker cl !! po_Topic o) as [tpl|] eqn:Ht;
    [|injection He as <-; by left].
  destruct (_ <? _); [injection He as <-; by left|].
  destruct (_ <=? _); [injection He as <-; by left|].
  destruct (index tpl _) as [[b|]|]; simpl in He;
    [|injection He as <-; by left|done].
  right. exists cl, tpl.
  destruct (index _ _) as [[r|]|]; simpl in He; [| |done].
  - destruct (ringPrevValue r) as [lastOffset|]; [|done].
    destruct (noAdvance _ _); [injection He as <-; by eexists|].
    destruct (tooFast _ _ _); [injection He as <-; by eexists|].
    destruct (_ && _); injection He as <-; eexists;
      (split; [done|split; [done|split; [|done]]]); [done|].
    by rewrite length_insert.
  - destruct (ringNew _); [|done].
    destruct (_ && _); injection He as <-; eexists;
      (split; [done|split; [done|split; [|done]]]); [done|].
    by rewrite length_insert.
Qed.

Lemma lookup_fmap_length {A B} (f : nat → A → B) (l : list A) (k : list B) :
  (∀ q : nat, k !! q = f q <$> (l !! q)) → length k = length l.
Proof.
  intros Hlk. assert (k = imap f l) as ->; [|by rewrite length_imap].
  apply list_eq. intros q. by rewrite list_lookup_imap.
Qed.

(** The storage an evaluation returns. *)
Lemma evaluateGroup_cases storage c g showall now storage' status :
  evaluateGroup storage c g showall now = Ok (storage', status) →
  storage' = storage
  ∨ ∃ cl cm,
      offsets storage !! c = Some cl
      ∧ consumer cl !! g = Some cm
      ∧ (storage' = set_consumer storage c cl (delete g (consumer cl))
         ∨ ∃ topics',
             Forall2 (ringsOf now (broker cl)) (map_to_list cm) topics'
             ∧ storage' = set_consumer storage c cl
                            (<[g := list_to_map topics']> (consumer cl))).
Proof.
  unfold evaluateGroup.
  destruct (offsets storage !! c) as [cl|] eqn:Hc;
    [|intros [= <- _]; by left].
  destruct (consumer cl !! g) as [cm|] eqn:Hg; [|intros [= <- _]; by left].
  destruct (snapshotGroup _ _ _ _ _) as [[[topics' ol] acc]|] eqn:Hs;
    simpl; [|done].
  apply snapshotGroup_rings in Hs.
  destruct (expired _ _ _); intros [= <- _]; right; exists cl, cm;
    (split; [done|split; [done|]]); [by left|right; by exists topics'].
Qed.

(** The slices of the rebuilt group map have the lengths of the slices
    of the group. *)
Lemma ringsOf_slice now bm (cm : gmap string (list (option Ring))) topics' t
    sl' :
  Forall2 (ringsOf now bm) (map_to_list cm) topics' →
  (list_to_map topics' : gmap string (list (option Ring))) !! t = Some sl' →
  ∃ sl, cm !! t = Some sl ∧ length sl' = length sl.
Proof.
  intros HF Ht. pose proof (ringsOf_fst _ _ _ _ HF) as Hfst.
  apply elem_of_list_to_map in Ht;
    [|rewrite <- Hfst; apply NoDup_fst_map_to_list].
  apply list_elem_of_lookup in Ht as [i Hi].
  destruct (Forall2_lookup_r _ _ _ _ _ HF Hi) as ([t0 sl] & Hi0 & Ht0 & Hsl).
  simpl in *. subst t0. exists sl. split.
  - apply elem_of_map_to_list. apply list_elem_of_lookup. by exists i.
  - by apply (lookup_fmap_length (λ q, snapshotRing now (entryAt bm t q))).
Qed.

Lemma sliceInv_init lc clusters gbl tbl :
  sliceInv (NewOffsetStorage lc clusters gbl tbl).
Proof.
  intros c g t sl. unfold sliceAt, NewOffsetStorage. simpl.
  destruct (list_to_map _ !! c) as [cl|] eqn:Hc; simpl; [|done].
  apply elem_of_list_to_map_2 in Hc.
  apply list_elem_of_fmap in Hc as (c0 & [= -> ->] & _).
  simpl. by rewrite lookup_empty.
Qed.

Lemma sliceInv_sub storage storage' :
  sliceInv storage →
  (∀ c t, brokerList storage' c t = brokerList storage c t) →
  (∀ c g t sl', sliceAt storage' c g t = Some sl' →
     ∃ sl, sliceAt storage c g t = Some sl ∧ length sl' = length sl) →
  sliceInv storage'.
Proof.
  intros Hinv Hb Hs c g t sl' Hsl'.
  destruct (Hs _ _ _ _ Hsl') as (sl & Hsl & Hlen).
  destruct (Hinv _ _ _ _ Hsl) as (l & Hl & Hlen').
  exists l. rewrite Hb. split; [done|congruence].
Qed.

Lemma sliceInv_addBrokerOffset storage o storage' :
  sliceInv storage →
  addBrokerOffset storage o = Ok storage' →
  sliceInv storage'.
Proof.
  intros Hinv He c g t sl Hsl.
  assert (Hsl0 : sliceAt storage c g t = Some sl).
  { apply addBrokerOffset_shape in He as [->|(cl & b' & Hc & ->)]; [done|].
    by rewrite sliceAt_set_broker in Hsl. }
  destruct (Hinv _ _ _ _ Hsl0) as (l & Hl & Hlen).
  destruct (addBrokerOffset_length _ _ _ _ _ _ He Hl) as (l' & Hl' & Hlen').
  exists l'. split; [done|congruence].
Qed.

Lemma sliceInv_addConsumerOffset storage o storage' :
  sliceInv storage →
  addConsumerOffset storage o = Ok storage' →
  sliceInv storage'.
Proof.
  intros Hinv He.
  pose proof (brokerList_set_consumer_or _ _ _
                (addConsumerOffset_shape _ _ _ He)) as Hb.
  apply addConsumerOffset_slices in He
    as [->|(cl & tpl & sl' & Hc & Ht & Hlen & ->)]; [done|].
  intros c g t sl. rewrite sliceAt_storeSlice by done. rewrite Hb.
  case_decide as Hk; [|apply Hinv].
  destruct Hk as (<- & <- & <-). intros [= <-].
  exists tpl. split; [unfold brokerList; by rewrite Hc|].
  rewrite Hlen, (topicSlice_sliceAt storage (po_Cluster o)) by done.
  destruct (sliceAt storage _ _ _) as [sl|] eqn:Hsl; simpl.
  - destruct (Hinv _ _ _ _ Hsl) as (l & Hl & Hlen').
    unfold brokerList in Hl. rewrite Hc in Hl. simpl in Hl. congruence.
  - rewrite length_replicate. lia.
Qed.

Lemma sliceInv_dropGroup storage c g storage' st :
  sliceInv storage →
  dropGroup storage c g = Ok (storage', st) →
  sliceInv storage'.
Proof.
  intros Hinv He. eapply sliceInv_sub; [done| |].
  - eapply brokerList_set_consumer_or. by eapply dropGroup_shape.
  - revert He. unfold dropGroup.
    destruct (offsets storage !! c) as [cl|] eqn:Hc; [|done].
    destruct (consumer cl !! g); intros [= <- _] c' g' t sl'; [|by eauto].
    rewrite sliceAt_set_consumer. case_decide as Hcc; [subst c'|by eauto].
    rewrite lookup_delete. case_decide; [done|].
    intros Hsl. exists sl'. split; [|done]. unfold sliceAt. by rewrite Hc.
Qed.

Lemma sliceInv_evaluateGroup storage c g showall now storage' status :
  sliceInv storage →
  evaluateGroup storage c g showall now = Ok (storage', status) →
  sliceInv storage'.
Proof.
  intros Hinv He. eapply sliceInv_sub; [done| |].
  - eapply brokerList_set_consumer_or. by eapply evaluateGroup_shape.
  - apply evaluateGroup_cases in He
      as [->|(cl & cm & Hc & Hg & [->|(topics' & HF & ->)])];
      intros c' g' t sl'; [by eauto| |].
    + rewrite sliceAt_set_consumer. case_decide as Hcc; [subst c'|by eauto].
      rewrite lookup_delete. case_decide; [done|].
      intros Hsl. exists sl'. split; [|done]. unfold sliceAt. by rewrite Hc.
    + rewrite sliceAt_set_consumer. case_decide as Hcc; [subst c'|by eauto].
      rewrite lookup_insert. case_decide as Hgg; [subst g'|]; simpl.
      * intros Hsl. destruct (ringsOf_slice _ _ _ _ _ _ HF Hsl) as (sl & ? & ?).
        exists sl. split; [|done]. unfold sliceAt. rewrite Hc. simpl.
        by rewrite Hg.
      * intros Hsl. exists sl'. split; [|done]. unfold sliceAt. by rewrite Hc.
Qed.

Lemma sliceInv_handle storage e storage' :
  sliceInv storage →
  handle storage e = Ok storage' →
  sliceInv storage'.
Proof.
  intros Hinv. destruct e as [o|now rq]; simpl.
  - unfold handleOffset. destruct (String.eqb _ _).
    + by apply sliceInv_addBrokerOffset.
    + by apply sliceInv_addConsumerOffset.
  - destruct rq as [|c|c g|c t g|c g showall|c g]; simpl;
      try by intros [= <-].
    + destruct (evaluateGroup _ _ _ _ _) as [[s1 status]|] eqn:He; simpl;
        [|done].
      intros [= <-]. by eapply sliceInv_evaluateGroup.
    + destruct (dropGroup _ _ _) as [[s1 st]|] eqn:Hd; simpl; [|done].
      intros [= <-]. by eapply sliceInv_dropGroup.
Qed.

Lemma reachable_sliceInv lc clusters gbl tbl storage :
  reachable (NewOffsetStorage lc clusters gbl tbl) storage →
  sliceInv storage.
Proof.
  induction 1 as [|s e s' _ IH Hwf Hstep].
  - apply sliceInv_init.
  - by eapply sliceInv_handle.
Qed.

Lemma reachable_lagcheck init storage :
  reachable init storage → lagcheck storage = lagcheck init.
Proof.
  induction 1 as [|s e s' _ IH Hwf Hstep]; [done|].
  apply handle_sameSkeleton in Hstep as [Hlc _]. congruence.
Qed.

Lemma ringPrevValue_shape lc r :
  ringShape lc r → ∃ lastOffset, ringPrevValue r = Some lastOffset.
Proof.
  intros (k & vals & -> & Hne & _).
  destruct (last vals) as [l|] eqn:Hl; [|by apply last_None in Hl].
  exists l. unfold ringPrevValue. rewrite last_app, fmap_last, Hl. done.
Qed.

(** On a storage that satisfies the invariants, with a positive
    [Intervals], the consumer ingest returns. *)
Lemma addConsumerOffset_ok storage o :
  storageInv storage →
  sliceInv storage →
  0 < Intervals (lagcheck storage) →
  ∃ storage', addConsumerOffset storage o = Ok storage'.
Proof.
  intros Hinv Hsl Hpos. unfold addConsumerOffset.
  destruct (offsets storage !! po_Cluster o) as [cl|] eqn:Hc; [|by eexists].
  destruct (_ || _); [by eexists|].
  destruct (broker cl !! po_Topic o) as [tpl|] eqn:Ht; [|by eexists].
  destruct (Z.ltb_spec (po_Partition o) 0); [by eexists|].
  destruct (Z.leb_spec (wrap32 (Z.of_nat (length tpl))) (po_Partition o));
    [by eexists|].
  pose proof (wrap32_le (Z.of_nat (length tpl)) ltac:(lia)) as Hw.
  rewrite !index_nonneg by done.
  destruct (tpl !! Z.to_nat (po_Partition o)) as [[b|]|] eqn:Hb; simpl;
    [|by eexists|apply lookup_ge_None in Hb; lia].
  set (stored := topicSlice cl (po_Group o) (po_Topic o)
                   (Z.of_nat (length tpl))).
  assert (Hlen : length stored = length tpl).
  { unfold stored. rewrite (topicSlice_sliceAt storage (po_Cluster o)) by done.
    destruct (sliceAt storage _ _ _) as [sl|] eqn:Hs; simpl.
    - destruct (Hsl _ _ _ _ Hs) as (l & Hl & Hlen).
      unfold brokerList in Hl. rewrite Hc in Hl. simpl in Hl. congruence.
    - rewrite length_replicate. lia. }
  destruct (Z.leb_spec (Z.of_nat (length stored)) (po_Partition o)); [lia|].
  destruct (stored !! Z.to_nat (po_Partition o)) as [[r|]|] eqn:Hx; simpl.
  - assert (Hr : ringAt storage (po_Cluster o) (po_Group o) (po_Topic o)
                   (Z.to_nat (po_Partition o)) = Some r).
    { rewrite <- (topicSlice_lookup storage _ cl _ _ (Z.of_nat (length tpl)))
        by done.
      fold stored. by rewrite Hx. }
    destruct (Hinv _ _ _ _ _ Hr) as (_ & Hshape & _).
    destruct (ringPrevValue_shape _ _ Hshape) as [lastOffset ->].
    destruct (noAdvance _ _); [by eexists|].
    destruct (tooFast _ _ _); by eexists.
  - unfold ringNew.
    destruct (Z.leb_spec (Intervals (lagcheck storage)) 0); [lia|].
    by eexists.
  - apply lookup_ge_None in Hx. lia.
Qed.

(** X11: the events that can crash the actor.  In a storage reachable
    from a configuration with a positive [Intervals], the only events
    whose handler panics are a broker observation on which
    [addBrokerOffset] panics and a drop request for a cluster that is
    not configured: in particular no consumer commit and no evaluation
    panics. *)
Theorem X11_only_broker_ingest_and_drop_panic lc clusters gbl tbl storage e :
  reachable (NewOffsetStorage lc clusters gbl tbl) storage →
  0 < Intervals lc →
  handle storage e = Panic →
  (∃ o, e = OffsetEvent o ∧ po_Group o = ""%string
        ∧ addBrokerOffset storage o = Panic)
  ∨ (∃ now c g, e = RequestEvent now (RequestConsumerDrop c g)
                ∧ offsets storage !! c = None).
Proof.
  intros Hreach Hpos.
  pose proof (reachable_storageInv _ _ _ _ _ Hreach) as Hinv.
  pose proof (reachable_sliceInv _ _ _ _ _ Hreach) as Hsl.
  pose proof (reachable_lagcheck _ _ Hreach) as Hlc. simpl in Hlc.
  destruct e as [o|now rq]; simpl.
  - unfold handleOffset. destruct (String.eqb_spec (po_Group o) "") as [Hg|Hg].
    + intros Hp. left. by exists o.
    + destruct (addConsumerOffset_ok storage o Hinv Hsl) as [s' ->]; [|done].
      by rewrite Hlc.
  - destruct rq as [|c|c g|c t g|c g showall|c g]; simpl; try done.
    + destruct (evaluateGroup_ok storage c g showall now Hinv) as [res ->].
      by destruct res.
    + unfold dropGroup.
      destruct (offsets storage !! c) as [cl|] eqn:Hc.
      * by destruct (consumer cl !! g).
      * intros _. right. by exists now, c, g.
Qed.

Lemma X11_witness :
  (∃ o, OffsetEvent
          {| po_Cluster := "local"; po_Topic := "T"; po_Partition := 3;
             po_Offset := 10; po_Timestamp := 1000; po_Group := "";
             po_TopicPartitionCount := 1 |} = OffsetEvent o
        ∧ po_Group o = ""%string
        ∧ addBrokerOffset (storageAfter storage0 twoCommits) o = Panic)
  ∨ (∃ now c g,
       OffsetEvent
         {| po_Cluster := "local"; po_Topic := "T"; po_Partition := 3;
            po_Offset := 10; po_Timestamp := 1000; po_Group := "";
            po_TopicPartitionCount := 1 |}
       = RequestEvent now (RequestConsumerDrop c g)
       ∧ offsets (storageAfter storage0 twoCommits) !! c = None).
Proof.
  apply (X11_only_broker_ingest_and_drop_panic
           lagcheck5 ["local"%string] None None).
  - apply storageAfter_reachable; [solve_wfEvents|].
    eexists. vm_compute. reflexivity.
  - simpl. lia.
  - vm_compute. reflexivity.
Defined.

(** ** Further invariants of the reachable storages *)

(** X12: in every reachable storage a ring has [Intervals] slots, the
    unwritten ones first in reading order and at least one written; so
    rings exist only under a positive [Intervals]. *)
Theorem X12_ring_capacity lc clusters gbl tbl storage c g t (q : nat) r :
  reachable (NewOffsetStorage lc clusters gbl tbl) storage →
  ringAt storage c g t q = Some r →
  Z.of_nat (length r) = Intervals lc
  ∧ 0 < Intervals lc
  ∧ ∃ (k : nat) vals, r = replicate k None ++ (Some <$> vals) ∧ vals ≠ [].
Proof.
  intros Hreach Hr.
  pose proof (reachable_lagcheck _ _ Hreach) as Hlc. simpl in Hlc.
  destruct (reachable_storageInv _ _ _ _ _ Hreach _ _ _ _ _ Hr)
    as (_ & (k & vals & -> & Hne & Hlen) & _).
  rewrite Hlc in Hlen. split; [done|]. split.
  - rewrite <- Hlen, length_app, length_fmap. destruct vals; [done|].
    simpl. lia.
  - by exists k, vals.
Qed.

Lemma X12_witness :
  reachable storage0 (storageAfter storage0 twoCommits)
  ∧ Z.of_nat (length [None; None; None;
                      Some (ringEntry 100 1100 0 false);
                      Some (ringEntry 110 1200 0 false)]) = 5.
Proof.
  assert (Hreach : reachable storage0 (storageAfter storage0 twoCommits)).
  { apply storageAfter_reachable; [solve_wfEvents|].
    eexists. vm_compute. reflexivity. }
  split; [exact Hreach|].
  refine (proj1 (X12_ring_capacity lagcheck5 ["local"%string] None None _
                   "local"%string "G"%string "T"%string 0%nat _ Hreach _)).
  vm_compute. reflexivity.
Defined.

Lemma partitionLag_nonneg b o : 0 <= partitionLag b o.
Proof.
  unfold partitionLag. destruct (Z.ltb_spec (wrap64 (b - po_Offset o)) 0); lia.
Qed.

Lemma ringAt_init lc clusters gbl tbl c g t (q : nat) :
  ringAt (NewOffsetStorage lc clusters gbl tbl) c g t q = None.
Proof.
  unfold ringAt, NewOffsetStorage. simpl.
  destruct (list_to_map _ !! c) as [cl|] eqn:Hc; simpl; [|done].
  apply elem_of_list_to_map_2 in Hc.
  apply list_elem_of_fmap in Hc as (c0 & [= -> ->] & _).
  simpl. by rewrite lookup_empty.
Qed.

Section ring_predicate.
Context (P : Ring → Prop).
Context (P_new : ∀ n : nat, P (replicate n None)).
Context (P_commit : ∀ r o b, P r → P (tail r ++ [Some (commitEntry b o)])).
Context (P_inject : ∀ r now lastOffset,
           P r → ringPrevValue r = Some lastOffset →
           P (tail r ++ [Some (artificialEntry now lastOffset)])).

(** A property of rings kept by the two writes holds of every ring of a
    reachable storage. *)
Lemma reachable_ring_predicate lc clusters gbl tbl storage :
  reachable (NewOffsetStorage lc clusters gbl tbl) storage →
  ∀ c g t (q : nat) r, ringAt storage c g t q = Some r → P r.
Proof.
  induction 1 as [|s e s' _ IH Hwf Hstep]; intros c g t q r.
  - by rewrite ringAt_init.
  - destruct e as [o|now rq]; simpl in Hstep.
    + unfold handleOffset in Hstep. destruct (String.eqb _ _).
      * apply addBrokerOffset_effect in Hstep as (_ & Hring & _).
        rewrite Hring. apply IH.
      * apply addConsumerOffset_effect in Hstep
          as (_ & _ & [Hring|(r0 & b & _ & _ & Hold & Hring)]);
          rewrite Hring; [apply IH|].
        case_decide; [|apply IH]. intros [= <-].
        destruct Hold as [[_ Hnew]|(Hr0 & lastOffset & Hl & _)].
        -- apply ringNew_Some in Hnew as [Hpos ->].
           rewrite ringNext_setValue
             by (destruct (Z.to_nat (Intervals (lagcheck s))) eqn:E;
                 [lia|done]).
           apply P_commit, P_new.
        -- rewrite ringNext_setValue by by eapply ringPrevValue_nonempty.
           apply P_commit. by eapply IH.
    + destruct rq as [|c0|c0 g0|c0 t0 g0|c0 g0 showall|c0 g0];
        simpl in Hstep; try (injection Hstep as <-; by apply IH).
      * destruct (evaluateGroup _ _ _ _ _) as [[s1 status]|] eqn:He;
          simpl in Hstep; [|done].
        injection Hstep as <-.
        apply evaluateGroup_effect in He as (_ & _ & Hring).
        intros Hr. destruct (Hring _ _ _ _ _ Hr)
          as [Hsame|(r1 & r2 & Hr1 & [= <-] & v & lastOffset & Hv & Hl & ->)].
        -- by eapply IH.
        -- rewrite ringNext_setValue by by eapply ringPrevValue_nonempty.
           apply P_inject; [|done]. by eapply IH.
      * destruct (dropGroup _ _ _) as [[s1 st]|] eqn:Hd; simpl in Hstep;
          [|done].
        injection Hstep as <-.
        apply dropGroup_effect in Hd as (_ & _ & Hring).
        intros Hr. eapply IH. by apply Hring.
Qed.
End ring_predicate.

Lemma ringLags_write (r : Ring) v :
  ringLags r →
  0 <= co_Lag v ∧ (co_artificial v = true → co_Lag v = 0) →
  (co_artificial v = true →
   ∀ lastOffset, ringPrevValue r = Some lastOffset →
                 co_Offset v = co_Offset lastOffset) →
  ringLags (tail r ++ [Some v]).
Proof.
  intros [Hlag Hart] Hv Hlast. split.
  - intros i a [Ha|[_ ->]]%lookup_ring_write; [by eapply Hlag|done].
  - intros i a b Ha Hb Hab.
    apply lookup_ring_write in Ha, Hb.
    destruct Hb as [Hb|[Hi ->]].
    + destruct Ha as [Ha|[Hi _]]; [by eapply Hart|].
      apply lookup_lt_Some in Hb. lia.
    + destruct Ha as [Ha|[Hi' _]]; [|lia].
      apply Hlast; [done|].
      rewrite ringPrevValue_lookup, <- Hi. by rewrite Ha.
Qed.

(** X13: the lag clamp.  In every reachable storage each ring entry has
    a lag of at least zero (so the sentinel -1 of Rule 5 is never
    stored), and each artificial entry has lag zero and the offset of
    the entry written before it. *)
Theorem X13_lags_clamped lc clusters gbl tbl storage c g t (q : nat) r :
  reachable (NewOffsetStorage lc clusters gbl tbl) storage →
  ringAt storage c g t q = Some r →
  (∀ (i : nat) a, r !! i = Some (Some a) →
     0 <= co_Lag a ∧ (co_artificial a = true → co_Lag a = 0))
  ∧ (∀ (i : nat) a b, r !! i = Some (Some a) → r !! S i = Some (Some b) →
       co_artificial b = true → co_Offset b = co_Offset a).
Proof.
  intros Hreach. revert c g t q r.
  apply (reachable_ring_predicate ringLags) with (4 := Hreach).
  - intros n. split.
    + intros i a Ha. by apply lookup_replicate in Ha as [? _].
    + intros i a b Ha. by apply lookup_replicate in Ha as [? _].
  - intros r o b Hr. apply ringLags_write; [done| |done].
    split; [apply partitionLag_nonneg|done].
  - intros r now lastOffset Hr Hl. apply ringLags_write; [done|done|].
    intros _ l Hl'. simpl. congruence.
Qed.

Lemma X13_witness :
  let storage :=
    (evaluated (storageAfter storage0 caughtUpAfterRewind)
       "local" "G" false 10).1 in
  reachable storage0 storage
  ∧ co_Offset (ringEntry 170 10000 0 true)
    = co_Offset (ringEntry 170 5000 0 false).
Proof.
  intros storage.
  assert (Hreach : reachable storage0 storage).
  { apply (reachable_step storage0
             (storageAfter storage0 caughtUpAfterRewind)
             (RequestEvent 10 (RequestConsumerStatus "local" "G" false))).
    - apply storageAfter_reachable; [solve_wfEvents|].
      eexists. vm_compute. reflexivity.
    - vm_compute. split; congruence.
    - vm_compute. reflexivity. }
  split; [exact Hreach|].
  refine (proj2 (X13_lags_clamped lagcheck5 ["local"%string] None None storage
                   "local"%string "G"%string "T"%string 0%nat
                   [Some (ringEntry 200 2000 0 false);
                    Some (ringEntry 150 3000 0 false);
                    Some (ringEntry 160 4000 0 false);
                    Some (ringEntry 170 5000 0 false);
                    Some (ringEntry 170 10000 0 true)] Hreach _)
            3%nat _ _ _ _ _); vm_compute; reflexivity.
Defined.

(** ** Blacklists *)

Lemma groupAt_set_broker storage c cl b c' g :
  offsets storage !! c = Some cl →
  groupAt (set_broker storage c cl b) c' g = groupAt storage c' g.
Proof.
  intros Hc. unfold groupAt, set_broker. simpl. rewrite lookup_insert.
  case_decide; [subst; by rewrite Hc|done].
Qed.

Lemma groupAt_set_consumer storage c cl cons c' g :
  groupAt (set_consumer storage c cl cons) c' g
  = if decide (c = c') then cons !! g else groupAt storage c' g.
Proof.
  unfold groupAt, set_consumer. simpl. rewrite lookup_insert.
  by case_decide.
Qed.

Lemma sliceAt_groupAt storage c g t :
  sliceAt storage c g t = groupAt storage c g ≫= λ cm, cm !! t.
Proof.
  unfold sliceAt, groupAt. by destruct (offsets storage !! c).
Qed.

Lemma elem_of_requestConsumerList storage c g :
  g ∈ requestConsumerList storage c ↔ is_Some (groupAt storage c g).
Proof.
  unfold requestConsumerList, groupAt.
  destruct (offsets storage !! c) as [cl|]; simpl.
  - split.
    + intros ([g' cm] & -> & Hin%elem_of_map_to_list)%list_elem_of_fmap.
      by eexists.
    + intros [cm Hcm]. apply list_elem_of_fmap. exists (g, cm).
      split; [done|]. by apply elem_of_map_to_list.
  - split; [by intros ?%elem_of_nil|by intros [? ?]].
Qed.

Lemma addConsumerOffset_blacklisted storage o :
  matchString (groupBlacklist storage) (po_Group o)
  || matchString (topicBlacklist storage) (po_Topic o) = true →
  addConsumerOffset storage o = Ok storage.
Proof.
  intros Hbl. unfold addConsumerOffset.
  destruct (offsets storage !! po_Cluster o); [|done]. by rewrite Hbl.
Qed.

(** The groups and topics a handler leaves in the consumer table were
    there before, or are those of the commit it stored. *)
Lemma handle_keys storage e storage' c g cm :
  handle storage e = Ok storage' →
  groupAt storage' c g = Some cm →
  (∀ t, is_Some (cm !! t) →
     is_Some (sliceAt storage c g t)
     ∨ ∃ o, e = OffsetEvent o ∧ po_Group o = g ∧ po_Topic o = t
            ∧ matchString (groupBlacklist storage) g = false
            ∧ matchString (topicBlacklist storage) t = false)
  ∧ (is_Some (groupAt storage c g)
     ∨ ∃ o, e = OffsetEvent o ∧ po_Group o = g
            ∧ matchString (groupBlacklist storage) g = false).
Proof.
  intros He Hcm.
  assert (Hsame : groupAt storage c g = Some cm →
    (∀ t, is_Some (cm !! t) →
       is_Some (sliceAt storage c g t)
       ∨ ∃ o, e = OffsetEvent o ∧ po_Group o = g ∧ po_Topic o = t
              ∧ matchString (groupBlacklist storage) g = false
              ∧ matchString (topicBlacklist storage) t = false)
    ∧ (is_Some (groupAt storage c g)
       ∨ ∃ o, e = OffsetEvent o ∧ po_Group o = g
              ∧ matchString (groupBlacklist storage) g = false)).
  { intros Hg. split; [|left; by eexists].
    intros t Ht. left. by rewrite sliceAt_groupAt, Hg. }
  destruct e as [o|now rq]; simpl in He.
  - unfold handleOffset in He. destruct (String.eqb _ _).
    + apply addBrokerOffset_shape in He as [->|(cl & b' & Hc & ->)];
        [by apply Hsame|].
      rewrite groupAt_set_broker in Hcm by done. by apply Hsame.
    + destruct (matchString (groupBlacklist storage) (po_Group o)
                || matchString (topicBlacklist storage) (po_Topic o)) eqn:Hbl.
      { rewrite addConsumerOffset_blacklisted in He by done.
        injection He as <-. by apply Hsame. }
      apply orb_false_iff in Hbl as [Hgb Htb].
      apply addConsumerOffset_slices in He
        as [->|(cl & tpl & sl' & Hc & Ht & Hlen & ->)]; [by apply Hsame|].
      unfold storeSlice in Hcm. rewrite groupAt_set_consumer in Hcm.
      case_decide as Hcc; [subst c|by apply Hsame].
      rewrite lookup_insert in Hcm. case_decide as Hgg; [subst g|].
      * injection Hcm as <-. split; [|right; by exists o].
        intros t. rewrite lookup_insert. case_decide as Htt; [subst t|].
        -- intros _. right. by exists o.
        -- intros Hsl. left. rewrite sliceAt_groupAt.
           unfold groupAt, groupMap in *. rewrite Hc. simpl.
           destruct (consumer cl !! po_Group o); simpl in *; [done|].
           by rewrite lookup_empty in Hsl.
      * apply Hsame. unfold groupAt. rewrite Hc. done.
  - destruct rq as [|c0|c0 g0|c0 t0 g0|c0 g0 showall|c0 g0]; simpl in He;
      try (injection He as <-; by apply Hsame).
    + destruct (evaluateGroup _ _ _ _ _) as [[s1 status]|] eqn:Hev;
        simpl in He; [|done].
      injection He as <-.
      apply evaluateGroup_cases in Hev
        as [->|(cl & cm0 & Hc & Hg & [->|(topics' & HF & ->)])];
        [by apply Hsame| |].
      * rewrite groupAt_set_consumer in Hcm.
        case_decide as Hcc; [subst c|by apply Hsame].
        rewrite lookup_delete in Hcm. case_decide; [done|].
        apply Hsame. unfold groupAt. by rewrite Hc.
      * rewrite groupAt_set_consumer in Hcm.
        case_decide as Hcc; [subst c|by apply Hsame].
        rewrite lookup_insert in Hcm. case_decide as Hgg; [subst g|].
        -- injection Hcm as <-. split; [|left].
           ++ intros t [sl' Hsl']. left.
              destruct (ringsOf_slice _ _ _ _ _ _ HF Hsl') as (sl & Hsl & _).
              rewrite sliceAt_groupAt. unfold groupAt. rewrite Hc. simpl.
              rewrite Hg. simpl. by eexists.
           ++ unfold groupAt. rewrite Hc. simpl. by eexists.
        -- apply Hsame. unfold groupAt. by rewrite Hc.
    + destruct (dropGroup _ _ _) as [[s1 st]|] eqn:Hd; simpl in He; [|done].
      injection He as <-. revert Hd. unfold dropGroup.
      destruct (offsets storage !! c0) as [cl|] eqn:Hc; [|done].
      destruct (consumer cl !! g0); intros [= <- _]; [|by apply Hsame].
      rewrite groupAt_set_consumer in Hcm.
      case_decide as Hcc; [subst c|by apply Hsame].
      rewrite lookup_delete in Hcm. case_decide; [done|].
      apply Hsame. unfold groupAt. by rewrite Hc.
Qed.

Lemma reachable_sameSkeleton init storage :
  reachable init storage → sameSkeleton init storage.
Proof.
  induction 1 as [|s e s' _ IH Hwf Hstep]; [done|].
  eapply sameSkeleton_trans; [done|]. by eapply handle_sameSkeleton.
Qed.

Lemma reachable_keys lc clusters gbl tbl storage :
  reachable (NewOffsetStorage lc clusters gbl tbl) storage →
  ∀ c g cm, groupAt storage c g = Some cm →
    matchString gbl g = false
    ∧ ∀ t, is_Some (cm !! t) → matchString tbl t = false.
Proof.
  induction 1 as [|s e s' Hreach IH Hwf Hstep]; intros c g cm Hcm.
  - revert Hcm. unfold groupAt, NewOffsetStorage. simpl.
    destruct (list_to_map _ !! c) as [cl|] eqn:Hc; simpl; [|done].
    apply elem_of_list_to_map_2 in Hc.
    apply list_elem_of_fmap in Hc as (c0 & [= -> ->] & _).
    simpl. by rewrite lookup_empty.
  - apply reachable_sameSkeleton in Hreach as (_ & Hgb & Htb & _).
    simpl in Hgb, Htb.
    destruct (handle_keys _ _ _ _ _ _ Hstep Hcm) as [Ht Hg]. split.
    + destruct Hg as [[cm0 Hcm0]|(o & _ & _ & Hok)]; [|congruence].
      by destruct (IH _ _ _ Hcm0).
    + intros t [Hsl|(o & _ & _ & _ & _ & Hok)]%Ht; [|congruence].
      rewrite sliceAt_groupAt in Hsl.
      destruct (groupAt s c g) as [cm0|] eqn:Hcm0; [|by destruct Hsl].
      destruct (IH _ _ _ Hcm0) as [_ Hts]. by apply Hts.
Qed.

(** X14: the blacklists.  In every reachable storage no group listed by
    the consumer list handler matches the group blacklist, and no ring
    is stored under a group or a topic that matches its blacklist. *)
Theorem X14_blacklisted_never_stored lc clusters gbl tbl storage :
  reachable (NewOffsetStorage lc clusters gbl tbl) storage →
  (∀ c g, g ∈ requestConsumerList storage c → matchString gbl g = false)
  ∧ (∀ c g t (q : nat) r,
       ringAt storage c g t q = Some r →
       matchString gbl g = false ∧ matchString tbl t = false).
Proof.
  intros Hreach. split.
  - intros c g [cm Hcm]%elem_of_requestConsumerList.
    by destruct (reachable_keys _ _ _ _ _ Hreach _ _ _ Hcm).
  - intros c g t q r Hr.
    apply ringAt_inv in Hr as (cl & cm & sl & Hc & Hg & Ht & _).
    destruct (reachable_keys _ _ _ _ _ Hreach c g cm) as [Hgb Htb].
    { unfold groupAt. by rewrite Hc. }
    split; [done|]. apply Htb. by eexists.
Qed.

Lemma X14_witness :
  reachable storageBlacklisting
    (storageAfter storageBlacklisting blacklistedCommit)
  ∧ requestConsumerList (storageAfter storageBlacklisting blacklistedCommit)
      "local" = ["G"%string]
  ∧ consoleConsumers "G" = false.
Proof.
  assert (Hreach : reachable storageBlacklisting
                     (storageAfter storageBlacklisting blacklistedCommit)).
  { apply storageAfter_reachable; [solve_wfEvents|].
    eexists. vm_compute. reflexivity. }
  split; [exact Hreach|].
  assert (Hlist : requestConsumerList
                    (storageAfter storageBlacklisting blacklistedCommit)
                    "local" = ["G"%string]) by (vm_compute; reflexivity).
  split; [exact Hlist|].
  refine (proj1 (X14_blacklisted_never_stored lagcheck5 ["local"%string]
                   (Some consoleConsumers) None _ Hreach)
            "local"%string "G"%string _).
  rewrite Hlist. by left.
Defined.

(** ** Group drop *)

Lemma ringAt_groupAt storage c g t (q : nat) :
  ringAt storage c g t q
  = groupAt storage c g ≫= λ cm, cm !! t ≫= λ sl, (sl !! q) ≫= id.
Proof.
  unfold ringAt, groupAt. by destruct (offsets storage !! c).
Qed.

(** X15: on a configured cluster the group drop never panics.  It
    replies OK exactly when the group is listed, and then removes the
    group with all its rings and nothing else; otherwise it replies
    NOTFOUND and leaves the storage as it is.  A second drop of the same
    group replies NOTFOUND. *)
Theorem X15_drop_group storage c g :
  is_Some (offsets storage !! c) →
  ∃ storage' st,
    dropGroup storage c g = Ok (storage', st)
    ∧ (g ∈ requestConsumerList storage c → st = StatusOK)
    ∧ (g ∉ requestConsumerList storage c →
       st = StatusNotFound ∧ storage' = storage)
    ∧ (∀ g', g' ∈ requestConsumerList storage' c
             ↔ g' ∈ requestConsumerList storage c ∧ g' ≠ g)
    ∧ (∀ c' g' t (q : nat),
         ringAt storage' c' g' t q
         = if decide (c' = c ∧ g' = g) then None
           else ringAt storage c' g' t q)
    ∧ (∀ c' t, brokerList storage' c' t = brokerList storage c' t)
    ∧ dropGroup storage' c g = Ok (storage', StatusNotFound).
Proof.
  intros [cl Hc].
  assert (Hlisted : g ∈ requestConsumerList storage c
                    ↔ is_Some (consumer cl !! g)).
  { rewrite elem_of_requestConsumerList. unfold groupAt. by rewrite Hc. }
  unfold dropGroup at 1. rewrite Hc.
  destruct (consumer cl !! g) as [cm|] eqn:Hg.
  - eexists _, _. split; [done|]. split; [done|].
    split; [intros Hn; exfalso; apply Hn, Hlisted; by eexists|].
    split; [|split; [|split]].
    + intros g'. rewrite !elem_of_requestConsumerList.
      rewrite groupAt_set_consumer, decide_True by done.
      rewrite lookup_delete. unfold groupAt. rewrite Hc. simpl.
      case_decide as Hgg; [subst g'|].
      * split; [by intros [? ?]|by intros [_ ?]].
      * split; [done|by intros [? _]].
    + intros c' g' t q. rewrite (ringAt_groupAt (set_consumer _ _ _ _)).
      rewrite groupAt_set_consumer.
      destruct (decide (c = c')) as [<-|Hcc].
      * rewrite lookup_delete. destruct (decide (g = g')) as [<-|Hgg].
        -- by rewrite decide_True.
        -- rewrite decide_False by (intros [_ ?]; congruence).
           rewrite ringAt_groupAt. unfold groupAt. by rewrite Hc.
      * rewrite decide_False by (intros [? _]; congruence).
        by rewrite ringAt_groupAt.
    + intros c' t. by apply brokerList_set_consumer.
    + unfold dropGroup, set_consumer. simpl. rewrite lookup_insert_eq. simpl.
      by rewrite lookup_delete_eq.
  - eexists _, _. split; [done|].
    split; [intros [? ?]%Hlisted; done|]. split; [done|].
    split; [|split; [|split]].
    + intros g'. split; [|by intros [? _]].
      intros Hg'. split; [done|]. intros ->.
      apply Hlisted in Hg' as [? ?]. done.
    + intros c' g' t q. case_decide as Hk; [|done].
      destruct Hk as [-> ->]. unfold ringAt. rewrite Hc. simpl.
      by rewrite Hg.
    + done.
    + unfold dropGroup. by rewrite Hc, Hg.
Qed.

Lemma X15_witness :
  ∃ storage' st,
    dropGroup (storageAfter storage0 twoCommits) "local" "G"
    = Ok (storage', st)
    ∧ st = StatusOK
    ∧ requestConsumerList storage' "local" = []
    ∧ dropGroup storage' "local" "G" = Ok (storage', StatusNotFound).
Proof.
  destruct (X15_drop_group (storageAfter storage0 twoCommits)
              "local" "G") as (storage' & st & Hd & Hok & _ & _ & _ & _ & H2).
  - vm_compute. by eexists.
  - exists storage', st. split; [exact Hd|].
    split; [apply Hok; vm_compute; by left|].
    split; [|exact H2].
    vm_compute in Hd. injection Hd as <- _. vm_compute. reflexivity.
Defined.

(** ** Evaluation: what it leaves alone *)

Lemma evaluateGroup_echo storage c g showall now storage' status :
  evaluateGroup storage c g showall now = Ok (storage', status) →
  cgs_Cluster status = c ∧ cgs_Group status = g.
Proof.
  unfold evaluateGroup.
  destruct (offsets storage !! c) as [cl|]; [|by intros [= _ <-]].
  destruct (consumer cl !! g); [|by intros [= _ <-]].
  destruct (snapshotGroup _ _ _ _ _) as [[[topics' ol] acc]|]; simpl;
    [|done].
  by destruct (expired _ _ _); intros [= _ <-].
Qed.

(** X16: an evaluation of a group replies with the cluster and group it
    was asked for and leaves alone the configuration, the set of
    clusters, every broker vector and every ring of another group or
    cluster; a ring of the group keeps its number of slots. *)
Theorem X16_evaluation_frame storage c g showall now storage' status :
  evaluateGroup storage c g showall now = Ok (storage', status) →
  cgs_Cluster status = c ∧ cgs_Group status = g
  ∧ sameSkeleton storage storage'
  ∧ (∀ c' t, brokerList storage' c' t = brokerList storage c' t)
  ∧ (∀ c' g' t (q : nat), (c', g') ≠ (c, g) →
       ringAt storage' c' g' t q = ringAt storage c' g' t q)
  ∧ (∀ t (q : nat) r',
       ringAt storage' c g t q = Some r' →
       ∃ r, ringAt storage c g t q = Some r ∧ length r' = length r).
Proof.
  intros He.
  destruct (evaluateGroup_echo _ _ _ _ _ _ _ He) as [Hec Heg].
  split; [done|]. split; [done|]. split; [|split; [|split]].
  - apply evaluateGroup_shape in He as [->|(cl & cons' & Hc & ->)]; [done|].
    by eapply sameSkeleton_set_offsets.
  - eapply brokerList_set_consumer_or. by eapply evaluateGroup_shape.
  - intros c' g' t q Hne.
    assert (Hgroup : ∀ cl cons', offsets storage !! c = Some cl →
      (∀ g0, g0 ≠ g → cons' !! g0 = consumer cl !! g0) →
      ringAt (set_consumer storage c cl cons') c' g' t q
      = ringAt storage c' g' t q).
    { intros cl cons' Hc Hcons. rewrite ringAt_set_consumer.
      case_decide as Hcc; [subst c'|done].
      rewrite Hcons by congruence. unfold ringAt. by rewrite Hc. }
    apply evaluateGroup_cases in He
      as [->|(cl & cm & Hc & Hg & [->|(topics' & HF & ->)])]; [done| |].
    + apply Hgroup; [done|]. intros g0 Hg0. by rewrite lookup_delete_ne.
    + apply Hgroup; [done|]. intros g0 Hg0. by rewrite lookup_insert_ne.
  - intros t q r' Hr'.
    apply evaluateGroup_effect in He as (_ & _ & Hring).
    destruct (Hring _ _ _ _ _ Hr')
      as [<-|(r & r0 & -> & [= <-] & v & l & Hv & Hl & ->)]; [by eexists|].
    exists r. split; [done|].
    rewrite ringNext_setValue by by eapply ringPrevValue_nonempty.
    destruct r; [done|]. simpl. rewrite length_app. simpl. lia.
Qed.

Lemma X16_witness :
  let first := evaluated (storageAfter storage0 caughtUpAfterRewind)
                 "local" "G" false 10 in
  cgs_Cluster first.2 = "local"%string
  ∧ brokerList first.1 "local" "T"
    = brokerList (storageAfter storage0 caughtUpAfterRewind) "local" "T".
Proof.
  intros first.
  destruct (X16_evaluation_frame
              (storageAfter storage0 caughtUpAfterRewind)
              "local" "G" false 10 first.1 first.2)
    as (Hc & _ & _ & Hb & _).
  - vm_compute. reflexivity.
  - split; [exact Hc|apply Hb].
Defined.

(** ** The statuses of a reply *)

Lemma consistentStatus_mono c c' s :
  groupStatus c → groupStatus c' → (severity c ≤ severity c')%nat →
  consistentStatus c s → consistentStatus c' s.
Proof.
  intros [ -> | [ -> | -> ] ] [ -> | [ -> | -> ] ]; simpl; intros Hle;
    destruct s; simpl; try done; try lia; intros [?|?]; try done; auto.
Qed.

Lemma evalInv_setStatus showall c st :
  evalInv showall st →
  groupStatus c → (severity (es_Status st) ≤ severity c)%nat →
  evalInv showall (setStatus c st).
Proof.
  intros (Hg & Hheap & Hlist & Hmax) Hc Hle. split; [done|].
  split; [|done]. simpl.
  eapply Forall_impl; [done|]. intros p. by apply consistentStatus_mono.
Qed.

Lemma evalInv_setPartStatus showall i s st :
  evalInv showall st →
  consistentStatus (es_Status st) s → s ≠ StatusOK →
  evalInv showall (setPartStatus i s st).
Proof.
  intros (Hg & Hheap & Hlist & Hmax) Hs Hne. split; [done|]. simpl.
  split; [|split].
  - apply Forall_alter; [done|]. by intros p _ _.
  - eapply Forall_impl; [done|]. intros j (p & Hp & Hok).
    unfold listedOk. rewrite list_lookup_alter.
    case_decide as Hij; [subst j|by exists p].
    rewrite Hp. simpl. eexists. split; [done|]. by intros _.
  - intros j Hj. rewrite length_alter. by apply Hmax.
Qed.

Lemma evalInv_appendPartition showall i st :
  evalInv showall st →
  listedOk showall (es_heap st) i →
  evalInv showall (appendPartition i st).
Proof.
  intros (Hg & Hheap & Hlist & Hmax) Hi. split; [done|]. split; [done|].
  split; [|done]. simpl. apply Forall_app. split; [done|].
  by apply Forall_singleton.
Qed.

Lemma listedOk_app showall heap p i :
  listedOk showall heap i → listedOk showall (heap ++ [p]) i.
Proof.
  intros (q & Hq & Hok). exists q. split; [|done]. by apply lookup_app_l_Some.
Qed.

Lemma evalInv_newPart showall p st :
  evalInv showall st →
  ps_Status p = StatusOK →
  evalInv showall (newPart p st).2
  ∧ (newPart p st).1 = length (es_heap st)
  ∧ es_heap (newPart p st).2 = es_heap st ++ [p]
  ∧ es_Status (newPart p st).2 = es_Status st
  ∧ es_Complete (newPart p st).2 = es_Complete st.
Proof.
  intros (Hg & Hheap & Hlist & Hmax) Hp. split; [|done].
  split; [done|]. simpl. split; [|split].
  - apply Forall_app. split; [done|]. apply Forall_singleton. by rewrite Hp.
  - eapply Forall_impl; [done|]. intros i. apply listedOk_app.
  - intros i Hi. rewrite length_app. apply Hmax in Hi. simpl. lia.
Qed.

Lemma evalInv_trackLag showall i lastOffset st :
  evalInv showall st →
  (i < length (es_heap st))%nat →
  evalInv showall (trackLag i lastOffset st).
Proof.
  intros (Hg & Hheap & Hlist & Hmax) Hi. split; [done|]. split; [done|].
  split; [done|]. simpl. intros j. destruct (_ <? _); [|by apply Hmax].
  by intros [= <-].
Qed.

(** The partition under evaluation may be listed once its status is not
    OK, or when all partitions are shown. *)
Lemma listedOk_thispart showall i st :
  (i < length (es_heap st))%nat →
  negb (isOK (partStatus i st)) || showall = true →
  listedOk showall (es_heap st) i.
Proof.
  intros Hi Hor. unfold partStatus in Hor.
  destruct (es_heap st !! i) as [p|] eqn:Hp;
    [|apply lookup_ge_None in Hp; lia].
  exists p. split; [done|]. intros ->.
  rewrite orb_false_r in Hor. by destruct (ps_Status p).
Qed.

Lemma evalInv_mark showall i s st :
  evalInv showall st →
  (i < length (es_heap st))%nat →
  consistentStatus (es_Status st) s → s ≠ StatusOK →
  evalInv showall (appendPartition i (setPartStatus i s st)).
Proof.
  intros Hinv Hi Hs Hne. apply evalInv_appendPartition.
  - by apply evalInv_setPartStatus.
  - simpl. destruct (es_heap st !! i) as [p|] eqn:Hp;
      [|apply lookup_ge_None in Hp; lia].
    exists (withStatus s p). split; [|by intros _].
    rewrite list_lookup_alter, decide_True by done. by rewrite Hp.
Qed.

Lemma severity_le_error c : groupStatus c → (severity c ≤ severity StatusError)%nat.
Proof. intros [ -> | [ -> | -> ] ]; simpl; lia. Qed.

Lemma evalInv_error showall st :
  evalInv showall st → evalInv showall (setStatus StatusError st).
Proof.
  intros Hinv. apply evalInv_setStatus; [done|by right; right|].
  apply severity_le_error. by destruct Hinv.
Qed.

Lemma rule6_inv showall i prev rest st :
  evalInv showall st →
  (i < length (es_heap st))%nat →
  evalInv showall (rule6 i prev rest st)
  ∧ length (es_heap (rule6 i prev rest st)) = length (es_heap st)
  ∧ (severity (es_Status st) ≤ severity (es_Status (rule6 i prev rest st)))%nat
  ∧ es_Complete (rule6 i prev rest st) = es_Complete st.
Proof.
  revert prev st. induction rest as [|cur rest IH]; intros prev st Hinv Hi;
    simpl; [done|].
  destruct (co_Offset cur <? co_Offset prev).
  - destruct (IH cur (appendPartition i
                        (setPartStatus i StatusRewind
                           (setStatus StatusError st))))
      as (Hinv' & Hlen & Hsev & Hcomp).
    + apply evalInv_mark; [by apply evalInv_error|done|done|done].
    + simpl. by rewrite length_alter.
    + split; [done|]. simpl in *. rewrite length_alter in Hlen.
      split; [done|]. split; [|done].
      etrans; [|exact Hsev]. apply severity_le_error. by destruct Hinv.
  - by apply IH.
Qed.

Lemma addIfShowall_inv showall i st :
  evalInv showall st →
  (i < length (es_heap st))%nat →
  evalInv showall (addIfShowall showall i st).
Proof.
  intros Hinv Hi. unfold addIfShowall. destruct showall eqn:Hs; [|done].
  apply evalInv_appendPartition; [done|].
  apply listedOk_thispart; [done|]. by rewrite orb_true_r.
Qed.

Lemma addIfNotOK_inv showall i st :
  evalInv showall st →
  (i < length (es_heap st))%nat →
  evalInv showall (addIfNotOK showall i st).
Proof.
  intros Hinv Hi. unfold addIfNotOK.
  destruct (negb (isOK (partStatus i st)) || showall) eqn:Hor; [|done].
  apply evalInv_appendPartition; [done|]. by apply listedOk_thispart.
Qed.

Lemma rules123_inv showall i offsets firstOffset lastOffset st :
  evalInv showall st →
  (i < length (es_heap st))%nat →
  evalInv showall (rules123 showall i offsets firstOffset lastOffset st).
Proof.
  intros Hinv Hi. unfold rules123.
  destruct (co_Lag lastOffset =? 0); [by apply addIfShowall_inv|].
  destruct (co_Offset lastOffset =? co_Offset firstOffset).
  - destruct (co_Lag firstOffset =? 0); [by apply addIfShowall_inv|].
    apply addIfNotOK_inv; [|simpl; by rewrite length_alter].
    apply evalInv_setPartStatus; [by apply evalInv_error|done|done].
  - destruct (_ || _); [by apply addIfShowall_inv|].
    destruct (lagDropped None offsets); [by apply addIfNotOK_inv|].
    apply addIfNotOK_inv.
    + apply evalInv_setPartStatus; [| |done].
      * destruct (isOK (es_Status st)) eqn:Hok; [|done].
        apply evalInv_setStatus; [done|by right; left|].
        destruct (es_Status st); simpl in *; try done; lia.
      * destruct Hinv as ([H|[H|H]] & _); rewrite H; simpl; auto.
    + simpl. rewrite length_alter. by destruct (isOK (es_Status st)).
Qed.

Lemma evaluatePartition_inv showall now topic partition offsets st :
  evalInv showall st →
  evalInv showall (evaluatePartition showall now topic partition offsets st).
Proof.
  intros Hinv. unfold evaluatePartition.
  destruct offsets as [|firstOffset others]; [done|].
  generalize (List.last (firstOffset :: others) firstOffset).
  intros lastOffset.
  destruct (co_Lag firstOffset =? -1); [done|].
  set (p := {| ps_Topic := topic;
               ps_Partition := wrap32 (Z.of_nat partition);
               ps_Status := StatusOK;
               ps_Start := firstOffset;
               ps_End := lastOffset |}).
  destruct (evalInv_newPart showall p st Hinv eq_refl)
    as (Hinv1 & Hptr & Hheap & _).
  destruct (newPart p st) as [thispart st1] eqn:Hnew.
  cbn [fst snd] in Hinv1, Hptr, Hheap.
  assert (Hi : (thispart < length (es_heap st1))%nat).
  { rewrite Hheap, length_app, Hptr. simpl. lia. }
  pose proof (evalInv_trackLag showall thispart lastOffset st1 Hinv1 Hi)
    as Hinv2.
  assert (Hi2 : (thispart
                 < length (es_heap (trackLag thispart lastOffset st1)))%nat)
    by done.
  destruct (_ <? _).
  - apply evalInv_mark; [by apply evalInv_error|done|done|done].
  - destruct (rule6_inv showall thispart firstOffset others _ Hinv2 Hi2)
      as (Hinv3 & Hlen & _).
    apply rules123_inv; [done|]. by rewrite Hlen.
Qed.

Lemma evaluateTopic_inv showall now topic partition partitions st :
  evalInv showall st →
  evalInv showall (evaluateTopic showall now topic partition partitions st).
Proof.
  revert partition st.
  induction partitions as [|offsets rest IH]; intros partition st Hinv;
    simpl; [done|].
  apply IH. by apply evaluatePartition_inv.
Qed.

Lemma evaluateTopics_inv showall now offsetList st :
  evalInv showall st →
  evalInv showall (evaluateTopics showall now offsetList st).
Proof.
  unfold evaluateTopics. revert st.
  induction offsetList as [|[t arrs] rest IH]; intros st Hinv; simpl;
    [done|].
  apply IH. by apply evaluateTopic_inv.
Qed.

Lemma evalInv_start complete :
  evalInv false (setComplete complete (setStatus StatusOK initialStatus))
  ∧ evalInv true (setComplete complete (setStatus StatusOK initialStatus)).
Proof.
  split; (split; [by left|]; split; [by constructor|];
          split; [by constructor|done]).
Qed.

Lemma render_partitions st (R : PartitionStatus → Prop) :
  Forall (λ i, ∃ p, es_heap st !! i = Some p ∧ R p) (es_Partitions st) →
  ∀ c g n, Forall R (cgs_Partitions (render c g n st)).
Proof.
  intros HF c g n. simpl.
  induction HF as [|i l (p & Hp & HR) _ IH]; simpl; [constructor|].
  rewrite Hp. by constructor.
Qed.

(** The three ways an evaluation replies: the group is missing; the
    group is expired and removed; the rules are applied. *)
Lemma evaluateGroup_reply storage c g showall now storage' status :
  evaluateGroup storage c g showall now = Ok (storage', status) →
  (groupAt storage c g = None ∧ storage' = storage
   ∧ status = render c g 0 initialStatus)
  ∨ (∃ n complete,
       is_Some (groupAt storage c g) ∧ groupAt storage' c g = None
       ∧ status = render c g n
                    (setStatus StatusNotFound
                       (setComplete complete
                          (setStatus StatusOK initialStatus))))
  ∨ (∃ n st,
       is_Some (groupAt storage c g) ∧ is_Some (groupAt storage' c g)
       ∧ status = render c g n st ∧ evalInv showall st).
Proof.
  unfold evaluateGroup, groupAt.
  destruct (offsets storage !! c) as [cl|] eqn:Hc; simpl;
    [|intros [= <- <-]; by left].
  destruct (consumer cl !! g) as [cm|] eqn:Hg; [|intros [= <- <-]; by left].
  destruct (snapshotGroup _ _ _ _ _) as [[[topics' ol] acc]|] eqn:Hs;
    simpl; [|done].
  destruct (expired _ _ _); intros [= <- <-]; right; [left|right].
  - eexists _, _. split; [by eexists|]. split; [|done].
    simpl. rewrite lookup_insert_eq. simpl. by rewrite lookup_delete_eq.
  - eexists _, _. split; [by eexists|]. split; [|split; [done|]].
    + simpl. rewrite lookup_insert_eq. simpl. rewrite lookup_insert_eq.
      by eexists.
    + apply evaluateTopics_inv.
      destruct showall; by apply evalInv_start.
Qed.

(** X17: the reply of an evaluation is NOTFOUND exactly when the group
    is not in the storage afterwards, because it was missing or has just
    been expired and removed; such a reply lists no partition, has no
    maxlag and a zero total lag.  When the group was missing the storage
    is unchanged. *)
Theorem X17_notfound_means_gone storage c g showall now storage' status :
  evaluateGroup storage c g showall now = Ok (storage', status) →
  (cgs_Status status = StatusNotFound ↔ g ∉ requestConsumerList storage' c)
  ∧ (cgs_Status status = StatusNotFound →
     cgs_Partitions status = [] ∧ cgs_Maxlag status = None
     ∧ cgs_TotalLag status = 0)
  ∧ (g ∉ requestConsumerList storage c →
     storage' = storage ∧ cgs_TotalPartitions status = 0
     ∧ cgs_Complete status = true).
Proof.
  intros He. rewrite !elem_of_requestConsumerList.
  apply evaluateGroup_reply in He
    as [(Hg & -> & ->)
       |[(n & complete & Hg & Hg' & ->)|(n & st & Hg & Hg' & -> & Hinv)]].
  - rewrite Hg. split; [|split]; [|done|done].
    split; [intros _ [? ?]; done|done].
  - rewrite Hg'. split; [|split]; [|done|done].
    split; [intros _ [? ?]; done|done].
  - destruct Hinv as (Hstatus & _). simpl.
    split; [|split].
    + split; [|done]. intros Hnf. rewrite Hnf in Hstatus.
      by destruct Hstatus as [?|[?|?]].
    + intros Hnf. rewrite Hnf in Hstatus. by destruct Hstatus as [?|[?|?]].
    + done.
Qed.

Lemma X17_witness :
  let first := evaluated (storageAfter storage0 rewindUnderGrowingLag)
                 "local" "G" false 700000 in
  cgs_Status first.2 = StatusNotFound
  ∧ requestConsumerList first.1 "local" = [].
Proof.
  intros first.
  destruct (X17_notfound_means_gone
              (storageAfter storage0 rewindUnderGrowingLag)
              "local" "G" false 700000 first.1 first.2) as (Hiff & _ & _).
  - vm_compute. reflexivity.
  - assert (Hl : requestConsumerList first.1 "local" = [])
      by (vm_compute; reflexivity).
    split; [|exact Hl]. apply Hiff. rewrite Hl. apply not_elem_of_nil.
Defined.

(** X18: the statuses of a reply.  The group status is NOTFOUND, OK,
    WARN or ERR.  A partition of the reply, listed or maxlag, has status
    OK, WARN, STOP, STALL or REWIND; STOP, STALL and REWIND come only
    with a group ERR, WARN only with a group WARN or ERR.  Without
    [showall] only partitions that are not OK are listed, so an OK group
    lists none. *)
Theorem X18_reply_statuses storage c g showall now storage' status :
  evaluateGroup storage c g showall now = Ok (storage', status) →
  (cgs_Status status = StatusNotFound ∨ groupStatus (cgs_Status status))
  ∧ Forall (λ p, consistentStatus (cgs_Status status) (ps_Status p))
      (cgs_Partitions status)
  ∧ (∀ p, cgs_Maxlag status = Some p →
          consistentStatus (cgs_Status status) (ps_Status p))
  ∧ (showall = false →
     Forall (λ p, ps_Status p ≠ StatusOK) (cgs_Partitions status)
     ∧ (cgs_Status status = StatusOK → cgs_Partitions status = [])).
Proof.
  intros He.
  apply evaluateGroup_reply in He
    as [(Hg & -> & ->)
       |[(n & complete & Hg & Hg' & ->)|(n & st & Hg & Hg' & -> & Hinv)]].
  - split; [by left|]. split; [by constructor|]. split; [done|].
    intros _. split; [by constructor|done].
  - split; [by left|]. split; [by constructor|]. split; [done|].
    intros _. split; [by constructor|done].
  - destruct Hinv as (Hstatus & Hheap & Hlist & Hmax).
    assert (Hboth : Forall (λ p, consistentStatus (es_Status st) (ps_Status p)
                                 ∧ (showall = false → ps_Status p ≠ StatusOK))
                      (cgs_Partitions (render c g n st))).
    { apply render_partitions.
      eapply Forall_impl; [exact Hlist|]. intros i (p & Hp & Hok).
      exists p. split; [done|]. split; [|done].
      rewrite Forall_forall in Hheap. apply Hheap.
      apply list_elem_of_lookup. by exists i. }
    split; [by right|]. split; [|split].
    + eapply Forall_impl; [exact Hboth|]. by intros p [? _].
    + simpl. intros p. destruct (es_Maxlag st) as [i|]; simpl; [|done].
      intros Hp. rewrite Forall_forall in Hheap. apply Hheap.
      apply list_elem_of_lookup. by exists i.
    + intros Hs.
      assert (Hnok : Forall (λ p, ps_Status p ≠ StatusOK)
                       (cgs_Partitions (render c g n st))).
      { eapply Forall_impl; [exact Hboth|]. intros p [_ Hp]. by apply Hp. }
      split; [done|]. intros Hok.
      destruct (cgs_Partitions (render c g n st)) as [|p l] eqn:Hl; [done|].
      apply Forall_cons in Hboth as [[Hcons _] _].
      apply Forall_cons in Hnok as [Hp _].
      simpl in Hok. rewrite Hok in Hcons.
      destruct (ps_Status p); simpl in Hcons; try done;
        by destruct Hcons.
Qed.

Lemma X18_witness :
  Forall (λ p, consistentStatus StatusError (ps_Status p))
    (cgs_Partitions
       (evaluated (storageAfter storage0 rewindUnderGrowingLag)
          "local" "G" false 10).2).
Proof.
  refine (proj1 (proj2 (X18_reply_statuses
                          (storageAfter storage0 rewindUnderGrowingLag)
                          "local" "G" false 10
                          (evaluated
                             (storageAfter storage0 rewindUnderGrowingLag)
                             "local" "G" false 10).1
                          (evaluated
                             (storageAfter storage0 rewindUnderGrowingLag)
                             "local" "G" false 10).2 _))).
  vm_compute. reflexivity.
Defined.

(** ** Completeness and the partition count *)

Lemma snapshotPartition_not_skipped lc now bl p o y o' arr y' :
  snapshotPartition lc now bl p o y = Ok (o', arr, false, y') →
  ∃ r v, o = Some r ∧ ringValue r = Some v.
Proof.
  unfold snapshotPartition. destruct o as [r|]; [|done].
  destruct (ringValue r) as [v|] eqn:Hv; [|done]. intros _. by exists r, v.
Qed.

Lemma snapshotTopic_count lc now bl p partitions acc partitions' arrs acc' :
  snapshotTopic lc now bl p partitions acc = Ok (partitions', arrs, acc') →
  sa_TotalPartitions acc'
  = sa_TotalPartitions acc + Z.of_nat (length partitions)
  ∧ (sa_Complete acc' = true →
     sa_Complete acc = true
     ∧ ∀ (q : nat) o, partitions !! q = Some o →
         ∃ r v, o = Some r ∧ ringValue r = Some v).
Proof.
  revert p acc partitions' arrs acc'.
  induction partitions as [|o rest IH]; intros p acc partitions' arrs acc';
    simpl.
  - intros [= _ _ <-]. split; [lia|]. intros Hc. split; [done|].
    by intros q o.
  - destruct (snapshotPartition _ _ _ _ _ _) as [[[[o' arr] sk] y']|] eqn:Hp;
      simpl; [|done].
    destruct (snapshotTopic _ _ _ _ _ _) as [[[rest' arrs'] acc'']|] eqn:Ht;
      simpl; [|done].
    intros [= _ _ <-]. destruct (IH _ _ _ _ _ Ht) as [Hcount Hcomp].
    simpl in *. split; [lia|]. intros Hc.
    destruct (Hcomp Hc) as [Hsk Hrest]. destruct sk; [done|].
    split; [done|]. intros [|q] o0; simpl; [|by apply Hrest].
    intros [= <-]. by eapply snapshotPartition_not_skipped.
Qed.

Lemma snapshotGroup_count lc now bm topics acc topics' offsetList acc' :
  snapshotGroup lc now bm topics acc = Ok (topics', offsetList, acc') →
  sa_TotalPartitions acc'
  = sa_TotalPartitions acc
    + Z.of_nat (sum_list_with
                  (λ tp : string * list (option Ring), length tp.2) topics)
  ∧ (sa_Complete acc' = true →
     sa_Complete acc = true
     ∧ ∀ t sl (q : nat) o, (t, sl) ∈ topics → sl !! q = Some o →
         ∃ r v, o = Some r ∧ ringValue r = Some v).
Proof.
  revert acc topics' offsetList acc'.
  induction topics as [|[t sl] rest IH]; intros acc topics' offsetList acc';
    simpl.
  - intros [= _ _ <-]. split; [lia|]. intros Hc. split; [done|].
    intros t sl q o Hin. by apply elem_of_nil in Hin.
  - destruct (snapshotTopic _ _ _ _ _ _) as [[[sl' arrs] acc1]|] eqn:Ht;
      simpl; [|done].
    destruct (snapshotGroup _ _ _ _ _) as [[[rest' ol] acc2]|] eqn:Hg;
      simpl; [|done].
    intros [= _ _ <-].
    destruct (snapshotTopic_count _ _ _ _ _ _ _ _ _ Ht) as [Hc1 Hcomp1].
    destruct (IH _ _ _ _ Hg) as [Hc2 Hcomp2].
    split; [lia|]. intros Hc.
    destruct (Hcomp2 Hc) as [Hacc1 Hrest].
    destruct (Hcomp1 Hacc1) as [Hacc Hsl].
    split; [done|]. intros t0 sl0 q o [[= -> ->]|Hin]%elem_of_cons.
    + apply Hsl.
    + intros Hq. by eapply Hrest.
Qed.

(** The rules only ever clear the completeness flag. *)
Lemma rules123_complete showall i offsets firstOffset lastOffset st :
  es_Complete (rules123 showall i offsets firstOffset lastOffset st)
  = es_Complete st.
Proof.
  unfold rules123, addIfShowall, addIfNotOK.
  repeat (match goal with
          | |- context [if ?b then _ else _] => destruct b
          end; simpl); done.
Qed.

Lemma evaluatePartition_complete showall now topic partition offsets st :
  es_Complete (evaluatePartition showall now topic partition offsets st)
  = true →
  es_Complete st = true.
Proof.
  unfold evaluatePartition.
  destruct offsets as [|firstOffset others]; [done|].
  generalize (List.last (firstOffset :: others) firstOffset).
  intros lastOffset.
  destruct (co_Lag firstOffset =? -1); [done|].
  destruct (newPart _ st) as [thispart st1] eqn:Hnew.
  assert (Hst1 : es_Complete st1 = es_Complete st).
  { unfold newPart in Hnew. by injection Hnew as <- <-. }
  destruct (_ <? _); [simpl; congruence|].
  rewrite rules123_complete.
  pose proof (rule6_inv true thispart firstOffset others
                (trackLag thispart lastOffset st1)) as Hr6.
  assert (Hgen : ∀ rest prev s,
            es_Complete (rule6 thispart prev rest s) = es_Complete s).
  { clear. induction rest as [|cur rest IH]; intros prev s; simpl; [done|].
    rewrite IH. by destruct (_ <? _). }
  rewrite Hgen. simpl. congruence.
Qed.

Lemma evaluateTopic_complete showall now topic partition partitions st :
  es_Complete (evaluateTopic showall now topic partition partitions st)
  = true →
  es_Complete st = true.
Proof.
  revert partition st.
  induction partitions as [|offsets rest IH]; intros partition st; simpl;
    [done|].
  intros H%IH. by eapply evaluatePartition_complete.
Qed.

Lemma evaluateTopics_complete showall now offsetList st :
  es_Complete (evaluateTopics showall now offsetList st) = true →
  es_Complete st = true.
Proof.
  unfold evaluateTopics. revert st.
  induction offsetList as [|[t arrs] rest IH]; intros st; simpl; [done|].
  intros H%IH. by eapply evaluateTopic_complete.
Qed.

(** X19: the reply of an evaluation of a stored group counts every
    partition slot of the group, written or not, and it is marked
    complete only if every slot holds a ring whose cursor slot is
    written, that is, a ring that has been filled. *)
Theorem X19_partition_count_and_complete storage c g cm showall now storage'
    status :
  groupAt storage c g = Some cm →
  evaluateGroup storage c g showall now = Ok (storage', status) →
  cgs_TotalPartitions status = Z.of_nat (groupSlots cm)
  ∧ (cgs_Complete status = true →
     ∀ t sl (q : nat) o, cm !! t = Some sl → sl !! q = Some o →
       ∃ r v, o = Some r ∧ ringValue r = Some v).
Proof.
  unfold groupAt, evaluateGroup.
  destruct (offsets storage !! c) as [cl|] eqn:Hc; simpl; [|done].
  intros ->.
  destruct (snapshotGroup _ _ _ _ _) as [[[topics' ol] acc]|] eqn:Hs;
    simpl; [|done].
  apply snapshotGroup_count in Hs as [Hcount Hcomp]. simpl in Hcount.
  assert (Hall : sa_Complete acc = true →
    ∀ t sl (q : nat) o, cm !! t = Some sl → sl !! q = Some o →
      ∃ r v, o = Some r ∧ ringValue r = Some v).
  { intros Hacc t sl q o Ht. destruct (Hcomp Hacc) as [_ Hsl].
    apply (Hsl t). by apply elem_of_map_to_list. }
  destruct (expired _ _ _); intros [= _ <-]; simpl.
  - split; [done|]. apply Hall.
  - split; [done|]. intros Hc'%evaluateTopics_complete. by apply Hall.
Qed.

Lemma X19_witness :
  cgs_TotalPartitions
    (evaluated (storageAfter storage0 twoCommits) "local" "G" true 2).2
  = 1.
Proof.
  destruct (X19_partition_count_and_complete
              (storageAfter storage0 twoCommits) "local" "G"
              {[ "T"%string :=
                   [Some [None; None; None;
                          Some (ringEntry 100 1100 0 false);
                          Some (ringEntry 110 1200 0 false)]] ]}
              true 2
              (evaluated (storageAfter storage0 twoCommits)
                 "local" "G" true 2).1
              (evaluated (storageAfter storage0 twoCommits)
                 "local" "G" true 2).2) as [Hcount _].
  - vm_compute. reflexivity.
  - vm_compute. reflexivity.
  - rewrite Hcount. vm_compute. reflexivity.
Defined.

(** ** The queries *)

(** X20: in a reachable storage the offsets query for a stored topic of a
    group raises no error and answers with as many partitions as the
    broker query for the topic.  A partition without a ring is answered
    -1, and a partition with a ring is answered the offset of the latest
    entry of the ring: a stored ring is never answered -1 for want of a
    last entry. *)
Theorem X20_offsets_query lc clusters gbl tbl storage c g t sl :
  reachable (NewOffsetStorage lc clusters gbl tbl) storage →
  g ≠ EmptyString →
  sliceAt storage c g t = Some sl →
  ro_ErrorGroup (requestOffsets storage c t g) = false
  ∧ ro_ErrorTopic (requestOffsets storage c t g) = false
  ∧ ro_ErrorTopic (requestOffsets storage c t EmptyString) = false
  ∧ length (ro_OffsetList (requestOffsets storage c t g))
    = length (ro_OffsetList (requestOffsets storage c t EmptyString))
  ∧ ∀ q : nat,
      match sl !! q with
      | None => ro_OffsetList (requestOffsets storage c t g) !! q = None
      | Some None =>
          ro_OffsetList (requestOffsets storage c t g) !! q = Some (-1)
      | Some (Some r) =>
          ∃ v, last r = Some (Some v)
               ∧ ro_OffsetList (requestOffsets storage c t g) !! q
                 = Some (co_Offset v)
      end.
Proof.
  intros Hreach Hg Hsl.
  pose proof (reachable_storageInv _ _ _ _ _ Hreach) as Hinv.
  pose proof (reachable_sliceInv _ _ _ _ _ Hreach) as Hsinv.
  destruct (Hsinv _ _ _ _ Hsl) as (l & Hl & Hlen).
  assert (Hring : ∀ (q : nat) r, sl !! q = Some (Some r) →
                    ringAt storage c g t q = Some r).
  { intros q r Hq. rewrite ringAt_sliceAt, Hsl. simpl. by rewrite Hq. }
  unfold sliceAt in Hsl. unfold brokerList in Hl. unfold requestOffsets.
  destruct (offsets storage !! c) as [cl|] eqn:Hc; simpl in *; [|done].
  destruct (consumer cl !! g) as [cm|] eqn:Hgm; simpl in *; [|done].
  apply String.eqb_neq in Hg. rewrite Hg, Hsl, Hl. simpl.
  rewrite !length_fmap.
  split; [done|]. split; [done|]. split; [done|]. split; [done|].
  intros q. rewrite list_lookup_fmap.
  destruct (sl !! q) as [[r|]|] eqn:Hq; simpl; [|done|done].
  destruct (Hinv _ _ _ _ _ (Hring _ _ Hq))
    as (_ & (k & vals & -> & Hne & _) & _).
  destruct (last vals) as [v|] eqn:Hv; [|by apply last_None in Hv].
  assert (Hlast : last (replicate k None ++ (Some <$> vals)) = Some (Some v)).
  { rewrite last_app, fmap_last, Hv. done. }
  exists v. split; [done|]. unfold ringPrevValue. by rewrite Hlast.
Qed.

Lemma X20_witness :
  ro_OffsetList
    (requestOffsets (storageAfter storage0 twoCommits) "local" "T" "G")
  !! 0%nat
  = Some 110.
Proof.
  assert (Hreach : reachable storage0 (storageAfter storage0 twoCommits)).
  { apply storageAfter_reachable; [solve_wfEvents|].
    eexists. vm_compute. reflexivity. }
  destruct (X20_offsets_query lagcheck5 ["local"%string] None None
              (storageAfter storage0 twoCommits) "local" "G" "T"
              [Some [None; None; None;
                     Some (ringEntry 100 1100 0 false);
                     Some (ringEntry 110 1200 0 false)]]
              Hreach) as (_ & _ & _ & _ & Hq).
  - done.
  - vm_compute. reflexivity.
  - destruct (Hq 0%nat) as (v & Hv & ->). simpl in Hv.
    injection Hv as <-. reflexivity.
Defined.

(** X21: the topic list query and the offsets query raise the same
    errors.  The offsets query flags the group exactly when the topic
    list query for the group fails, which is when the cluster is not
    configured or a named group is not listed; both answers are then
    empty.  When the topic list query succeeds, the offsets query flags
    the topic exactly when the topic is not in that list, and a flagged
    topic comes with no offsets. *)
Theorem X21_query_errors_agree storage c t g :
  ro_ErrorGroup (requestOffsets storage c t g)
  = rtl_Error (requestTopicList storage c g)
  ∧ (rtl_Error (requestTopicList storage c g) = true ↔
     c ∉ requestClusterList storage
     ∨ (g ≠ EmptyString ∧ g ∉ requestConsumerList storage c))
  ∧ (rtl_Error (requestTopicList storage c g) = true →
     rtl_TopicList (requestTopicList storage c g) = []
     ∧ ro_OffsetList (requestOffsets storage c t g) = [])
  ∧ (rtl_Error (requestTopicList storage c g) = false →
     (ro_ErrorTopic (requestOffsets storage c t g) = true ↔
      t ∉ rtl_TopicList (requestTopicList storage c g)))
  ∧ (ro_ErrorTopic (requestOffsets storage c t g) = true →
     ro_OffsetList (requestOffsets storage c t g) = []).
Proof.
  assert (Hkeys : ∀ (A : Type) (m : gmap string A) k,
            k ∉ (map_to_list m).*1 ↔ m !! k = None).
  { intros A m k. rewrite <- not_elem_of_dom, elem_of_dom.
    split; intros Hk Hin; apply Hk.
    - destruct Hin as [x Hx]. apply list_elem_of_fmap. exists (k, x).
      split; [done|]. by apply elem_of_map_to_list.
    - apply list_elem_of_fmap in Hin as ([k' x] & -> & Hx).
      apply elem_of_map_to_list in Hx. by exists x. }
  pose proof (elem_of_requestClusterList storage c) as Hcl.
  rewrite elem_of_dom in Hcl.
  pose proof (elem_of_requestConsumerList storage c g) as Hgl.
  unfold requestOffsets, requestTopicList, groupAt in *.
  destruct (offsets storage !! c) as [cl|] eqn:Hc; simpl in *.
  - assert (Hin : c ∈ requestClusterList storage) by (apply Hcl; by eexists).
    destruct (String.eqb_spec g EmptyString) as [->|Hg]; simpl.
    + split; [by destruct (broker cl !! t)|].
      split; [split; [done|intros [?|[? _]]; done]|].
      split; [done|]. split.
      * intros _. rewrite Hkeys. by destruct (broker cl !! t).
      * by destruct (broker cl !! t).
    + destruct (consumer cl !! g) as [cm|] eqn:Hgm; simpl.
      * split; [by destruct (cm !! t)|].
        split; [split; [done|]|].
        { intros [?|[_ Hn]]; [done|]. exfalso. apply Hn, Hgl. by eexists. }
        split; [done|]. split.
        -- intros _. rewrite Hkeys. by destruct (cm !! t).
        -- by destruct (cm !! t).
      * split; [done|]. split.
        { split; [|done]. intros _. right. split; [done|].
          rewrite Hgl. by intros [? ?]. }
        split; [done|]. split; [done|]. done.
  - split; [done|]. split.
    { split; [|done]. intros _. left. rewrite Hcl. by intros [? ?]. }
    split; [done|]. split; [done|]. done.
Qed.

(** ** The partition with the largest lag *)

Lemma maxlagInv_view st st' :
  lagView st' = lagView st → maxlagInv st → maxlagInv st'.
Proof.
  unfold lagView, maxlagInv. intros [= Hh Hm Hl]. by rewrite Hh, Hm, Hl.
Qed.

Lemma lagView_setPartStatus i c st :
  lagView (setPartStatus i c st) = lagView st.
Proof.
  unfold lagView, setPartStatus. simpl. f_equal. f_equal.
  rewrite (list_fmap_alter ps_End (withStatus c) id)
    by (apply Forall_forall; by intros [] _).
  by apply list_alter_id.
Qed.

Lemma lagView_rule6 i prev rest st :
  lagView (rule6 i prev rest st) = lagView st.
Proof.
  revert prev st. induction rest as [|cur rest IH]; intros prev st; simpl;
    [done|].
  rewrite IH. destruct (_ <? _); [|done].
  unfold appendPartition. etrans; [|apply (lagView_setPartStatus i StatusRewind)].
  done.
Qed.

Lemma lagView_rules123 showall i offsets firstOffset lastOffset st :
  lagView (rules123 showall i offsets firstOffset lastOffset st) = lagView st.
Proof.
  assert (Hs : ∀ s, lagView (addIfShowall showall i s) = lagView s).
  { intros s. unfold addIfShowall. by destruct showall. }
  assert (Hn : ∀ s, lagView (addIfNotOK showall i s) = lagView s).
  { intros s. unfold addIfNotOK. by destruct (_ || _). }
  unfold rules123.
  repeat (match goal with
          | |- context [if ?b then _ else _] =>
              lazymatch b with
              | isOK _ => fail
              | _ => destruct b
              end
          end);
    rewrite ?Hs, ?Hn, ?lagView_setPartStatus; try done.
  by destruct (isOK _).
Qed.

Lemma maxlagInv_evaluatePartition showall now topic partition offsets st :
  maxlagInv st →
  maxlagInv (evaluatePartition showall now topic partition offsets st).
Proof.
  intros Hinv. unfold evaluatePartition.
  destruct offsets as [|firstOffset others]; [done|].
  generalize (List.last (firstOffset :: others) firstOffset).
  intros lastOffset.
  destruct (co_Lag firstOffset =? -1); [done|].
  unfold newPart.
  set (p := {| ps_Topic := topic;
               ps_Partition := wrap32 (Z.of_nat partition);
               ps_Status := StatusOK; ps_Start := firstOffset;
               ps_End := lastOffset |}).
  set (st1 := trackLag (length (es_heap st)) lastOffset _).
  assert (Hst1 : maxlagInv st1).
  { destruct Hinv as [Hall Hmax]. unfold maxlagInv, st1. simpl.
    rewrite fmap_app. simpl.
    destruct (Z.ltb_spec (es_maxlag st) (co_Lag lastOffset)) as [Hlt|Hge].
    - split.
      + apply Forall_app. split; [|by repeat constructor].
        eapply Forall_impl; [exact Hall|]. simpl. intros e ?. lia.
      + exists lastOffset. split.
        * rewrite lookup_app_r by (rewrite length_fmap; lia).
          by rewrite length_fmap, Nat.sub_diag.
        * split; [done|]. destruct (es_Maxlag st); [|lia].
          destruct Hmax as (? & _ & _ & ?). lia.
    - split.
      + apply Forall_app. split; [done|]. by repeat constructor.
      + destruct (es_Maxlag st) as [i|]; [|done].
        destruct Hmax as (e & He & Hlag & Hpos). exists e.
        split; [|done]. by apply lookup_app_l_Some. }
  destruct (_ <? _).
  - eapply maxlagInv_view; [|exact Hst1].
    etrans; [apply (lagView_setPartStatus _ StatusStop)|done].
  - eapply maxlagInv_view; [|exact Hst1].
    by rewrite lagView_rules123, lagView_rule6.
Qed.

Lemma maxlagInv_evaluateTopic showall now topic partition partitions st :
  maxlagInv st →
  maxlagInv (evaluateTopic showall now topic partition partitions st).
Proof.
  revert partition st.
  induction partitions as [|offsets rest IH]; intros partition st Hinv;
    simpl; [done|].
  apply IH. by apply maxlagInv_evaluatePartition.
Qed.

Lemma maxlagInv_evaluateTopics showall now offsetList st :
  maxlagInv st →
  maxlagInv (evaluateTopics showall now offsetList st).
Proof.
  unfold evaluateTopics. revert st.
  induction offsetList as [|[t arrs] rest IH]; intros st Hinv; simpl;
    [done|].
  apply IH. by apply maxlagInv_evaluateTopic.
Qed.

Lemma maxlagInv_render c g n st :
  maxlagInv st →
  match cgs_Maxlag (render c g n st) with
  | Some m =>
      0 < co_Lag (ps_End m)
      ∧ Forall (λ p, co_Lag (ps_End p) <= co_Lag (ps_End m))
          (cgs_Partitions (render c g n st))
  | None =>
      Forall (λ p, co_Lag (ps_End p) <= 0) (cgs_Partitions (render c g n st))
  end.
Proof.
  intros [Hall Hmax]. simpl.
  assert (Hle : Forall (λ p, co_Lag (ps_End p) <= es_maxlag st)
                  (omap (λ p, es_heap st !! p) (es_Partitions st))).
  { apply Forall_forall. intros p (i & _ & Hp)%list_elem_of_omap.
    rewrite Forall_fmap in Hall.
    by apply (Forall_lookup_1 _ _ _ _ Hall Hp). }
  destruct (es_Maxlag st) as [i|]; simpl.
  - destruct Hmax as (e & He & Hlag & Hpos).
    rewrite list_lookup_fmap in He.
    destruct (es_heap st !! i) as [m|]; simpl in *; [|done].
    injection He as <-. split; [lia|]. by rewrite Hlag.
  - by rewrite <- Hmax.
Qed.

(** X22: the partition a reply names as the one with the largest lag has
    a positive last lag, and no partition listed in the reply has a larger
    one.  A reply that names none lists no partition with a positive last
    lag. *)
Theorem X22_maxlag_is_largest storage c g showall now storage' status :
  evaluateGroup storage c g showall now = Ok (storage', status) →
  match cgs_Maxlag status with
  | Some m =>
      0 < co_Lag (ps_End m)
      ∧ Forall (λ p, co_Lag (ps_End p) <= co_Lag (ps_End m))
          (cgs_Partitions status)
  | None => Forall (λ p, co_Lag (ps_End p) <= 0) (cgs_Partitions status)
  end.
Proof.
  assert (Hstart : ∀ complete status0,
            maxlagInv (setStatus status0
                         (setComplete complete
                            (setStatus StatusOK initialStatus)))).
  { intros complete status0. split; [constructor|done]. }
  unfold evaluateGroup.
  destruct (offsets storage !! c) as [cl|] eqn:Hc; simpl;
    [|intros [= _ <-]; by constructor].
  destruct (consumer cl !! g) as [cm|] eqn:Hg;
    [|intros [= _ <-]; by constructor].
  destruct (snapshotGroup _ _ _ _ _) as [[[topics' ol] acc]|] eqn:Hs;
    simpl; [|done].
  destruct (expired _ _ _); intros [= _ <-].
  - by constructor.
  - apply maxlagInv_render, maxlagInv_evaluateTopics.
    split; [constructor|done].
Qed.

Lemma X22_witness :
  let reply := (evaluated (storageAfter storage0 rewindUnderGrowingLag)
                  "local" "G" true 10).2 in
  match cgs_Maxlag reply with
  | Some m =>
      0 < co_Lag (ps_End m)
      ∧ Forall (λ p, co_Lag (ps_End p) <= co_Lag (ps_End m))
          (cgs_Partitions reply)
  | None => Forall (λ p, co_Lag (ps_End p) <= 0) (cgs_Partitions reply)
  end.
Proof.
  intros reply.
  refine (X22_maxlag_is_largest
            (storageAfter storage0 rewindUnderGrowingLag)
            "local" "G" true 10
            (evaluated (storageAfter storage0 rewindUnderGrowingLag)
               "local" "G" true 10).1 reply _).
  vm_compute. reflexivity.
Defined.

(** ** Expiry *)

Lemma youngestOf_le y vals : y <= youngestOf y vals.
Proof.
  unfold youngestOf. revert y.
  induction vals as [|v vals IH]; intros y; simpl; [lia|].
  etrans; [|apply IH]. destruct (Z.ltb_spec y (co_Timestamp v)); lia.
Qed.

Lemma youngestOf_elem y vals v :
  v ∈ vals → co_Timestamp v <= youngestOf y vals.
Proof.
  revert y. induction vals as [|w vals IH]; intros y Hin;
    [by apply elem_of_nil in Hin|].
  apply elem_of_cons in Hin as [->|Hin].
  - change (youngestOf y (w :: vals))
      with (youngestOf (if y <? co_Timestamp w then co_Timestamp w else y)
              vals).
    etrans; [|apply youngestOf_le].
    destruct (Z.ltb_spec y (co_Timestamp w)); lia.
  - by apply IH.
Qed.

Lemma ringValues_Ok r vals : ringValues r = Ok vals → r = Some <$> vals.
Proof.
  revert vals. induction r as [|[v|] r IH]; intros vals; simpl.
  - by intros [= <-].
  - destruct (ringValues r) as [vs|]; simpl; [|done].
    intros [= <-]. csimpl. by rewrite (IH vs).
  - done.
Qed.

Lemma snapshotPartition_youngest lc now bl p o y o' arr skipped y' :
  snapshotPartition lc now bl p o y = Ok (o', arr, skipped, y') →
  y <= y'.
Proof.
  unfold snapshotPartition.
  destruct o as [r|]; [|intros [= _ _ _ <-]; lia].
  destruct (ringValue r); [|intros [= _ _ _ <-]; lia].
  destruct (ringPrevValue r); [|done].
  destruct (index _ _) as [[b|]|]; simpl; [|done|done].
  destruct (ringValues _) as [vals|]; simpl; [|done].
  destruct (partitionMapOf _ _); simpl; [|done].
  intros [= _ _ _ <-]. apply youngestOf_le.
Qed.

(** A caught-up partition brings [youngestOffset] up to the time of the
    evaluation. *)
Lemma snapshotPartition_caught_up lc now bl (p : nat) r y o' arr skipped y'
    lastOffset b :
  snapshotPartition lc now bl p (Some r) y = Ok (o', arr, skipped, y') →
  is_Some (ringValue r) →
  ringPrevValue r = Some lastOffset →
  (bl !! p) ≫= id = Some b →
  bo_Offset b <= co_Offset lastOffset →
  wrap64 (now * 1000) <= y'.
Proof.
  unfold snapshotPartition. intros He [v Hv] Hlast Hb Hle.
  rewrite Hv, Hlast in He. rewrite index_nonneg in He by lia.
  rewrite Nat2Z.id in He.
  destruct (bl !! p) as [[b0|]|]; simpl in *; [|done|done].
  injection Hb as ->.
  destruct (Z.leb_spec (bo_Offset b) (co_Offset lastOffset)); [|lia].
  rewrite ringNext_setValue in He by by destruct r.
  destruct (ringValues _) as [vals|] eqn:Hvals; simpl in He; [|done].
  destruct (partitionMapOf _ _); simpl in He; [|done].
  injection He as _ _ _ <-.
  apply ringValues_Ok in Hvals.
  apply (youngestOf_elem y vals (artificialEntry now lastOffset)).
  assert (Hin : Some (artificialEntry now lastOffset) ∈ Some <$> vals).
  { rewrite <- Hvals. apply elem_of_app. right. by apply list_elem_of_singleton. }
  apply list_elem_of_fmap in Hin as (w & [= ->] & Hw). done.
Qed.

Lemma snapshotTopic_youngest lc now bl p partitions acc partitions' arrs acc' :
  snapshotTopic lc now bl p partitions acc = Ok (partitions', arrs, acc') →
  sa_youngestOffset acc <= sa_youngestOffset acc'
  ∧ ∀ (q : nat) r lastOffset b,
      partitions !! q = Some (Some r) →
      is_Some (ringValue r) →
      ringPrevValue r = Some lastOffset →
      (bl !! (p + q)%nat) ≫= id = Some b →
      bo_Offset b <= co_Offset lastOffset →
      wrap64 (now * 1000) <= sa_youngestOffset acc'.
Proof.
  revert p acc partitions' arrs acc'.
  induction partitions as [|o rest IH]; intros p acc partitions' arrs acc';
    simpl.
  - intros [= _ _ <-]. split; [lia|]. by intros q r lastOffset b.
  - destruct (snapshotPartition _ _ _ _ _ _) as [[[[o' arr] sk] y']|] eqn:Hp;
      simpl; [|done].
    destruct (snapshotTopic _ _ _ _ _ _) as [[[rest' arrs'] acc'']|] eqn:Ht;
      simpl; [|done].
    intros [= _ _ <-]. destruct (IH _ _ _ _ _ Ht) as [Hle Hrest].
    simpl in Hle. pose proof (snapshotPartition_youngest _ _ _ _ _ _ _ _ _ _ Hp).
    split; [lia|]. intros [|q] r lastOffset b Hq Hv Hlast Hb Hcaught.
    + simpl in Hq. injection Hq as ->. rewrite Nat.add_0_r in Hb.
      pose proof (snapshotPartition_caught_up _ _ _ _ _ _ _ _ _ _ _ _
                    Hp Hv Hlast Hb Hcaught). lia.
    + simpl in Hq. eapply (Hrest q); [done|done|done| |done].
      by replace (S p + q)%nat with (p + S q)%nat by lia.
Qed.

Lemma snapshotGroup_youngest lc now bm topics acc topics' offsetList acc' :
  snapshotGroup lc now bm topics acc = Ok (topics', offsetList, acc') →
  sa_youngestOffset acc <= sa_youngestOffset acc'
  ∧ ∀ t sl (q : nat) r lastOffset b,
      (t, sl) ∈ topics →
      sl !! q = Some (Some r) →
      is_Some (ringValue r) →
      ringPrevValue r = Some lastOffset →
      entryAt bm t q = Some b →
      bo_Offset b <= co_Offset lastOffset →
      wrap64 (now * 1000) <= sa_youngestOffset acc'.
Proof.
  revert acc topics' offsetList acc'.
  induction topics as [|[t sl] rest IH]; intros acc topics' offsetList acc';
    simpl.
  - intros [= _ _ <-]. split; [lia|].
    intros t sl q r lastOffset b Hin. by apply elem_of_nil in Hin.
  - destruct (snapshotTopic _ _ _ _ _ _) as [[[sl' arrs] acc1]|] eqn:Ht;
      simpl; [|done].
    destruct (snapshotGroup _ _ _ _ _) as [[[rest' ol] acc2]|] eqn:Hg;
      simpl; [|done].
    intros [= _ _ <-].
    destruct (snapshotTopic_youngest _ _ _ _ _ _ _ _ _ Ht) as [Hle1 Hhere].
    destruct (IH _ _ _ _ Hg) as [Hle2 Hrest].
    split; [lia|].
    intros t0 sl0 q r lastOffset b [[= -> ->]|Hin]%elem_of_cons
      Hq Hv Hlast Hb Hcaught.
    + etrans; [|exact Hle2]. eapply (Hhere q); [done|done|done| |done].
      unfold entryAt in Hb. simpl.
      destruct (bm !! t) as [l|]; simpl in *; [done|done].
    + by eapply Hrest.
Qed.

(** X23: an evaluation does not expire a group that has a caught-up
    partition, that is, a full ring whose last offset the broker offset
    has not passed: the artificial commit injected for that partition
    carries the time of the evaluation.  The reply is then not NOTFOUND
    and the group is still listed, however old its commits are.  The
    time of the evaluation is taken positive, at least the expiry window
    and small enough for its milliseconds to fit an int64. *)
Theorem X23_caught_up_group_is_not_expired storage c g t (q : nat) r
    lastOffset b showall now storage' status :
  evaluateGroup storage c g showall now = Ok (storage', status) →
  ringAt storage c g t q = Some r →
  is_Some (ringValue r) →
  ringPrevValue r = Some lastOffset →
  brokerAt storage c t q = Some b →
  bo_Offset b <= co_Offset lastOffset →
  0 <= ExpireGroup (lagcheck storage) <= now →
  now * 1000 < 2 ^ 63 →
  cgs_Status status ≠ StatusNotFound
  ∧ g ∈ requestConsumerList storage' c.
Proof.
  intros He Hr Hv Hlast Hb Hcaught Hexp Hnow.
  apply ringAt_inv in Hr as (cl & cm & sl & Hc & Hg & Ht & Hq).
  unfold brokerAt in Hb. rewrite Hc in Hb. simpl in Hb.
  unfold evaluateGroup in He. rewrite Hc, Hg in He.
  destruct (snapshotGroup _ _ _ _ _) as [[[topics' ol] acc]|] eqn:Hs;
    simpl in He; [|done].
  apply snapshotGroup_youngest in Hs as [_ Hy].
  assert (Hyoung : now * 1000 <= sa_youngestOffset acc).
  { rewrite <- (wrap64_id (now * 1000)) by (unfold int64_range; lia).
    eapply (Hy t sl q); [|done|done|done|done|done].
    by apply elem_of_map_to_list. }
  assert (Hnot : expired (lagcheck storage) now (sa_youngestOffset acc)
                 = false).
  { unfold expired.
    rewrite (wrap64_id (now - _)) by (unfold int64_range; lia).
    rewrite wrap64_id by (unfold int64_range; nia).
    apply andb_false_iff. right. apply Z.ltb_ge. nia. }
  rewrite Hnot in He. injection He as <- <-. split.
  - pose proof (evalInv_start (sa_Complete acc)) as [_ Hstart].
    assert (Hinv : ∀ sa, evalInv sa
              (setComplete (sa_Complete acc)
                 (setStatus StatusOK initialStatus))).
    { intros []; apply evalInv_start. }
    destruct (evaluateTopics_inv showall now
                (map_to_list (list_to_map ol
                   : gmap string (list (list ConsumerOffset))))
                _ (Hinv showall)) as [Hst _].
    simpl. intros Heq. rewrite Heq in Hst. by destruct Hst as [|[|]].
  - apply elem_of_requestConsumerList. unfold groupAt. simpl.
    rewrite lookup_insert_eq. simpl. rewrite lookup_insert_eq. by eexists.
Qed.

Lemma X23_witness :
  cgs_Status
    (evaluated (storageAfter storageSlow fiveSlowCommits)
       "local" "G" false 700000).2
  ≠ StatusNotFound.
Proof.
  refine (proj1 (X23_caught_up_group_is_not_expired
                   (storageAfter storageSlow fiveSlowCommits)
                   "local" "G" "T" 0%nat
                   [Some (ringEntry 100 10000 0 false);
                    Some (ringEntry 110 20000 0 false);
                    Some (ringEntry 120 30000 0 false);
                    Some (ringEntry 130 40000 0 false);
                    Some (ringEntry 140 50000 0 false)]
                   (ringEntry 140 50000 0 false)
                   {| bo_Offset := 100; bo_Timestamp := 1000 |}
                   false 700000
                   (evaluated (storageAfter storageSlow fiveSlowCommits)
                      "local" "G" false 700000).1
                   (evaluated (storageAfter storageSlow fiveSlowCommits)
                      "local" "G" false 700000).2
                   _ _ _ _ _ _ _ _)).
  - vm_compute. reflexivity.
  - vm_compute. reflexivity.
  - eexists. reflexivity.
  - reflexivity.
  - vm_compute. reflexivity.
  - simpl. lia.
  - split; vm_compute; discriminate.
  - lia.
Defined.

(** ** The wire names of the statuses *)

(** X24: the seven status constants are written as seven different
    names, so that a reader of a reply can tell them apart, and none of
    them is written UNKNOWN: UNKNOWN is the name of exactly the integers
    that are no status constant. *)
Theorem X24_status_names :
  (∀ c, StatusConstant_String (statusCode c) = StatusString c)
  ∧ (∀ a b, StatusString a = StatusString b → a = b)
  ∧ (∀ z, StatusConstant_String z = "UNKNOWN"%string
          ↔ ∀ c, z ≠ statusCode c).
Proof.
  split; [by intros []|]. split; [by intros [] []|].
  intros z. unfold StatusConstant_String. simpl length.
  change (Z.of_nat 7) with 7.
  destruct (Z.leb_spec 0 z); simpl.
  - destruct (Z.ltb_spec z 7).
    + assert (Hz : z = 0 ∨ z = 1 ∨ z = 2 ∨ z = 3 ∨ z = 4 ∨ z = 5 ∨ z = 6)
        by lia.
      split.
      * intros Hs.
        destruct Hz as [ -> | [ -> | [ -> | [ -> | [ -> | [ -> | -> ] ] ] ] ] ];
          done.
      * intros Hc. exfalso.
        destruct Hz as [ -> | [ -> | [ -> | [ -> | [ -> | [ -> | -> ] ] ] ] ] ].
        -- by apply (Hc StatusNotFound).
        -- by apply (Hc StatusOK).
        -- by apply (Hc StatusWarning).
        -- by apply (Hc StatusError).
        -- by apply (Hc StatusStop).
        -- by apply (Hc StatusStall).
        -- by apply (Hc StatusRewind).
    + split; [|done]. intros _ []; simpl; lia.
  - split; [|done]. intros _ []; simpl; lia.
Qed.
